(** * Mesh controller: the typed repository and the informer

    A shallow embedding of the spec store ([package service]) and of the
    change dispatcher ([package informer]) of the mesh controller, with
    the properties of the specification stated over it.

    Conventions.
    - A Go [map[string]V] is a [gmap string V].  Reading a missing key
      yields the zero value, which is written out with [default].
    - The order in which [range] visits a map is left open by the Go
      runtime; it is a parameter of the development ([MapRange]).
    - [yaml.Marshal] and [yaml.Unmarshal] belong to an external library;
      they are a parameter as well ([Yaml]).
    - Methods that mutate their receiver take the state and return the
      new one; a panic is an explicit outcome. *)

From stdpp Require Import gmap strings list fin_maps.

(** ** Go runtime *)

(** [for k, v := range m]: every entry is visited once, in an order the
    runtime is free to choose. *)
Class MapRange := {
  rangeOf : ∀ {V : Type}, gmap string V → list (string * V);
  rangeOf_perm : ∀ {V : Type} (m : gmap string V), rangeOf m ≡ₚ map_to_list m
}.

(** One admissible runtime: the canonical enumeration of the map. *)
Definition canonicalRange : MapRange :=
  {| rangeOf := λ V m, map_to_list m;
     rangeOf_perm := λ V m, reflexivity (map_to_list m) |}.

(** [yaml.Marshal] / [yaml.Unmarshal] at one entity type. [None] is the
    [err != nil] result. *)
Class Yaml (E : Type) := {
  Marshal : E → option string;
  Unmarshal : string → option E
}.

(** [mvccpb.KeyValue], the raw record of the store (the fields read
    by the code). *)
Record KeyValue := { Key : string; Value : string }.

Global Instance KeyValue_eq_dec : EqDecision KeyValue.
Proof. solve_decision. Defined.

(** What a call can do besides returning: [panic(...)] on a marshalling
    bug, or [api.ClusterPanic(err)] on a store error. *)
Inductive outcome (A : Type) : Type :=
  | Returns (a : A)
  | PanicBug (payload : string)
  | ClusterPanic (err : string).
Arguments Returns {A} a.
Arguments PanicBug {A} payload.
Arguments ClusterPanic {A} err.

(** ** package layout *)

Module layout.

(** Modelled from the spec: the key layout functions of package
    [layout], which is not part of the sources at hand.  The table of
    section 3 gives the keys; a prefix is the key without its last
    component. *)
Definition ServiceSpecPrefix : string := "/services/spec/".
Definition ServiceSpecKey (serviceName : string) : string :=
  "/services/spec/" +:+ serviceName.

Definition AllServiceInstanceSpecPrefix : string := "/service-instances/spec/".
Definition ServiceInstanceSpecPrefix (serviceName : string) : string :=
  "/service-instances/spec/" +:+ serviceName +:+ "/".
Definition ServiceInstanceSpecKey (serviceName instanceID : string) : string :=
  "/service-instances/spec/" +:+ serviceName +:+ "/" +:+ instanceID.

Definition AllServiceInstanceStatusPrefix : string := "/service-instances/status/".
Definition ServiceInstanceStatusPrefix (serviceName : string) : string :=
  "/service-instances/status/" +:+ serviceName +:+ "/".
Definition ServiceInstanceStatusKey (serviceName instanceID : string) : string :=
  "/service-instances/status/" +:+ serviceName +:+ "/" +:+ instanceID.

Definition TenantPrefix : string := "/tenants/".
Definition TenantSpecKey (tenantName : string) : string :=
  "/tenants/" +:+ tenantName.

Definition IngressPrefix : string := "/ingresses/".
Definition IngressSpecKey (ingressName : string) : string :=
  "/ingresses/" +:+ ingressName.

Definition CustomResourceKindPrefix : string := "/custom-resource-kinds/".
Definition CustomResourceKindKey (kind : string) : string :=
  "/custom-resource-kinds/" +:+ kind.

Definition AllCustomResourcePrefix : string := "/custom-resources/".
Definition CustomResourcePrefix (kind : string) : string :=
  "/custom-resources/" +:+ kind +:+ "/".
Definition CustomResourceKey (kind name : string) : string :=
  "/custom-resources/" +:+ kind +:+ "/" +:+ name.

Definition GlobalCanaryHeaders : string := "/global/canary-headers".

End layout.

(** ** package spec *)

Module spec.

(** Modelled from the spec: the entity types of package [spec], which
    is not part of the sources at hand.  Each record has the fields the
    code reads, and one opaque field for the remaining configuration. *)
Definition GlobalTenant : string := "GLOBAL".

Record Service := {
  Service_Name : string;
  Service_RegisterTenant : string;
  Service_Config : string
}.

Record ServiceInstanceSpec := {
  InstanceSpec_ServiceName : string;
  InstanceSpec_InstanceID : string;
  InstanceSpec_Config : string
}.

Record ServiceInstanceStatus := {
  InstanceStatus_ServiceName : string;
  InstanceStatus_InstanceID : string;
  InstanceStatus_Report : string
}.

Record Tenant := {
  Tenant_Name : string;
  Tenant_Services : list string
}.

Record Ingress := {
  Ingress_Name : string;
  Ingress_Config : string
}.

Record CustomResourceKind := {
  CustomResourceKind_Name : string
}.

Record CustomResource := {
  CustomResource_Kind : string;
  CustomResource_Name : string;
  CustomResource_Fields : string
}.

(** The value [&spec.T{}] points to. *)
Class Zero (E : Type) := zero : E.
Global Instance Service_zero : Zero Service := Build_Service "" "" "".
Global Instance ServiceInstanceSpec_zero : Zero ServiceInstanceSpec :=
  Build_ServiceInstanceSpec "" "" "".
Global Instance ServiceInstanceStatus_zero : Zero ServiceInstanceStatus :=
  Build_ServiceInstanceStatus "" "" "".
Global Instance Tenant_zero : Zero Tenant := Build_Tenant "" [].
Global Instance Ingress_zero : Zero Ingress := Build_Ingress "" "".

Global Instance Service_eq_dec : EqDecision Service.
Proof. solve_decision. Defined.
Global Instance ServiceInstanceSpec_eq_dec : EqDecision ServiceInstanceSpec.
Proof. solve_decision. Defined.
Global Instance ServiceInstanceStatus_eq_dec : EqDecision ServiceInstanceStatus.
Proof. solve_decision. Defined.
Global Instance Tenant_eq_dec : EqDecision Tenant.
Proof. solve_decision. Defined.
Global Instance Ingress_eq_dec : EqDecision Ingress.
Proof. solve_decision. Defined.

Record GlobalCanaryHeaders := {
  ServiceHeaders : gmap string (list string)
}.

Global Instance CustomResourceKind_eq_dec : EqDecision CustomResourceKind.
Proof. solve_decision. Defined.
Global Instance CustomResource_eq_dec : EqDecision CustomResource.
Proof. solve_decision. Defined.
Global Instance GlobalCanaryHeaders_eq_dec : EqDecision GlobalCanaryHeaders.
Proof. solve_decision. Defined.

End spec.

(** ** package storage *)

Module storage.

(** Modelled from the spec: [storage.Storage], the handle on the
    replicated store, whose implementation is not part of the sources at
    hand: a key-value map with get, put, delete and prefix scan.  Every
    call can fail, and one call can fail where another succeeds:
    [ioError key] is the error a data call on that key or prefix returns,
    [syncerError] the one of [Syncer()], [syncError] the one of
    [SyncRaw] and [SyncPrefix]. *)
Record Storage := {
  content : gmap string string;
  ioError : string → option string;
  syncerError : option string;
  syncError : option string
}.

Inductive res (A : Type) : Type :=
  | Ok (a : A)
  | Err (e : string).
Arguments Ok {A} a.
Arguments Err {A} e.

Definition withContent (m : gmap string string) (s : Storage) : Storage :=
  {| content := m; ioError := ioError s;
     syncerError := syncerError s; syncError := syncError s |}.

Definition underPrefix (prefix : string) (m : gmap string string)
  : gmap string string :=
  filter (λ kv, String.prefix prefix kv.1 = true) m.

Definition Put (key value : string) (s : Storage) : res Storage :=
  match ioError s key with
  | Some e => Err e
  | None => Ok (withContent (<[key := value]> (content s)) s)
  end.

Definition Delete (key : string) (s : Storage) : res Storage :=
  match ioError s key with
  | Some e => Err e
  | None => Ok (withContent (delete key (content s)) s)
  end.

Definition Get (key : string) (s : Storage) : res (option string) :=
  match ioError s key with
  | Some e => Err e
  | None => Ok (content s !! key)
  end.

Definition GetRaw (key : string) (s : Storage) : res (option KeyValue) :=
  match ioError s key with
  | Some e => Err e
  | None => Ok (Build_KeyValue key <$> content s !! key)
  end.

Definition GetPrefix (prefix : string) (s : Storage)
  : res (gmap string string) :=
  match ioError s prefix with
  | Some e => Err e
  | None => Ok (underPrefix prefix (content s))
  end.

Definition GetRawPrefix (prefix : string) (s : Storage)
  : res (gmap string KeyValue) :=
  match ioError s prefix with
  | Some e => Err e
  | None => Ok (map_imap (λ k v, Some (Build_KeyValue k v))
                         (underPrefix prefix (content s)))
  end.

End storage.

(** ** package service: the typed repository *)

Module service.
Import layout spec storage.

Section Repository.
Context {R : MapRange}.
Context {YService : Yaml Service} {YTenant : Yaml Tenant}
        {YIngress : Yaml Ingress}
        {YInstanceSpec : Yaml ServiceInstanceSpec}
        {YInstanceStatus : Yaml ServiceInstanceStatus}
        {YKind : Yaml CustomResourceKind} {YResource : Yaml CustomResource}.

(** The loop shared by every list method:
<<
    for _, v := range kvs {
        e := &spec.E{}
        if err := yaml.Unmarshal(v.Value, e); err != nil { log; continue }
        out = append(out, e)
    }
>> *)
Definition appendDecoded {E} `{Yaml E} (out : list E) (kv : string * KeyValue)
  : list E :=
  match Unmarshal (Value kv.2) with
  | None => out
  | Some e => out ++ [e]
  end.

Definition decodeRecords {E} `{Yaml E} (kvs : gmap string KeyValue) : list E :=
  foldl appendDecoded [] (rangeOf kvs).

(** The receiver [*Service] is represented by its [store] field. *)

Definition PutServiceSpec (serviceSpec : Service) (s : Storage)
  : outcome Storage :=
  match Marshal serviceSpec with
  | None => PanicBug "marshal"
  | Some buff =>
      match Put (ServiceSpecKey (Service_Name serviceSpec)) buff s with
      | Err e => ClusterPanic e
      | Ok s' => Returns s'
      end
  end.

Definition GetServiceSpecWithInfo (serviceName : string) (s : Storage)
  : outcome (option Service * option KeyValue) :=
  match GetRaw (ServiceSpecKey serviceName) s with
  | Err e => ClusterPanic e
  | Ok None => Returns (None, None)
  | Ok (Some kv) =>
      match Unmarshal (Value kv) with
      | None => PanicBug (Value kv)
      | Some serviceSpec => Returns (Some serviceSpec, Some kv)
      end
  end.

Definition GetServiceSpec (serviceName : string) (s : Storage)
  : outcome (option Service) :=
  match GetServiceSpecWithInfo serviceName s with
  | Returns (serviceSpec, _) => Returns serviceSpec
  | PanicBug v => PanicBug v
  | ClusterPanic e => ClusterPanic e
  end.

Definition DeleteServiceSpec (serviceName : string) (s : Storage)
  : outcome Storage :=
  match Delete (ServiceSpecKey serviceName) s with
  | Err e => ClusterPanic e
  | Ok s' => Returns s'
  end.

Definition ListServiceSpecs (s : Storage) : outcome (list Service) :=
  match GetRawPrefix ServiceSpecPrefix s with
  | Err e => ClusterPanic e
  | Ok kvs => Returns (decodeRecords kvs)
  end.

Definition listServiceInstanceStatuses (all : bool) (serviceName : string)
    (s : Storage) : outcome (list ServiceInstanceStatus) :=
  let prefix :=
    if all then AllServiceInstanceStatusPrefix
    else ServiceInstanceSpecPrefix serviceName in
  match GetRawPrefix prefix s with
  | Err e => ClusterPanic e
  | Ok kvs => Returns (decodeRecords kvs)
  end.

Definition ListAllServiceInstanceStatuses (s : Storage)
  : outcome (list ServiceInstanceStatus) :=
  listServiceInstanceStatuses true "" s.

Definition ListServiceInstanceStatuses (serviceName : string) (s : Storage)
  : outcome (list ServiceInstanceStatus) :=
  listServiceInstanceStatuses false serviceName s.

Definition listServiceInstanceSpecs (all : bool) (serviceName : string)
    (s : Storage) : outcome (list ServiceInstanceSpec) :=
  let prefix :=
    if all then AllServiceInstanceSpecPrefix
    else ServiceInstanceSpecPrefix serviceName in
  match GetRawPrefix prefix s with
  | Err e => ClusterPanic e
  | Ok kvs => Returns (decodeRecords kvs)
  end.

Definition ListAllServiceInstanceSpecs (s : Storage)
  : outcome (list ServiceInstanceSpec) :=
  listServiceInstanceSpecs true "" s.

Definition ListServiceInstanceSpecs (serviceName : string) (s : Storage)
  : outcome (list ServiceInstanceSpec) :=
  listServiceInstanceSpecs false serviceName s.

Definition ListTenantSpecs (s : Storage) : outcome (list Tenant) :=
  match GetRawPrefix TenantPrefix s with
  | Err e => ClusterPanic e
  | Ok kvs => Returns (decodeRecords kvs)
  end.

Definition ListIngressSpecs (s : Storage) : outcome (list Ingress) :=
  match GetRawPrefix IngressPrefix s with
  | Err e => ClusterPanic e
  | Ok kvs => Returns (decodeRecords kvs)
  end.

Definition ListCustomResourceKinds (s : Storage)
  : outcome (list CustomResourceKind) :=
  match GetRawPrefix CustomResourceKindPrefix s with
  | Err e => ClusterPanic e
  | Ok kvs => Returns (decodeRecords kvs)
  end.

Definition ListCustomResources (kind : string) (s : Storage)
  : outcome (list CustomResource) :=
  let prefix :=
    if decide (kind = "") then AllCustomResourcePrefix
    else CustomResourcePrefix kind in
  match GetRawPrefix prefix s with
  | Err e => ClusterPanic e
  | Ok kvs => Returns (decodeRecords kvs)
  end.

End Repository.

(** The entities decoded from the records stored under [prefix], one for
    each record that decodes. *)
Definition decodedUnder {E : Type} `{Yaml E} (prefix : string) (s : Storage)
  : list E :=
  omap (λ kv : string * string, Unmarshal kv.2)
       (map_to_list (underPrefix prefix (content s))).

(** The call returned, and what it returned is, up to the order of the
    scan, the decodable part of the records under [prefix]. *)
Definition lists {E : Type} `{Yaml E} (r : outcome (list E))
    (prefix : string) (s : Storage) : Prop :=
  ∃ l, r = Returns l ∧ l ≡ₚ decodedUnder prefix s.

Section RepositoryRest.
Context {YTenant : Yaml Tenant} {YIngress : Yaml Ingress}
        {YInstanceSpec : Yaml ServiceInstanceSpec}
        {YKind : Yaml CustomResourceKind} {YResource : Yaml CustomResource}
        {YHeaders : Yaml spec.GlobalCanaryHeaders}.

Definition GetGlobalCanaryHeadersWithInfo (s : Storage)
  : outcome (option spec.GlobalCanaryHeaders * option KeyValue) :=
  match GetRaw layout.GlobalCanaryHeaders s with
  | Err e => ClusterPanic e
  | Ok None => Returns (None, None)
  | Ok (Some kv) =>
      match Unmarshal (Value kv) with
      | None => PanicBug (Value kv)
      | Some globalCanaryHeaders => Returns (Some globalCanaryHeaders, Some kv)
      end
  end.

Definition GetGlobalCanaryHeaders (s : Storage)
  : outcome (option spec.GlobalCanaryHeaders) :=
  match GetGlobalCanaryHeadersWithInfo s with
  | Returns (globalCanaryHeaders, _) => Returns globalCanaryHeaders
  | PanicBug v => PanicBug v
  | ClusterPanic e => ClusterPanic e
  end.

Definition PutGlobalCanaryHeaders
    (globalCanaryHeaders : spec.GlobalCanaryHeaders) (s : Storage)
  : outcome Storage :=
  match Marshal globalCanaryHeaders with
  | None => PanicBug "marshal"
  | Some buff =>
      match Put layout.GlobalCanaryHeaders buff s with
      | Err e => ClusterPanic e
      | Ok s' => Returns s'
      end
  end.

Definition GetTenantSpecWithInfo (tenantName : string) (s : Storage)
  : outcome (option Tenant * option KeyValue) :=
  match GetRaw (TenantSpecKey tenantName) s with
  | Err e => ClusterPanic e
  | Ok None => Returns (None, None)
  | Ok (Some kvs) =>
      match Unmarshal (Value kvs) with
      | None => PanicBug (Value kvs)
      | Some tenant => Returns (Some tenant, Some kvs)
      end
  end.

Definition GetTenantSpec (tenantName : string) (s : Storage)
  : outcome (option Tenant) :=
  match GetTenantSpecWithInfo tenantName s with
  | Returns (tenant, _) => Returns tenant
  | PanicBug v => PanicBug v
  | ClusterPanic e => ClusterPanic e
  end.

Definition PutTenantSpec (tenantSpec : Tenant) (s : Storage)
  : outcome Storage :=
  match Marshal tenantSpec with
  | None => PanicBug "marshal"
  | Some buff =>
      match Put (TenantSpecKey (Tenant_Name tenantSpec)) buff s with
      | Err e => ClusterPanic e
      | Ok s' => Returns s'
      end
  end.

Definition DeleteTenantSpec (tenantName : string) (s : Storage)
  : outcome Storage :=
  match Delete (TenantSpecKey tenantName) s with
  | Err e => ClusterPanic e
  | Ok s' => Returns s'
  end.

(** [GetServiceInstanceSpec] reads with [store.Get], which yields the
    value alone. *)
Definition GetServiceInstanceSpec (serviceName instanceID : string)
    (s : Storage) : outcome (option ServiceInstanceSpec) :=
  match Get (ServiceInstanceSpecKey serviceName instanceID) s with
  | Err e => ClusterPanic e
  | Ok None => Returns None
  | Ok (Some value) =>
      match Unmarshal value with
      | None => PanicBug value
      | Some instanceSpec => Returns (Some instanceSpec)
      end
  end.

Definition PutServiceInstanceSpec (_spec : ServiceInstanceSpec) (s : Storage)
  : outcome Storage :=
  match Marshal _spec with
  | None => PanicBug "marshal"
  | Some buff =>
      match Put (ServiceInstanceSpecKey (InstanceSpec_ServiceName _spec)
                   (InstanceSpec_InstanceID _spec)) buff s with
      | Err e => ClusterPanic e
      | Ok s' => Returns s'
      end
  end.

Definition DeleteServiceInstanceSpec (serviceName instanceID : string)
    (s : Storage) : outcome Storage :=
  match Delete (ServiceInstanceSpecKey serviceName instanceID) s with
  | Err e => ClusterPanic e
  | Ok s' => Returns s'
  end.

Definition GetIngressSpecWithInfo (ingressName : string) (s : Storage)
  : outcome (option Ingress * option KeyValue) :=
  match GetRaw (IngressSpecKey ingressName) s with
  | Err e => ClusterPanic e
  | Ok None => Returns (None, None)
  | Ok (Some kvs) =>
      match Unmarshal (Value kvs) with
      | None => PanicBug (Value kvs)
      | Some ingress => Returns (Some ingress, Some kvs)
      end
  end.

Definition GetIngressSpec (ingressName : string) (s : Storage)
  : outcome (option Ingress) :=
  match GetIngressSpecWithInfo ingressName s with
  | Returns (ingress, _) => Returns ingress
  | PanicBug v => PanicBug v
  | ClusterPanic e => ClusterPanic e
  end.

Definition PutIngressSpec (ingressSpec : Ingress) (s : Storage)
  : outcome Storage :=
  match Marshal ingressSpec with
  | None => PanicBug "marshal"
  | Some buff =>
      match Put (IngressSpecKey (Ingress_Name ingressSpec)) buff s with
      | Err e => ClusterPanic e
      | Ok s' => Returns s'
      end
  end.

Definition DeleteIngressSpec (ingressName : string) (s : Storage)
  : outcome Storage :=
  match Delete (IngressSpecKey ingressName) s with
  | Err e => ClusterPanic e
  | Ok s' => Returns s'
  end.

Definition DeleteCustomResourceKind (kind : string) (s : Storage)
  : outcome Storage :=
  match Delete (CustomResourceKindKey kind) s with
  | Err e => ClusterPanic e
  | Ok s' => Returns s'
  end.

Definition GetCustomResourceKind (name : string) (s : Storage)
  : outcome (option CustomResourceKind) :=
  match GetRaw (CustomResourceKindKey name) s with
  | Err e => ClusterPanic e
  | Ok None => Returns None
  | Ok (Some kvs) =>
      match Unmarshal (Value kvs) with
      | None => PanicBug (Value kvs)
      | Some kind => Returns (Some kind)
      end
  end.

Definition PutCustomResourceKind (kind : CustomResourceKind) (s : Storage)
  : outcome Storage :=
  match Marshal kind with
  | None => PanicBug "marshal"
  | Some buff =>
      match Put (CustomResourceKindKey (CustomResourceKind_Name kind)) buff s
      with
      | Err e => ClusterPanic e
      | Ok s' => Returns s'
      end
  end.

Definition DeleteCustomResource (kind name : string) (s : Storage)
  : outcome Storage :=
  match Delete (CustomResourceKey kind name) s with
  | Err e => ClusterPanic e
  | Ok s' => Returns s'
  end.

Definition GetCustomResource (kind name : string) (s : Storage)
  : outcome (option CustomResource) :=
  match GetRaw (CustomResourceKey kind name) s with
  | Err e => ClusterPanic e
  | Ok None => Returns None
  | Ok (Some kvs) =>
      match Unmarshal (Value kvs) with
      | None => PanicBug (Value kvs)
      | Some resource => Returns (Some resource)
      end
  end.

Definition PutCustomResource (obj : CustomResource) (s : Storage)
  : outcome Storage :=
  match Marshal obj with
  | None => PanicBug "marshal"
  | Some buff =>
      match Put (CustomResourceKey (CustomResource_Kind obj)
                   (CustomResource_Name obj)) buff s with
      | Err e => ClusterPanic e
      | Ok s' => Returns s'
      end
  end.

End RepositoryRest.

End service.

(** ** package cluster: syncers *)

Module cluster.

(** Modelled from the spec: [cluster.Syncer], a live subscription to one
    key or one prefix, whose implementation is not part of the sources at
    hand.  A syncer is a shared object: the informer holds pointers to it,
    so the syncers live in a heap and a pointer is an index into it.
    [Close()] closes the subscription and its channel; the task ranging
    over that channel then leaves its loop. *)
Inductive Subscription :=
  | NotSubscribed
  | RawKey (key : string)
  | Prefix (prefix : string).

Record Syncer := { subscription : Subscription; syncerClosed : bool }.

Abbreviation Heap := (list Syncer).

Definition fresh : Syncer :=
  {| subscription := NotSubscribed; syncerClosed := false |}.

(** [syncer.Close()] *)
Definition Close (p : nat) (h : Heap) : Heap :=
  alter (λ s, {| subscription := subscription s; syncerClosed := true |}) p h.

(** [syncer.SyncRaw(key)] and [syncer.SyncPrefix(prefix)], once they
    have succeeded. *)
Definition subscribe (sub : Subscription) (p : nat) (h : Heap) : Heap :=
  alter (λ s, {| subscription := sub; syncerClosed := syncerClosed s |}) p h.

(** The channel of syncer [p] still delivers. *)
Definition isOpen (p : nat) (h : Heap) : bool :=
  match h !! p with
  | Some s => negb (syncerClosed s)
  | None => false
  end.

End cluster.

(** ** package informer *)

Module informer.
Import layout spec storage.

Definition EventUpdate : string := "Update".
Definition EventDelete : string := "Delete".

Definition GJSONPath : Type := string.
Definition AllParts : GJSONPath := "".
Definition ServiceObservability : GJSONPath := "observability".
Definition ServiceResilience : GJSONPath := "resilience".
Definition ServiceCanary : GJSONPath := "canary".
Definition ServiceLoadBalance : GJSONPath := "loadBalance".
Definition ServiceCircuitBreaker : GJSONPath := "resilience.circuitBreaker".

Record Event := { EventType : string; RawKV : option KeyValue }.

Inductive error :=
  | ErrAlreadyWatched
  | ErrClosed
  | ErrNotFound
  | ErrStore (e : string).

(** [meshInformer], without its mutex and its [done] channel.  [syncers]
    maps a syncerKey to a pointer into the heap of syncers. *)
Record meshInformer := {
  store : Storage;
  syncers : gmap string nat;
  service : string;
  globalServices : gmap string bool;
  service2Tenants : gmap string string;
  closed : bool
}.

Definition setSyncers (m : gmap string nat) (i : meshInformer) : meshInformer :=
  {| store := store i; syncers := m; service := service i;
     globalServices := globalServices i;
     service2Tenants := service2Tenants i; closed := closed i |}.

Definition setGlobalServices (m : gmap string bool) (i : meshInformer)
  : meshInformer :=
  {| store := store i; syncers := syncers i; service := service i;
     globalServices := m;
     service2Tenants := service2Tenants i; closed := closed i |}.

Definition setService2Tenants (m : gmap string string) (i : meshInformer)
  : meshInformer :=
  {| store := store i; syncers := syncers i; service := service i;
     globalServices := globalServices i;
     service2Tenants := m; closed := closed i |}.

Definition setClosed (b : bool) (i : meshInformer) : meshInformer :=
  {| store := store i; syncers := syncers i; service := service i;
     globalServices := globalServices i;
     service2Tenants := service2Tenants i; closed := b |}.

Definition setStore (s : Storage) (i : meshInformer) : meshInformer :=
  {| store := s; syncers := syncers i; service := service i;
     globalServices := globalServices i;
     service2Tenants := service2Tenants i; closed := closed i |}.

(** [gs[name]] on a [map[string]bool] and [s2t[name]] on a
    [map[string]string]: the zero value when the key is missing. *)
Definition boolAt (m : gmap string bool) (k : string) : bool :=
  default false (m !! k).
Definition stringAt (m : gmap string string) (k : string) : string :=
  default "" (m !! k).

Section Informer.
Context {R : MapRange}.
Context {YService : Yaml Service} {YTenant : Yaml Tenant}
        {YIngress : Yaml Ingress}
        {YInstanceSpec : Yaml ServiceInstanceSpec}
        {YInstanceStatus : Yaml ServiceInstanceStatus}.

(** The state of the caller, on which its callbacks act. *)
Context {U : Type}.

(** The callback types.  The returned flag tells whether the watch goes
    on.  The internal prefix handlers are methods of the informer, so a
    prefix handler sees the informer as well. *)
Definition specHandleFunc : Type := Event → string → U → bool * U.
Definition specsHandleFunc : Type :=
  gmap string string → meshInformer → U → bool * meshInformer * U.

Definition PartFunc (E : Type) : Type := Event → E → U → bool * U.
Definition PrefixFunc (E : Type) : Type := gmap string E → U → bool * U.

(** The goroutine started by a registration: it ranges over the channel
    of its syncer. *)
Inductive Task :=
  | RawTask (syncerKey : string) (fn : specHandleFunc)
  | PrefixTask (syncerKey : string) (fn : specsHandleFunc).

Record World := {
  inf : meshInformer;
  heap : cluster.Heap;
  tasks : gmap nat Task;
  user : U
}.

Definition setInf (i : meshInformer) (w : World) : World :=
  {| inf := i; heap := heap w; tasks := tasks w; user := user w |}.
Definition setHeap (h : cluster.Heap) (w : World) : World :=
  {| inf := inf w; heap := h; tasks := tasks w; user := user w |}.
Definition setTasks (t : gmap nat Task) (w : World) : World :=
  {| inf := inf w; heap := heap w; tasks := t; user := user w |}.
Definition setUser (u : U) (w : World) : World :=
  {| inf := inf w; heap := heap w; tasks := tasks w; user := u |}.

(** *** The tenant indices *)

(** The first loop of [updateGlobalServices]: the first visited record
    that decodes to the tenant named [GlobalTenant]. *)
Fixpoint findGlobalTenant (kvs : list (string * string)) : option Tenant :=
  match kvs with
  | [] => None
  | (_, v) :: rest =>
      match Unmarshal v with
      | None => findGlobalTenant rest
      | Some t =>
          if decide (Tenant_Name t = GlobalTenant) then Some t
          else findGlobalTenant rest
      end
  end.

Definition updateGlobalServices (kvs : gmap string string)
    (i : meshInformer) : bool * meshInformer :=
  match findGlobalTenant (rangeOf kvs) with
  | None => (true, i)
  | Some tenant =>
      let services :=
        foldl (λ m s, <[s := true]> m) (∅ : gmap string bool)
              (Tenant_Services tenant) in
      (true, setGlobalServices services i)
  end.

Definition buildServiceToTenantMap (kvs : gmap string string)
    (i : meshInformer) : bool * meshInformer :=
  let s2t :=
    foldl (λ (m : gmap string string) (kv : string * string),
             match Unmarshal kv.2 with
             | None => m
             | Some service =>
                 <[Service_Name service := Service_RegisterTenant service]> m
             end) ∅ (rangeOf kvs) in
  (true, setService2Tenants s2t i).

Definition internalHandler
    (method : gmap string string → meshInformer → bool * meshInformer)
  : specsHandleFunc :=
  λ kvs i u, let '(b, i') := method kvs i in (b, i', u).

(** *** Stopping *)

Definition stopSyncOneKey (key : string) (w : World) : World :=
  match syncers (inf w) !! key with
  | Some syncer =>
      setInf (setSyncers (delete key (syncers (inf w))) (inf w))
             (setHeap (cluster.Close syncer (heap w)) w)
  | None => w
  end.

(** *** The generic registrations *)

Definition onSpecPart (storeKey syncerKey : string) (gjsonPath : GJSONPath)
    (fn : specHandleFunc) (w : World) : option error * World :=
  if closed (inf w) then (Some ErrClosed, w)
  else if decide (is_Some (syncers (inf w) !! syncerKey))
  then (Some ErrAlreadyWatched, w)
  else
    match syncerError (store (inf w)) with
    | Some e => (Some (ErrStore e), w)
    | None =>
        let syncer := length (heap w) in
        let w1 := setHeap (heap w ++ [cluster.fresh]) w in
        match syncError (store (inf w)) with
        | Some e => (Some (ErrStore e), w1)
        | None =>
            let h := cluster.subscribe (cluster.RawKey storeKey) syncer
                                       (heap w1) in
            (None,
             setTasks (<[syncer := RawTask syncerKey fn]> (tasks w))
               (setInf (setSyncers (<[syncerKey := syncer]> (syncers (inf w)))
                                   (inf w))
                  (setHeap h w1)))
        end
    end.

Definition onSpecs (storePrefix syncerKey : string)
    (fn : specsHandleFunc) (w : World) : option error * World :=
  if closed (inf w) then (Some ErrClosed, w)
  else if decide (is_Some (syncers (inf w) !! syncerKey))
  then (Some ErrAlreadyWatched, w)
  else
    match syncerError (store (inf w)) with
    | Some e => (Some (ErrStore e), w)
    | None =>
        let syncer := length (heap w) in
        let w1 := setHeap (heap w ++ [cluster.fresh]) w in
        match syncError (store (inf w)) with
        | Some e => (Some (ErrStore e), w1)
        | None =>
            let h := cluster.subscribe (cluster.Prefix storePrefix) syncer
                                       (heap w1) in
            (None,
             setTasks (<[syncer := PrefixTask syncerKey fn]> (tasks w))
               (setInf (setSyncers (<[syncerKey := syncer]> (syncers (inf w)))
                                   (inf w))
                  (setHeap h w1)))
        end
    end.

Definition Close (w : World) : World :=
  let h := foldl (λ h kv, cluster.Close kv.2 h) (heap w)
                 (rangeOf (syncers (inf w))) in
  setInf (setClosed true (inf w)) (setHeap h w).

(** *** The loops of the tasks, one iteration at a time *)

Definition rawEvent (kv : option KeyValue) : Event * string :=
  match kv with
  | None => ({| EventType := EventDelete; RawKV := None |}, "")
  | Some r => ({| EventType := EventUpdate; RawKV := Some r |}, Value r)
  end.

(** The body of [for kv := range ch] in [sync]. *)
Definition sync (syncerKey : string) (fn : specHandleFunc)
    (kv : option KeyValue) (w : World) : World :=
  let '(event, value) := rawEvent kv in
  let '(continue, u) := fn event value (user w) in
  let w' := setUser u w in
  if continue then w' else stopSyncOneKey syncerKey w'.

(** The body of [for kvs := range ch] in [syncPrefix]. *)
Definition syncPrefix (syncerKey : string) (fn : specsHandleFunc)
    (kvs : gmap string string) (w : World) : World :=
  let '(continue, i, u) := fn kvs (inf w) (user w) in
  let w' := setUser u (setInf i w) in
  if continue then w' else stopSyncOneKey syncerKey w'.

(** *** Single-key watches *)

(** The closure [specFunc] built by every [OnPartOf...] method: on a
    delete event the callback gets the fresh [&spec.E{}]; otherwise the
    value is decoded into it, and a value that does not decode is logged
    and the watch goes on without calling [fn]. *)
Definition specFunc {E : Type} `{Yaml E, Zero E} (fn : PartFunc E)
  : specHandleFunc :=
  λ event value u,
    if decide (EventType event ≠ EventDelete) then
      match Unmarshal value with
      | None => (true, u)
      | Some e => fn event e u
      end
    else fn event zero u.

Definition serviceSpecSyncerKey (serviceName : string) (gjsonPath : GJSONPath)
  : string :=
  "service-spec-" +:+ serviceName +:+ "-" +:+ gjsonPath.

Definition OnPartOfServiceSpec (serviceName : string) (gjsonPath : GJSONPath)
    (fn : PartFunc Service) (w : World) : option error * World :=
  let storeKey := ServiceSpecKey serviceName in
  let syncerKey := serviceSpecSyncerKey serviceName gjsonPath in
  onSpecPart storeKey syncerKey gjsonPath (specFunc fn) w.

Definition StopWatchServiceSpec (serviceName : string)
    (gjsonPath : GJSONPath) (w : World) : World :=
  let syncerKey := serviceSpecSyncerKey serviceName gjsonPath in
  stopSyncOneKey syncerKey w.

Definition OnPartOfServiceInstanceSpec (serviceName instanceID : string)
    (gjsonPath : GJSONPath) (fn : PartFunc ServiceInstanceSpec) (w : World)
  : option error * World :=
  let storeKey := ServiceInstanceSpecKey serviceName instanceID in
  let syncerKey :=
    "service-instance-spec-" +:+ serviceName +:+ "-" +:+ instanceID
      +:+ "-" +:+ gjsonPath in
  onSpecPart storeKey syncerKey gjsonPath (specFunc fn) w.

Definition OnPartOfServiceInstanceStatus (serviceName instanceID : string)
    (gjsonPath : GJSONPath) (fn : PartFunc ServiceInstanceStatus) (w : World)
  : option error * World :=
  let storeKey := ServiceInstanceStatusKey serviceName instanceID in
  let syncerKey :=
    "service-instance-status-" +:+ serviceName +:+ "-" +:+ instanceID
      +:+ "-" +:+ gjsonPath in
  onSpecPart storeKey syncerKey gjsonPath (specFunc fn) w.

Definition OnPartOfTenantSpec (tenant : string) (gjsonPath : GJSONPath)
    (fn : PartFunc Tenant) (w : World) : option error * World :=
  let storeKey := TenantSpecKey tenant in
  let syncerKey := "tenant-" +:+ tenant in
  onSpecPart storeKey syncerKey gjsonPath (specFunc fn) w.

Definition OnPartOfIngressSpec (ingress : string) (gjsonPath : GJSONPath)
    (fn : PartFunc Ingress) (w : World) : option error * World :=
  let storeKey := IngressSpecKey ingress in
  let syncerKey := "ingress-" +:+ ingress in
  onSpecPart storeKey syncerKey gjsonPath (specFunc fn) w.

(** *** Prefix watches *)

(** The local variable [tenant] of the three filtering closures:
<<
    var tenant string
    if len(inf.service) > 0 && !gs[inf.service] { tenant = s2t[inf.service] }
>> *)
Definition scopeTenant (i : meshInformer) : string :=
  if bool_decide (0 < String.length (service i))
     && negb (boolAt (globalServices i) (service i))
  then stringAt (service2Tenants i) (service i)
  else "".

(** The map [services] built by the closure of [OnAllServiceSpecs]. *)
Definition filterServices (i : meshInformer) (kvs : gmap string string)
  : gmap string Service :=
  let gs := globalServices i in
  let tenant := scopeTenant i in
  foldl (λ (services : gmap string Service) (kv : string * string),
           match Unmarshal kv.2 with
           | None => services
           | Some service =>
               if bool_decide (String.length tenant = 0)
                  || boolAt gs (Service_Name service)
                  || bool_decide (Service_RegisterTenant service = tenant)
               then <[kv.1 := service]> services
               else services
           end) ∅ (rangeOf kvs).

(** The map [instanceSpecs] built by the closure of
    [onServiceInstanceSpecs]. *)
Definition filterInstanceSpecs (i : meshInformer) (kvs : gmap string string)
  : gmap string ServiceInstanceSpec :=
  let gs := globalServices i in
  let s2t := service2Tenants i in
  let tenant := scopeTenant i in
  foldl (λ (instanceSpecs : gmap string ServiceInstanceSpec)
           (kv : string * string),
           match Unmarshal kv.2 with
           | None => instanceSpecs
           | Some instanceSpec =>
               if bool_decide (String.length tenant = 0)
                  || boolAt gs (InstanceSpec_ServiceName instanceSpec)
                  || bool_decide
                       (stringAt s2t (InstanceSpec_ServiceName instanceSpec)
                        = tenant)
               then <[kv.1 := instanceSpec]> instanceSpecs
               else instanceSpecs
           end) ∅ (rangeOf kvs).

(** The map [instanceStatuses] built by the closure of
    [onServiceInstanceStatuses]. *)
Definition filterInstanceStatuses (i : meshInformer)
    (kvs : gmap string string) : gmap string ServiceInstanceStatus :=
  let gs := globalServices i in
  let s2t := service2Tenants i in
  let tenant := scopeTenant i in
  foldl (λ (instanceStatuses : gmap string ServiceInstanceStatus)
           (kv : string * string),
           match Unmarshal kv.2 with
           | None => instanceStatuses
           | Some instanceStatus =>
               if bool_decide (String.length tenant = 0)
                  || boolAt gs (InstanceStatus_ServiceName instanceStatus)
                  || bool_decide
                       (stringAt s2t
                          (InstanceStatus_ServiceName instanceStatus)
                        = tenant)
               then <[kv.1 := instanceStatus]> instanceStatuses
               else instanceStatuses
           end) ∅ (rangeOf kvs).

(** The maps built by the closures of [OnAllTenantSpecs] and
    [OnAllIngressSpecs]: no filter. *)
Definition decodeAll {E : Type} `{Yaml E} (kvs : gmap string string)
  : gmap string E :=
  foldl (λ (out : gmap string E) (kv : string * string),
           match Unmarshal kv.2 with
           | None => out
           | Some e => <[kv.1 := e]> out
           end) ∅ (rangeOf kvs).

(** A prefix closure reads the indices, builds its map and hands it to
    the callback. *)
Definition specsFunc {E : Type}
    (build : meshInformer → gmap string string → gmap string E)
    (fn : PrefixFunc E) : specsHandleFunc :=
  λ kvs i u, let '(b, u') := fn (build i kvs) u in (b, i, u').

Definition OnAllServiceSpecs (fn : PrefixFunc Service) (w : World)
  : option error * World :=
  let storeKey := ServiceSpecPrefix in
  let syncerKey := "prefix-service" in
  onSpecs storeKey syncerKey (specsFunc filterServices fn) w.

Definition serviceInstanceSpecSyncerKey (serviceName : string) : string :=
  "prefix-service-instance-spec-" +:+ serviceName.

Definition onServiceInstanceSpecs (storeKey syncerKey : string)
    (fn : PrefixFunc ServiceInstanceSpec) (w : World)
  : option error * World :=
  onSpecs storeKey syncerKey (specsFunc filterInstanceSpecs fn) w.

Definition OnServiceInstanceSpecs (serviceName : string)
    (fn : PrefixFunc ServiceInstanceSpec) (w : World)
  : option error * World :=
  let storeKey := ServiceInstanceSpecPrefix serviceName in
  let syncerKey := serviceInstanceSpecSyncerKey serviceName in
  onServiceInstanceSpecs storeKey syncerKey fn w.

Definition OnAllServiceInstanceSpecs (fn : PrefixFunc ServiceInstanceSpec)
    (w : World) : option error * World :=
  let storeKey := AllServiceInstanceSpecPrefix in
  let syncerKey := "prefix-service-instance" in
  onServiceInstanceSpecs storeKey syncerKey fn w.

Definition StopWatchServiceInstanceSpec (serviceName : string) (w : World)
  : World :=
  let syncerKey := serviceInstanceSpecSyncerKey serviceName in
  stopSyncOneKey syncerKey w.

Definition onServiceInstanceStatuses (storeKey syncerKey : string)
    (fn : PrefixFunc ServiceInstanceStatus) (w : World)
  : option error * World :=
  onSpecs storeKey syncerKey (specsFunc filterInstanceStatuses fn) w.

Definition OnServiceInstanceStatuses (serviceName : string)
    (fn : PrefixFunc ServiceInstanceStatus) (w : World)
  : option error * World :=
  let storeKey := ServiceInstanceStatusPrefix serviceName in
  let syncerKey := "prefix-service-instance-status-" +:+ serviceName in
  onServiceInstanceStatuses storeKey syncerKey fn w.

Definition OnAllServiceInstanceStatuses
    (fn : PrefixFunc ServiceInstanceStatus) (w : World)
  : option error * World :=
  let storeKey := AllServiceInstanceStatusPrefix in
  let syncerKey := "prefix-service-instance-status" in
  onServiceInstanceStatuses storeKey syncerKey fn w.

Definition OnAllTenantSpecs (fn : PrefixFunc Tenant) (w : World)
  : option error * World :=
  let storeKey := TenantPrefix in
  let syncerKey := "prefix-tenant" in
  onSpecs storeKey syncerKey (specsFunc (λ _, decodeAll) fn) w.

Definition OnAllIngressSpecs (fn : PrefixFunc Ingress) (w : World)
  : option error * World :=
  let storeKey := IngressPrefix in
  let syncerKey := "prefix-ingress" in
  onSpecs storeKey syncerKey (specsFunc (λ _, decodeAll) fn) w.

(** *** Construction *)

Definition NewInformer (store : Storage) (service : string) (u : U)
  : World :=
  let i := {| store := store; syncers := ∅; service := service;
              globalServices := ∅; service2Tenants := ∅;
              closed := false |} in
  let w := {| inf := i; heap := []; tasks := ∅; user := u |} in
  if decide (String.length service = 0) then w
  else
    let storeKey := ServiceSpecPrefix in
    match GetPrefix storeKey store with
    | Err _ => w
    | Ok services =>
        let w := setInf (buildServiceToTenantMap services (inf w)).2 w in
        let syncerKey := "informer-service" in
        let w := (onSpecs storeKey syncerKey
                          (internalHandler buildServiceToTenantMap) w).2 in
        let storeKey := TenantSpecKey GlobalTenant in
        match GetPrefix storeKey store with
        | Err _ => w
        | Ok tenants =>
            let w := setInf (updateGlobalServices tenants (inf w)).2 w in
            let syncerKey := "informer-global-tenant" in
            (onSpecs storeKey syncerKey
                     (internalHandler updateGlobalServices) w).2
        end
    end.

(** *** The interface, as data *)

(** One constructor for each registration method of [Informer]. *)
Inductive Watch :=
  | PartOfServiceSpec (serviceName : string) (gjsonPath : GJSONPath)
      (fn : PartFunc Service)
  | AllServiceSpecs (fn : PrefixFunc Service)
  | PartOfServiceInstanceSpec (serviceName instanceID : string)
      (gjsonPath : GJSONPath) (fn : PartFunc ServiceInstanceSpec)
  | ServiceInstanceSpecs (serviceName : string)
      (fn : PrefixFunc ServiceInstanceSpec)
  | AllServiceInstanceSpecs (fn : PrefixFunc ServiceInstanceSpec)
  | PartOfServiceInstanceStatus (serviceName instanceID : string)
      (gjsonPath : GJSONPath) (fn : PartFunc ServiceInstanceStatus)
  | ServiceInstanceStatuses (serviceName : string)
      (fn : PrefixFunc ServiceInstanceStatus)
  | AllServiceInstanceStatuses (fn : PrefixFunc ServiceInstanceStatus)
  | PartOfTenantSpec (tenantName : string) (gjsonPath : GJSONPath)
      (fn : PartFunc Tenant)
  | AllTenantSpecs (fn : PrefixFunc Tenant)
  | PartOfIngressSpec (serviceName : string) (gjsonPath : GJSONPath)
      (fn : PartFunc Ingress)
  | AllIngressSpecs (fn : PrefixFunc Ingress).

Definition register (r : Watch) (w : World) : option error * World :=
  match r with
  | PartOfServiceSpec n p fn => OnPartOfServiceSpec n p fn w
  | AllServiceSpecs fn => OnAllServiceSpecs fn w
  | PartOfServiceInstanceSpec n id p fn =>
      OnPartOfServiceInstanceSpec n id p fn w
  | ServiceInstanceSpecs n fn => OnServiceInstanceSpecs n fn w
  | AllServiceInstanceSpecs fn => OnAllServiceInstanceSpecs fn w
  | PartOfServiceInstanceStatus n id p fn =>
      OnPartOfServiceInstanceStatus n id p fn w
  | ServiceInstanceStatuses n fn => OnServiceInstanceStatuses n fn w
  | AllServiceInstanceStatuses fn => OnAllServiceInstanceStatuses fn w
  | PartOfTenantSpec n p fn => OnPartOfTenantSpec n p fn w
  | AllTenantSpecs fn => OnAllTenantSpecs fn w
  | PartOfIngressSpec n p fn => OnPartOfIngressSpec n p fn w
  | AllIngressSpecs fn => OnAllIngressSpecs fn w
  end.

(** The syncerKey each method computes. *)
Definition syncerKeyOf (r : Watch) : string :=
  match r with
  | PartOfServiceSpec n p _ => serviceSpecSyncerKey n p
  | AllServiceSpecs _ => "prefix-service"
  | PartOfServiceInstanceSpec n id p _ =>
      "service-instance-spec-" +:+ n +:+ "-" +:+ id +:+ "-" +:+ p
  | ServiceInstanceSpecs n _ => serviceInstanceSpecSyncerKey n
  | AllServiceInstanceSpecs _ => "prefix-service-instance"
  | PartOfServiceInstanceStatus n id p _ =>
      "service-instance-status-" +:+ n +:+ "-" +:+ id +:+ "-" +:+ p
  | ServiceInstanceStatuses n _ => "prefix-service-instance-status-" +:+ n
  | AllServiceInstanceStatuses _ => "prefix-service-instance-status"
  | PartOfTenantSpec n _ _ => "tenant-" +:+ n
  | AllTenantSpecs _ => "prefix-tenant"
  | PartOfIngressSpec n _ _ => "ingress-" +:+ n
  | AllIngressSpecs _ => "prefix-ingress"
  end.

(** What can happen to an informer: a call of its interface, an element
    arriving on the channel of a syncer, or the store changing under
    it. *)
Inductive Op :=
  | DoRegister (r : Watch)
  | DoStopServiceSpec (serviceName : string) (gjsonPath : GJSONPath)
  | DoStopServiceInstanceSpec (serviceName : string)
  | DoClose
  | Deliver (syncer : nat) (kv : option KeyValue)
  | DeliverPrefix (syncer : nat) (kvs : gmap string string)
  | StoreBecomes (s : Storage).

(** The task on the channel of [syncer] takes one element: nothing
    happens when that channel is closed, or carries the other kind of
    element. *)
Definition receive (syncer : nat) (kv : option KeyValue) (w : World)
  : World :=
  match tasks w !! syncer with
  | Some (RawTask syncerKey fn) =>
      if cluster.isOpen syncer (heap w) then sync syncerKey fn kv w else w
  | _ => w
  end.

Definition receivePrefix (syncer : nat) (kvs : gmap string string)
    (w : World) : World :=
  match tasks w !! syncer with
  | Some (PrefixTask syncerKey fn) =>
      if cluster.isOpen syncer (heap w) then syncPrefix syncerKey fn kvs w
      else w
  | _ => w
  end.

Definition exec (o : Op) (w : World) : World :=
  match o with
  | DoRegister r => (register r w).2
  | DoStopServiceSpec n p => StopWatchServiceSpec n p w
  | DoStopServiceInstanceSpec n => StopWatchServiceInstanceSpec n w
  | DoClose => Close w
  | Deliver syncer kv => receive syncer kv w
  | DeliverPrefix syncer kvs => receivePrefix syncer kvs w
  | StoreBecomes s => setInf (setStore s (inf w)) w
  end.

Definition run (ops : list Op) (w : World) : World :=
  foldl (λ w o, exec o w) w ops.

(** *** Notions used to state the properties *)

Definition taskKey (t : Task) : string :=
  match t with
  | RawTask syncerKey _ => syncerKey
  | PrefixTask syncerKey _ => syncerKey
  end.

(** A prefix handler may refresh the two indices; it leaves the rest of
    the informer alone. *)
Definition indicesOnly (fn : specsHandleFunc) : Prop :=
  ∀ kvs i u,
    let i' := (fn kvs i u).1.2 in
    store i' = store i ∧ syncers i' = syncers i
    ∧ service i' = service i ∧ closed i' = closed i.

(** The states the informer can be in: tasks and registrations point
    into the heap, a task whose channel is open is the one registered
    under its syncerKey, and the prefix handlers are index-only. *)
Record consistent (w : World) : Prop := {
  tasks_allocated :
    ∀ p t, tasks w !! p = Some t → p < length (heap w);
  open_registered :
    ∀ p t, tasks w !! p = Some t → cluster.isOpen p (heap w) = true →
           syncers (inf w) !! taskKey t = Some p;
  handlers_indicesOnly :
    ∀ p k fn, tasks w !! p = Some (PrefixTask k fn) → indicesOnly fn
}.

(** The states an informer goes through, from its construction on. *)
Inductive reachable : World → Prop :=
  | reachable_new (st : Storage) (name : string) (u : U) :
      reachable (NewInformer st name u)
  | reachable_step (o : Op) (w : World) :
      reachable w → reachable (exec o w).

(** Syncer [p] exists and is closed. *)
Definition stillClosed (p : nat) (w : World) : Prop :=
  p < length (heap w) ∧ cluster.isOpen p (heap w) = false.

(** The store lets a registration under the syncerKey of [r] through. *)
Definition ready (w : World) (r : Watch) : Prop :=
  closed (inf w) = false
  ∧ syncerError (store (inf w)) = None
  ∧ syncError (store (inf w)) = None
  ∧ syncers (inf w) !! syncerKeyOf r = None.

(** [r1] then [r2]: both accepted, as two watches with two syncers. *)
Definition bothAccepted (w : World) (r1 r2 : Watch) : Prop :=
  ∃ w1 w2 s1 s2,
    register r1 w = (None, w1) ∧ register r2 w1 = (None, w2)
    ∧ syncers (inf w2) !! syncerKeyOf r1 = Some s1
    ∧ syncers (inf w2) !! syncerKeyOf r2 = Some s2
    ∧ s1 ≠ s2.

(** [r1] then [r2]: the first accepted, the second refused as already
    watched, with no effect. *)
Definition secondRefused (w : World) (r1 r2 : Watch) : Prop :=
  ∃ w1,
    register r1 w = (None, w1)
    ∧ syncerKeyOf r2 = syncerKeyOf r1
    ∧ register r2 w1 = (Some ErrAlreadyWatched, w1).

(** What one iteration of [sync] does with the answer of the callback. *)
Definition afterCallback (syncerKey : string) (answer : bool * U)
    (w : World) : World :=
  if answer.1 then setUser answer.2 w
  else stopSyncOneKey syncerKey (setUser answer.2 w).

(** The task on syncer [p], registered under [key], takes one element of
    its channel in state [w].  On nil the callback [fn] runs on a
    [Delete] event and the zero entity.  On a record whose value decodes
    it runs on an [Update] event carrying the record, and on the decoded
    entity; on a record whose value does not decode it does not run, and
    the state stays what it is. *)
Definition callsBack {E : Type} `{Yaml E, Zero E} (p : nat) (key : string)
    (fn : PartFunc E) (w : World) : Prop :=
  receive p None w
  = afterCallback key
      (fn {| EventType := EventDelete; RawKV := None |} zero (user w)) w
  ∧ ∀ r, receive p (Some r) w
         = match Unmarshal (Value r) with
           | Some e =>
               afterCallback key
                 (fn {| EventType := EventUpdate; RawKV := Some r |} e
                    (user w)) w
           | None => w
           end.

(** When the callback of the watch on syncer [p], registered under
    [key], answers false in state [w]: the syncer is closed and the
    registration removed, and from then on no element delivered to the
    task changes anything, whatever else happens to the informer. *)
Definition stopsOnFalse (p : nat) (key : string) (w : World) : Prop :=
  ∀ answer, answer.1 = false →
    let w' := afterCallback key answer w in
    cluster.isOpen p (heap w') = false
    ∧ syncers (inf w') !! key = None
    ∧ user w' = answer.2
    ∧ ∀ ops kv kvs,
        receive p kv (run ops w') = run ops w'
        ∧ receivePrefix p kvs (run ops w') = run ops w'.

(** The task on syncer [p], registered under [key], takes the snapshot
    [kvs] in state [w]: the callback [fn] runs on the map [m], and its
    answer decides how the watch goes on. *)
Definition hands {E : Type} (p : nat) (key : string) (fn : PrefixFunc E)
    (kvs : gmap string string) (m : gmap string E) (w : World) : Prop :=
  receivePrefix p kvs w = afterCallback key (fn m (user w)) w.

(** [m] holds, under its key, each record of [kvs] that decodes to an
    entity satisfying [kept], and nothing else. *)
Definition keeps {E : Type} `{Yaml E} (kept : E → Prop)
    (kvs : gmap string string) (m : gmap string E) : Prop :=
  ∀ k e, m !! k = Some e
         ↔ (∃ v, kvs !! k = Some v ∧ Unmarshal v = Some e) ∧ kept e.

(** The loop of the prefix watch on syncer [p], registered under [key],
    in state [w]: every snapshot makes the callback [fn] run once, on a
    map that [sees] the snapshot; an answer of true leaves the informer
    and the syncers alone; an answer of false stops the watch. *)
Definition prefixLoop {E : Type} (p : nat) (key : string)
    (fn : PrefixFunc E)
    (sees : gmap string string → gmap string E → Prop) (w : World) : Prop :=
  (∀ kvs, ∃ m, hands p key fn kvs m w ∧ sees kvs m)
  ∧ (∀ answer, answer.1 = true →
       inf (afterCallback key answer w) = inf w
       ∧ heap (afterCallback key answer w) = heap w)
  ∧ stopsOnFalse p key w.

End Informer.

End informer.

(** ** package service: the custom-resource watch *)

Module watch.
Import layout spec storage service.

Section WatchCustomResource.
Context {R : MapRange} {YResource : Yaml CustomResource}.

(** The state of the caller, on which [onChange] acts. *)
Context {U : Type}.

(** What the [select] of the loop takes: the cancellation of the
    context, or a snapshot from the channel of the syncer. *)
Inductive Selected :=
  | CtxDone
  | Received (m : gmap string KeyValue).

(** Where the call is: it has returned (with its error, if any), or it
    is blocked in [select]. *)
Inductive Status :=
  | Returned (err : option string)
  | Selecting.

(** The [for { select { ... } }] loop.  The decoding loop of the
    [case m := <-ch] branch is [decodeRecords] without the log line. *)
Fixpoint watchLoop (onChange : list CustomResource → U → U) (syncer : nat)
    (selected : list Selected) (h : cluster.Heap) (u : U)
  : Status * cluster.Heap * U :=
  match selected with
  | [] => (Selecting, h, u)
  | CtxDone :: _ => (Returned None, cluster.Close syncer h, u)
  | Received m :: rest =>
      let resources : list CustomResource := decodeRecords m in
      watchLoop onChange syncer rest h (onChange resources u)
  end.

Definition WatchCustomResource (kind : string)
    (onChange : list CustomResource → U → U) (selected : list Selected)
    (s : Storage) (h : cluster.Heap) (u : U)
  : Status * cluster.Heap * U :=
  match syncerError s with
  | Some e => (Returned (Some e), h, u)
  | None =>
      let syncer := length h in
      let h1 := h ++ [cluster.fresh] in
      let prefix := CustomResourcePrefix kind in
      match syncError s with
      | Some e => (Returned (Some e), h1, u)
      | None =>
          watchLoop onChange syncer selected
            (cluster.subscribe (cluster.Prefix prefix) syncer h1) u
      end
  end.

End WatchCustomResource.

End watch.

(** ** Notions used to state further properties of the informer *)

Module invariants.
Import layout spec storage informer.

Section Notions.
Context {U : Type}.

(** The registry and the heap agree: a registered syncer exists, its task
    carries the key it is registered under, and it is open as long as the
    informer is. *)
Definition registered (w : @World U) : Prop :=
  ∀ k p, syncers (inf w) !! k = Some p →
         p < length (heap w)
         ∧ (∃ t, tasks w !! p = Some t ∧ taskKey t = k)
         ∧ (closed (inf w) = false → cluster.isOpen p (heap w) = true).

(** The informer is closed and no task has an open channel. *)
Definition quiet (w : @World U) : Prop :=
  closed (inf w) = true
  ∧ ∀ p t, tasks w !! p = Some t → cluster.isOpen p (heap w) = false.

(** Syncer [p] is open, and neither a registration nor a task refers to
    it. *)
Definition leaked (p : nat) (w : @World U) : Prop :=
  p < length (heap w)
  ∧ cluster.isOpen p (heap w) = true
  ∧ (∀ k, syncers (inf w) !! k ≠ Some p)
  ∧ tasks w !! p = None.

(** A prefix handler that does not write the informer at all. *)
Definition readOnly (fn : @specsHandleFunc U) : Prop :=
  ∀ kvs i u, (fn kvs i u).1.2 = i.

(** Both indices are empty and no task can fill them. *)
Definition unindexed (w : @World U) : Prop :=
  globalServices (inf w) = ∅
  ∧ service2Tenants (inf w) = ∅
  ∧ ∀ p k fn, tasks w !! p = Some (PrefixTask k fn) → readOnly fn.

(** The internal watch registered under [key] on syncer [p] is
    running. *)
Definition running (key : string) (p : nat) (fn : @specsHandleFunc U)
    (w : @World U) : Prop :=
  syncers (inf w) !! key = Some p
  ∧ tasks w !! p = Some (PrefixTask key fn)
  ∧ cluster.isOpen p (heap w) = true.

(** No [Close] among the operations. *)
Definition noClose (ops : list (@Op U)) : Prop :=
  Forall (λ o, o ≠ DoClose) ops.

(** The set of global services is empty and no task can fill it. *)
Definition noGlobalSet (w : @World U) : Prop :=
  globalServices (inf w) = ∅
  ∧ ∀ p k fn, tasks w !! p = Some (PrefixTask k fn) →
              ∀ kvs i u, globalServices (fn kvs i u).1.2 = globalServices i.

End Notions.

End invariants.

(** ** Sample data

    A small instance of the parameters, on which the model runs: the
    canonical map order, and a codec that knows a handful of documents. *)

Module sample.
Import layout spec storage informer.

(** A codec given by its documents. *)
Definition codecOf {E : Type} `{EqDecision E} (docs : list (string * E))
  : Yaml E :=
  {| Marshal := λ e, (λ d, d.2.1) <$> list_find (λ d, d.2 = e) docs;
     Unmarshal := λ text, (λ d, d.2.2) <$> list_find (λ d, d.1 = text) docs |}.

Definition orders : Service := Build_Service "orders" "retail" "".
Definition auth : Service := Build_Service "auth" "platform" "".
Definition pay : Service := Build_Service "pay" "bank" "".

Definition ordersYaml : string := "{name: orders, registerTenant: retail}".
Definition authYaml : string := "{name: auth, registerTenant: platform}".
Definition payYaml : string := "{name: pay, registerTenant: bank}".

Definition ordersInstance : ServiceInstanceSpec :=
  Build_ServiceInstanceSpec "orders" "i1" "".
Definition payInstance : ServiceInstanceSpec :=
  Build_ServiceInstanceSpec "pay" "i7" "".
Definition ordersInstanceYaml : string := "{serviceName: orders, instanceID: i1}".
Definition payInstanceYaml : string := "{serviceName: pay, instanceID: i7}".

Definition ordersStatus : ServiceInstanceStatus :=
  Build_ServiceInstanceStatus "orders" "i1" "up".
Definition payStatus : ServiceInstanceStatus :=
  Build_ServiceInstanceStatus "pay" "i7" "up".
Definition ordersStatusYaml : string :=
  "{serviceName: orders, instanceID: i1, status: up}".
Definition payStatusYaml : string :=
  "{serviceName: pay, instanceID: i7, status: up}".

Definition globalTenant : Tenant := Build_Tenant "GLOBAL" ["auth"].
Definition retailTenant : Tenant := Build_Tenant "retail" ["orders"].
Definition globalTenantYaml : string := "{name: GLOBAL, services: [auth]}".
Definition retailTenantYaml : string := "{name: retail, services: [orders]}".

Definition gateway : Ingress := Build_Ingress "gateway" "".
Definition gatewayYaml : string := "{name: gateway}".

Definition garbage : string := "{name: [".

Definition serviceCodec : Yaml Service :=
  codecOf [(ordersYaml, orders); (authYaml, auth); (payYaml, pay)].
Definition instanceSpecCodec : Yaml ServiceInstanceSpec :=
  codecOf [(ordersInstanceYaml, ordersInstance); (payInstanceYaml, payInstance)].
Definition instanceStatusCodec : Yaml ServiceInstanceStatus :=
  codecOf [(ordersStatusYaml, ordersStatus); (payStatusYaml, payStatus)].
Definition tenantCodec : Yaml Tenant :=
  codecOf [(globalTenantYaml, globalTenant); (retailTenantYaml, retailTenant)].
Definition ingressCodec : Yaml Ingress :=
  codecOf [(gatewayYaml, gateway)].
Definition kindCodec : Yaml CustomResourceKind :=
  {| Marshal := λ _, None; Unmarshal := λ _, None |}.
Definition resourceCodec : Yaml CustomResource :=
  {| Marshal := λ _, None; Unmarshal := λ _, None |}.

(** A store that answers every call. *)
Definition storeOf (m : gmap string string) : Storage :=
  {| content := m; ioError := λ _, None; syncerError := None; syncError := None |}.

(** The store holds one status record of service [orders] and no
    instance spec. *)
Definition statusOnly : Storage :=
  storeOf {[ ServiceInstanceStatusKey "orders" "i1" := ordersStatusYaml ]}.

(** Two services, one of them unreadable. *)
Definition mixedServices : Storage :=
  storeOf (<[ ServiceSpecKey "orders" := ordersYaml ]>
             {[ ServiceSpecKey "broken" := garbage ]}).

(** A caller whose state is the list of the event types it has seen, and
    whose callback stops the watch at the first delete event. *)
Definition untilDelete : @PartFunc (list string) Service :=
  λ event _ seen,
    (negb (bool_decide (EventType event = EventDelete)),
     seen ++ [EventType event]).

Definition always {E : Type} : @PartFunc (list string) E :=
  λ event _ seen, (true, seen ++ [EventType event]).

Section Worlds.
#[local] Existing Instance canonicalRange.
#[local] Existing Instance serviceCodec.
#[local] Existing Instance tenantCodec.
#[local] Existing Instance ingressCodec.
#[local] Existing Instance instanceSpecCodec.
#[local] Existing Instance instanceStatusCodec.

(** The three services, and the global tenant with [auth] in it. *)
Definition threeServices : gmap string string :=
  <[ ServiceSpecKey "orders" := ordersYaml ]>
    (<[ ServiceSpecKey "auth" := authYaml ]>
       {[ ServiceSpecKey "pay" := payYaml ]}).

Definition meshStore : Storage :=
  storeOf (<[ TenantSpecKey GlobalTenant := globalTenantYaml ]> threeServices).

(** An informer for global consumers, on an empty store. *)
Definition unscoped : @World (list string) :=
  NewInformer (storeOf ∅) "" [].

(** The same, after [OnPartOfServiceSpec("orders", "", untilDelete)]. *)
Definition watchOrders : @Watch (list string) :=
  PartOfServiceSpec "orders" AllParts untilDelete.
Definition watching : @World (list string) :=
  (register watchOrders unscoped).2.

(** The informer of service [orders] on [meshStore]. *)
Definition scoped : @World (list string) :=
  NewInformer meshStore "orders" [].

(** The informer of service [orders] on a store that has no service
    yet. *)
Definition unmapped : @World (list string) :=
  NewInformer (storeOf ∅) "orders" [].

Definition ordersRecord : KeyValue :=
  {| Key := ServiceSpecKey "orders"; Value := ordersYaml |}.

(** The record of [orders] after a write that left it unreadable. *)
Definition garbageRecord : KeyValue :=
  {| Key := ServiceSpecKey "orders"; Value := garbage |}.

End Worlds.

Section MoreWorlds.
#[local] Existing Instance canonicalRange.
#[local] Existing Instance serviceCodec.
#[local] Existing Instance tenantCodec.
#[local] Existing Instance ingressCodec.
#[local] Existing Instance instanceSpecCodec.
#[local] Existing Instance instanceStatusCodec.

Definition canaryHeaders : spec.GlobalCanaryHeaders :=
  {| ServiceHeaders := {[ "orders" := ["X-Canary"] ]} |}.
Definition canaryHeadersYaml : string :=
  "{serviceHeaders: {orders: [X-Canary]}}".
Definition headersCodec : Yaml spec.GlobalCanaryHeaders :=
  codecOf [(canaryHeadersYaml, canaryHeaders)].

Definition routeKind : CustomResourceKind := Build_CustomResourceKind "Route".
Definition routeKindYaml : string := "{name: Route}".
Definition kindTable : Yaml CustomResourceKind :=
  codecOf [(routeKindYaml, routeKind)].

Definition mainRoute : CustomResource :=
  Build_CustomResource "Route" "main" "".
Definition mainRouteYaml : string := "{kind: Route, name: main}".
Definition resourceTable : Yaml CustomResource :=
  codecOf [(mainRouteYaml, mainRoute)].

(** Service [orders] after it moved to another tenant, and a codec that
    knows both versions. *)
Definition ordersMoved : Service := Build_Service "orders" "wholesale" "".
Definition ordersMovedYaml : string :=
  "{name: orders, registerTenant: wholesale}".
Definition servicesTable : Yaml Service :=
  codecOf [(ordersYaml, orders); (ordersMovedYaml, ordersMoved);
           (authYaml, auth)].

(** A snapshot of the routes: one that decodes and one that does not. *)
Definition routesSnapshot : gmap string KeyValue :=
  <[ CustomResourceKey "Route" "main"
     := {| Key := CustomResourceKey "Route" "main"; Value := mainRouteYaml |} ]>
    {[ CustomResourceKey "Route" "bad"
       := {| Key := CustomResourceKey "Route" "bad"; Value := garbage |} ]}.

(** The caller of the custom-resource watch counts the resources of each
    snapshot. *)
Definition countResources : list CustomResource → list nat → list nat :=
  λ resources seen, seen ++ [length resources].

(** A store that hands out syncers and then refuses the subscription,
    and a store whose data calls fail. *)
Definition refusingStore : Storage :=
  {| content := ∅; ioError := λ _, None; syncerError := None;
     syncError := Some "refused" |}.
Definition failingStore : Storage :=
  {| content := threeServices; ioError := λ _, Some "unavailable";
     syncerError := None; syncError := None |}.

(** A store that answers, except when the global tenant is read. *)
Definition tenantlessStore : Storage :=
  {| content := threeServices;
     ioError := λ key, if decide (key = TenantSpecKey GlobalTenant)
                       then Some "unavailable" else None;
     syncerError := None; syncError := None |}.

(** A prefix callback that records the keys it is handed, and stops the
    watch on the first empty snapshot. *)
Definition untilEmpty : @PrefixFunc (list string) Service :=
  λ services seen,
    (negb (bool_decide (services = ∅)), seen ++ (map_to_list services).*1).

(** The informer of [orders], with a prefix watch on all services. *)
Definition prefixWatching : @World (list string) :=
  (register (AllServiceSpecs untilEmpty) scoped).2.

(** The same watch, on the informer whose service has no tenant, on the
    informer without a service, and on the informers built while the
    store failed. *)
Definition unmappedWatching : @World (list string) :=
  (register (AllServiceSpecs untilEmpty) unmapped).2.
Definition unscopedWatching : @World (list string) :=
  (register (AllServiceSpecs untilEmpty) unscoped).2.
Definition unindexedWatching : @World (list string) :=
  (register (AllServiceSpecs untilEmpty)
     (NewInformer failingStore "orders" [])).2.

(** Two single-key watches, on [orders] and on [auth]. *)
Definition twoWatches : @World (list string) :=
  (register (PartOfServiceSpec "auth" AllParts always) watching).2.

End MoreWorlds.

End sample.

(** * Properties of the repository *)

Module RepositoryProofs.
Import layout spec storage service.

Section Listing.
Context {R : MapRange}.
Context {E : Type} {Y : Yaml E}.

Lemma foldl_appendDecoded (out : list E) (kvs : list (string * KeyValue)) :
  foldl appendDecoded out kvs
  = out ++ omap (λ kv : string * KeyValue, Unmarshal (Value kv.2)) kvs.
Proof.
  revert out; induction kvs as [|kv kvs IH]; intros out; simpl.
  - by rewrite app_nil_r.
  - rewrite IH. unfold appendDecoded.
    destruct (Unmarshal (Value kv.2)); simpl; [|done].
    by rewrite <- app_assoc.
Qed.

Lemma omap_raw_records (l : list (string * string)) :
  omap (λ kv : string * KeyValue, Unmarshal (Value kv.2))
       ((λ kv : string * string, (kv.1, Build_KeyValue kv.1 kv.2)) <$> l)
  = omap (λ kv : string * string, Unmarshal kv.2) l.
Proof.
  induction l as [|[k v] l IH]; csimpl; [done|].
  by rewrite IH.
Qed.

Lemma raw_records (m : gmap string string) :
  map_to_list (map_imap (λ k v, Some (Build_KeyValue k v)) m)
  ≡ₚ (λ kv : string * string, (kv.1, Build_KeyValue kv.1 kv.2))
       <$> map_to_list m.
Proof.
  apply NoDup_Permutation.
  - apply NoDup_map_to_list.
  - apply NoDup_fmap_2; [|apply NoDup_map_to_list].
    intros [k1 v1] [k2 v2] Heq; simpl in Heq. by simplify_eq.
  - intros [k kv]. rewrite elem_of_map_to_list, map_lookup_imap.
    rewrite list_elem_of_fmap. split.
    + destruct (m !! k) as [v|] eqn:Hk; simpl; [|done].
      intros [= <-]. exists (k, v). split; [done|].
      by apply elem_of_map_to_list.
    + intros [[k' v] [[= -> ->] Hin%elem_of_map_to_list]]; simpl in *.
      by rewrite Hin.
Qed.

Lemma scan_decodes (prefix : string) (s : Storage) :
  ioError s prefix = None →
  ∃ kvs, GetRawPrefix prefix s = Ok kvs
         ∧ decodeRecords kvs ≡ₚ decodedUnder prefix s.
Proof.
  intros Hio. unfold GetRawPrefix. rewrite Hio. eexists; split; [done|].
  unfold decodeRecords, decodedUnder. rewrite foldl_appendDecoded. simpl.
  rewrite rangeOf_perm, raw_records, omap_raw_records. done.
Qed.

Lemma scan_store_error (prefix : string) (s : Storage) (e : string) :
  ioError s prefix = Some e → GetRawPrefix prefix s = Err e.
Proof. intros Hio. unfold GetRawPrefix. by rewrite Hio. Qed.

End Listing.

Section Repository.
Context {R : MapRange}.
Context {YService : Yaml Service} {YTenant : Yaml Tenant}
        {YIngress : Yaml Ingress}
        {YInstanceSpec : Yaml ServiceInstanceSpec}
        {YInstanceStatus : Yaml ServiceInstanceStatus}
        {YKind : Yaml CustomResourceKind} {YResource : Yaml CustomResource}.

Lemma scan_lists {E : Type} `{Yaml E} (prefix : string) (s : Storage) :
  ioError s prefix = None →
  lists (match GetRawPrefix prefix s with
         | Err e => ClusterPanic e
         | Ok kvs => Returns (decodeRecords kvs)
         end) prefix s.
Proof.
  intros Hio. destruct (scan_decodes (E := E) prefix s Hio) as (kvs & -> & Hp).
  by eexists.
Qed.

(** C9.  On a store that answers, every list method returns, and what
    it returns is exactly the entities decoded from the records of the
    scanned prefix that do decode: a record that fails to decode is
    skipped, and the remaining ones are still listed. *)
Theorem list_skips_undecodable (s : Storage) :
  (∀ key, ioError s key = None) →
  lists (ListServiceSpecs s) ServiceSpecPrefix s
  ∧ lists (ListTenantSpecs s) TenantPrefix s
  ∧ lists (ListIngressSpecs s) IngressPrefix s
  ∧ lists (ListCustomResourceKinds s) CustomResourceKindPrefix s
  ∧ (∀ kind, lists (ListCustomResources kind s)
               (if decide (kind = "") then AllCustomResourcePrefix
                else CustomResourcePrefix kind) s)
  ∧ lists (ListAllServiceInstanceSpecs s) AllServiceInstanceSpecPrefix s
  ∧ (∀ name, lists (ListServiceInstanceSpecs name s)
               (ServiceInstanceSpecPrefix name) s)
  ∧ lists (ListAllServiceInstanceStatuses s) AllServiceInstanceStatusPrefix s
  ∧ (∀ name, lists (ListServiceInstanceStatuses name s)
               (ServiceInstanceSpecPrefix name) s).
Proof.
  intros Hio. repeat split; intros; apply scan_lists, Hio.
Qed.

(** A store error is the one thing that stops a list method. *)
Lemma list_store_error (s : Storage) (e : string) :
  ioError s ServiceSpecPrefix = Some e → ListServiceSpecs s = ClusterPanic e.
Proof.
  intros Hio. unfold ListServiceSpecs. by rewrite (scan_store_error _ _ _ Hio).
Qed.

Lemma PutServiceSpec_returns (v : Service) (buff : string) (s : Storage) :
  ioError s (ServiceSpecKey (Service_Name v)) = None → Marshal v = Some buff →
  PutServiceSpec v s
  = Returns (withContent (<[ServiceSpecKey (Service_Name v) := buff]>
                            (content s)) s).
Proof.
  intros Hio Hm. unfold PutServiceSpec, Put. by rewrite Hm, Hio.
Qed.

Lemma DeleteServiceSpec_returns (name : string) (s : Storage) :
  ioError s (ServiceSpecKey name) = None →
  DeleteServiceSpec name s
  = Returns (withContent (delete (ServiceSpecKey name) (content s)) s).
Proof. intros Hio. unfold DeleteServiceSpec, Delete. by rewrite Hio. Qed.


End Repository.

Section RepositorySamples.
Import sample.
#[local] Existing Instance canonicalRange.
#[local] Existing Instance serviceCodec.
#[local] Existing Instance tenantCodec.
#[local] Existing Instance ingressCodec.
#[local] Existing Instance instanceSpecCodec.
#[local] Existing Instance instanceStatusCodec.
#[local] Existing Instance kindCodec.
#[local] Existing Instance resourceCodec.

Lemma list_skips_undecodable_witness :
  (∀ key, ioError mixedServices key = None)
  ∧ lists (ListServiceSpecs mixedServices) ServiceSpecPrefix mixedServices
  ∧ ListServiceSpecs mixedServices = Returns [orders].
Proof.
  split; [reflexivity|]. split; [|reflexivity].
  apply (list_skips_undecodable mixedServices). reflexivity.
Defined.


(** The service round trip of the specification: put, get, list, delete,
    get. *)
Example scenario_service_round_trip :
  PutServiceSpec orders (storeOf ∅)
  = Returns (storeOf {[ ServiceSpecKey "orders" := ordersYaml ]})
  ∧ GetServiceSpec "orders"
      (storeOf {[ ServiceSpecKey "orders" := ordersYaml ]})
    = Returns (Some orders)
  ∧ ListServiceSpecs (storeOf {[ ServiceSpecKey "orders" := ordersYaml ]})
    = Returns [orders]
  ∧ DeleteServiceSpec "orders"
      (storeOf {[ ServiceSpecKey "orders" := ordersYaml ]})
    = Returns (storeOf ∅)
  ∧ GetServiceSpec "orders" (storeOf ∅) = Returns None.
Proof. repeat split; vm_compute; reflexivity. Qed.

(** C1.  The per-service status listing scans the instance SPEC prefix
    of the service.  With one status record of [orders] in the store,
    and no instance spec, it returns the empty list, although the
    status prefix of [orders] holds a record that decodes. *)
Theorem status_listing_scans_spec_prefix :
  ListServiceInstanceStatuses "orders" statusOnly = Returns []
  ∧ decodedUnder (ServiceInstanceStatusPrefix "orders") statusOnly
    = [ordersStatus]
  ∧ ListAllServiceInstanceStatuses statusOnly = Returns [ordersStatus].
Proof. repeat split; vm_compute; reflexivity. Qed.

End RepositorySamples.

End RepositoryProofs.

(** * Properties of the informer *)

Module InformerProofs.
Import layout spec storage informer.

Section Registration.
Context {R : MapRange}.
Context {YService : Yaml Service} {YTenant : Yaml Tenant}
        {YIngress : Yaml Ingress}
        {YInstanceSpec : Yaml ServiceInstanceSpec}
        {YInstanceStatus : Yaml ServiceInstanceStatus}.
Context {U : Type}.

Abbreviation World := (@World U).
Abbreviation Watch := (@Watch U).
Abbreviation PartFunc := (@PartFunc U).
Abbreviation PrefixFunc := (@PrefixFunc U).

Lemma World_eta (w : World) :
  {| inf := inf w; heap := heap w; tasks := tasks w; user := user w |} = w.
Proof. by destruct w. Qed.

Lemma meshInformer_eta (i : meshInformer) :
  {| store := store i; syncers := syncers i; service := service i;
     globalServices := globalServices i;
     service2Tenants := service2Tenants i; closed := closed i |} = i.
Proof. by destruct i. Qed.

(** The three ways out of [onSpecPart] and [onSpecs] before the store
    is asked. *)
Lemma onSpecPart_closed storeKey syncerKey path fn (w : World) :
  closed (inf w) = true →
  onSpecPart storeKey syncerKey path fn w = (Some ErrClosed, w).
Proof. intros Hc. unfold onSpecPart. by rewrite Hc. Qed.

Lemma onSpecs_closed storePrefix syncerKey fn (w : World) :
  closed (inf w) = true →
  onSpecs storePrefix syncerKey fn w = (Some ErrClosed, w).
Proof. intros Hc. unfold onSpecs. by rewrite Hc. Qed.

Lemma onSpecPart_watched storeKey syncerKey path fn (w : World) :
  closed (inf w) = false →
  is_Some (syncers (inf w) !! syncerKey) →
  onSpecPart storeKey syncerKey path fn w = (Some ErrAlreadyWatched, w).
Proof.
  intros Hc Hk. unfold onSpecPart. rewrite Hc. by rewrite decide_True.
Qed.

Lemma onSpecs_watched storePrefix syncerKey fn (w : World) :
  closed (inf w) = false →
  is_Some (syncers (inf w) !! syncerKey) →
  onSpecs storePrefix syncerKey fn w = (Some ErrAlreadyWatched, w).
Proof.
  intros Hc Hk. unfold onSpecs. rewrite Hc. by rewrite decide_True.
Qed.

Lemma specsFunc_indicesOnly {E : Type}
    (build : meshInformer → gmap string string → gmap string E)
    (fn : PrefixFunc E) :
  indicesOnly (specsFunc build fn).
Proof.
  intros kvs i u. unfold specsFunc. by destruct (fn (build i kvs) u).
Qed.

(** Every method of the interface is [onSpecPart] or [onSpecs] at its
    syncerKey. *)
Lemma register_shape (r : Watch) :
  (∃ storeKey path fn,
      ∀ w, register r w = onSpecPart storeKey (syncerKeyOf r) path fn w)
  ∨ (∃ storePrefix fn,
        indicesOnly fn
        ∧ ∀ w, register r w = onSpecs storePrefix (syncerKeyOf r) fn w).
Proof.
  destruct r;
    first [ left; eexists _, _, _; intros w; reflexivity
          | right; eexists _, _; split; last (intros w; reflexivity);
            apply specsFunc_indicesOnly ].
Qed.

Lemma register_closed (r : Watch) (w : World) :
  closed (inf w) = true → register r w = (Some ErrClosed, w).
Proof.
  intros Hc.
  destruct (register_shape r) as [(k & p & fn & Hr) | (k & fn & _ & Hr)];
    rewrite Hr; [by apply onSpecPart_closed | by apply onSpecs_closed].
Qed.

Lemma register_watched (r : Watch) (w : World) :
  closed (inf w) = false →
  is_Some (syncers (inf w) !! syncerKeyOf r) →
  register r w = (Some ErrAlreadyWatched, w).
Proof.
  intros Hc Hk.
  destruct (register_shape r) as [(k & p & fn & Hr) | (k & fn & _ & Hr)];
    rewrite Hr; [by apply onSpecPart_watched | by apply onSpecs_watched].
Qed.

(** *** The heap of syncers *)

Lemma length_Close q (h : cluster.Heap) :
  length (cluster.Close q h) = length h.
Proof. unfold cluster.Close. apply length_alter. Qed.

Lemma length_subscribe sub q (h : cluster.Heap) :
  length (cluster.subscribe sub q h) = length h.
Proof. unfold cluster.subscribe. apply length_alter. Qed.

Lemma isOpen_allocated p (h : cluster.Heap) :
  cluster.isOpen p h = true → p < length h.
Proof.
  unfold cluster.isOpen. destruct (h !! p) eqn:Hp; [|done].
  intros _. by eapply lookup_lt_Some.
Qed.

Lemma isOpen_Close p q (h : cluster.Heap) :
  cluster.isOpen p (cluster.Close q h)
  = if decide (p = q) then false else cluster.isOpen p h.
Proof.
  unfold cluster.isOpen, cluster.Close. destruct (decide (p = q)) as [->|Hne].
  - rewrite list_lookup_alter_eq. by destruct (h !! q).
  - by rewrite list_lookup_alter_ne.
Qed.

Lemma isOpen_subscribe sub p q (h : cluster.Heap) :
  cluster.isOpen p (cluster.subscribe sub q h) = cluster.isOpen p h.
Proof.
  unfold cluster.isOpen, cluster.subscribe.
  destruct (decide (p = q)) as [->|Hne].
  - rewrite list_lookup_alter_eq. by destruct (h !! q).
  - by rewrite list_lookup_alter_ne.
Qed.

Lemma isOpen_grow p x (h : cluster.Heap) :
  p < length h → cluster.isOpen p (h ++ [x]) = cluster.isOpen p h.
Proof. intros Hp. unfold cluster.isOpen. by rewrite lookup_app_l. Qed.

Lemma isOpen_closeAll p (l : list (string * nat)) (h : cluster.Heap) :
  cluster.isOpen p (foldl (λ h kv, cluster.Close kv.2 h) h l) = true →
  cluster.isOpen p h = true ∧ p ∉ l.*2.
Proof.
  revert h; induction l as [|[k q] l IH]; intros h; simpl.
  - intros Hp. split; [done|]. apply not_elem_of_nil.
  - intros Hp. apply IH in Hp as [Hp Hnot]. rewrite isOpen_Close in Hp.
    destruct (decide (p = q)) as [->|Hne]; [done|].
    split; [done|]. rewrite not_elem_of_cons. done.
Qed.

Lemma length_closeAll (l : list (string * nat)) (h : cluster.Heap) :
  length (foldl (λ h kv, cluster.Close kv.2 h) h l) = length h.
Proof.
  revert h; induction l as [|[k q] l IH]; intros h; simpl; [done|].
  by rewrite IH, length_Close.
Qed.

Lemma closed_stays_closed_closeAll p (l : list (string * nat))
    (h : cluster.Heap) :
  cluster.isOpen p h = false →
  cluster.isOpen p (foldl (λ h kv, cluster.Close kv.2 h) h l) = false.
Proof.
  intros Hp.
  destruct (cluster.isOpen p (foldl _ h l)) eqn:Ho; [|done].
  apply isOpen_closeAll in Ho as [Ho _]. congruence.
Qed.

(** *** The invariant *)

Lemma consistent_indices (i : meshInformer) (u : U) (w : World) :
  syncers i = syncers (inf w) →
  consistent w → consistent (setUser u (setInf i w)).
Proof.
  intros Hs [Ha Ho Hh]. split; simpl; [done| |done].
  intros p t Ht Hop. rewrite Hs. by apply Ho.
Qed.

Lemma consistent_stop (key : string) (w : World) :
  consistent w → consistent (stopSyncOneKey key w).
Proof.
  intros Hw. unfold stopSyncOneKey.
  destruct (syncers (inf w) !! key) as [q|] eqn:Hk; [|done].
  destruct Hw as [Ha Ho Hh]. split; simpl.
  - intros p t Ht. rewrite length_Close. eauto.
  - intros p t Ht. rewrite isOpen_Close.
    destruct (decide (p = q)) as [->|Hne]; [done|].
    intros Hop. specialize (Ho p t Ht Hop).
    destruct (decide (taskKey t = key)) as [Heq|Hnk].
    + rewrite Heq in Ho. congruence.
    + by rewrite lookup_delete_ne.
  - eauto.
Qed.

Lemma consistent_grow (x : cluster.Syncer) (w : World) :
  consistent w → consistent (setHeap (heap w ++ [x]) w).
Proof.
  intros [Ha Ho Hh]. split; simpl; [| |done].
  - intros p t Ht. rewrite length_app; simpl. specialize (Ha p t Ht). lia.
  - intros p t Ht. rewrite isOpen_grow by eauto. by apply Ho.
Qed.

Lemma consistent_install (sub : cluster.Subscription) (key : string)
    (t : Task) (w : World) :
  taskKey t = key →
  (∀ k fn, t = PrefixTask k fn → indicesOnly fn) →
  ¬ is_Some (syncers (inf w) !! key) →
  consistent w →
  consistent
    (setTasks (<[length (heap w) := t]> (tasks w))
       (setInf (setSyncers (<[key := length (heap w)]> (syncers (inf w)))
                           (inf w))
          (setHeap (cluster.subscribe sub (length (heap w))
                      (heap (setHeap (heap w ++ [cluster.fresh]) w)))
             (setHeap (heap w ++ [cluster.fresh]) w)))).
Proof.
  intros Hkey Hfn Hfree [Ha Ho Hh]. split; simpl.
  - intros p t' Ht'. rewrite length_subscribe, length_app; simpl.
    destruct (decide (p = length (heap w))) as [->|Hne]; [lia|].
    rewrite lookup_insert_ne in Ht' by done. specialize (Ha p t' Ht'). lia.
  - intros p t' Ht'. rewrite isOpen_subscribe.
    destruct (decide (p = length (heap w))) as [->|Hne].
    + rewrite lookup_insert_eq in Ht'. injection Ht' as <-.
      intros _. rewrite Hkey. apply lookup_insert_eq.
    + rewrite lookup_insert_ne in Ht' by done.
      rewrite isOpen_grow by eauto. intros Hop.
      specialize (Ho p t' Ht' Hop).
      rewrite lookup_insert_ne; [done|].
      intros Heq. apply Hfree. rewrite Heq. by eexists.
  - intros p k fn Ht'.
    destruct (decide (p = length (heap w))) as [->|Hne].
    + rewrite lookup_insert_eq in Ht'. injection Ht' as ->. by eapply Hfn.
    + rewrite lookup_insert_ne in Ht' by done. by eapply Hh.
Qed.

Lemma consistent_onSpecPart storeKey syncerKey path fn (w : World) :
  consistent w → consistent (onSpecPart storeKey syncerKey path fn w).2.
Proof.
  intros Hw. unfold onSpecPart.
  destruct (closed (inf w)); [done|].
  destruct (decide (is_Some (syncers (inf w) !! syncerKey))); [done|].
  destruct (syncerError (store (inf w))); [done|].
  destruct (syncError (store (inf w))).
  - by apply consistent_grow.
  - by apply consistent_install.
Qed.

Lemma consistent_onSpecs storePrefix syncerKey fn (w : World) :
  indicesOnly fn →
  consistent w → consistent (onSpecs storePrefix syncerKey fn w).2.
Proof.
  intros Hfn Hw. unfold onSpecs.
  destruct (closed (inf w)); [done|].
  destruct (decide (is_Some (syncers (inf w) !! syncerKey))); [done|].
  destruct (syncerError (store (inf w))); [done|].
  destruct (syncError (store (inf w))).
  - by apply consistent_grow.
  - apply consistent_install; [done| |done..].
    intros k fn' [= _ <-]. done.
Qed.

Lemma consistent_register (r : Watch) (w : World) :
  consistent w → consistent (register r w).2.
Proof.
  intros Hw.
  destruct (register_shape r) as [(k & p & fn & Hr) | (k & fn & Hfn & Hr)];
    rewrite Hr; [by apply consistent_onSpecPart | by apply consistent_onSpecs].
Qed.

Lemma consistent_Close (w : World) : consistent w → consistent (Close w).
Proof.
  intros [Ha Ho Hh]. split; simpl; [| |done].
  - intros p t Ht. rewrite length_closeAll. eauto.
  - intros p t Ht Hop. apply isOpen_closeAll in Hop as [Hop Hnot].
    specialize (Ho p t Ht Hop). exfalso. apply Hnot.
    apply list_elem_of_fmap. exists (taskKey t, p). split; [done|].
    rewrite rangeOf_perm. by apply elem_of_map_to_list.
Qed.

Lemma consistent_receive (p : nat) (kv : option KeyValue) (w : World) :
  consistent w → consistent (receive p kv w).
Proof.
  intros Hw. unfold receive.
  destruct (tasks w !! p) as [[key fn|key fn]|]; [|done..].
  destruct (cluster.isOpen p (heap w)); [|done].
  unfold sync. destruct (rawEvent kv) as [event value].
  destruct (fn event value (user w)) as [continue u].
  assert (consistent (setUser u w)) as Hu.
  { destruct Hw as [Ha Ho Hh]. by split. }
  destruct continue; [done|]. by apply consistent_stop.
Qed.

Lemma consistent_receivePrefix (p : nat) (kvs : gmap string string)
    (w : World) :
  consistent w → consistent (receivePrefix p kvs w).
Proof.
  intros Hw. unfold receivePrefix.
  destruct (tasks w !! p) as [[key fn|key fn]|] eqn:Ht; [done| |done].
  destruct (cluster.isOpen p (heap w)); [|done].
  unfold syncPrefix.
  pose proof (handlers_indicesOnly w Hw p key fn Ht kvs (inf w) (user w))
    as Hfn.
  destruct (fn kvs (inf w) (user w)) as [[continue i] u]; simpl in Hfn.
  assert (consistent (setUser u (setInf i w))) as Hu.
  { apply consistent_indices; [|done]. by destruct Hfn as (_ & -> & _). }
  destruct continue; [done|]. by apply consistent_stop.
Qed.

Lemma consistent_exec (o : Op) (w : World) :
  consistent w → consistent (exec o w).
Proof.
  intros Hw. destruct o; simpl.
  - by apply consistent_register.
  - by apply consistent_stop.
  - by apply consistent_stop.
  - by apply consistent_Close.
  - by apply consistent_receive.
  - by apply consistent_receivePrefix.
  - destruct Hw as [Ha Ho Hh]. by split.
Qed.

Lemma consistent_run (ops : list Op) (w : World) :
  consistent w → consistent (run ops w).
Proof.
  revert w; induction ops as [|o ops IH]; intros w Hw; simpl; [done|].
  apply IH. by apply consistent_exec.
Qed.

Lemma internal_indicesOnly
    (method : gmap string string → meshInformer → bool * meshInformer) :
  (∀ kvs i, syncers (method kvs i).2 = syncers i
            ∧ store (method kvs i).2 = store i
            ∧ service (method kvs i).2 = service i
            ∧ closed (method kvs i).2 = closed i) →
  indicesOnly (internalHandler (U := U) method).
Proof.
  intros Hm kvs i u. unfold internalHandler.
  specialize (Hm kvs i). destruct (method kvs i) as [b i']; simpl in *.
  destruct Hm as (? & ? & ? & ?). done.
Qed.

Lemma buildServiceToTenantMap_indices kvs i :
  syncers (buildServiceToTenantMap kvs i).2 = syncers i
  ∧ store (buildServiceToTenantMap kvs i).2 = store i
  ∧ service (buildServiceToTenantMap kvs i).2 = service i
  ∧ closed (buildServiceToTenantMap kvs i).2 = closed i.
Proof. done. Qed.

Lemma updateGlobalServices_indices kvs i :
  syncers (updateGlobalServices kvs i).2 = syncers i
  ∧ store (updateGlobalServices kvs i).2 = store i
  ∧ service (updateGlobalServices kvs i).2 = service i
  ∧ closed (updateGlobalServices kvs i).2 = closed i.
Proof.
  unfold updateGlobalServices. by destruct (findGlobalTenant (rangeOf kvs)).
Qed.

(** Every informer starts out consistent, and stays so. *)
Lemma consistent_NewInformer (st : Storage) (name : string) (u : U) :
  consistent (NewInformer st name u).
Proof.
  unfold NewInformer.
  set (w0 := {| inf := _; heap := []; tasks := ∅; user := u |}).
  assert (consistent w0) as H0.
  { split; simpl; intros ???; by rewrite ?lookup_empty. }
  destruct (decide (String.length name = 0)); [done|].
  destruct (GetPrefix ServiceSpecPrefix st) as [services|]; [|done].
  set (w1 := (onSpecs _ _ _ _).2).
  assert (consistent w1) as H1.
  { apply consistent_onSpecs.
    - apply internal_indicesOnly, buildServiceToTenantMap_indices.
    - destruct H0 as [Ha Ho Hh]. by split. }
  destruct (GetPrefix (TenantSpecKey GlobalTenant) st) as [tenants|]; [|done].
  apply consistent_onSpecs.
  - apply internal_indicesOnly, updateGlobalServices_indices.
  - pose proof (updateGlobalServices_indices tenants (inf w1)) as (Hs & _).
    destruct H1 as [Ha Ho Hh]. split; simpl; [done| |done].
    intros p t Ht Hop. rewrite Hs. by apply Ho.
Qed.

(** *** Registration, stop and close *)

Lemma register_ready (r : Watch) (w : World) :
  ready w r →
  ∃ w1, register r w = (None, w1)
        ∧ closed (inf w1) = false
        ∧ store (inf w1) = store (inf w)
        ∧ syncers (inf w1)
          = <[syncerKeyOf r := length (heap w)]> (syncers (inf w))
        ∧ length (heap w1) = S (length (heap w))
        ∧ cluster.isOpen (length (heap w)) (heap w1) = true.
Proof.
  intros (Hc & He1 & He2 & Hfree).
  assert (¬ is_Some (syncers (inf w) !! syncerKeyOf r)) as Hno.
  { rewrite Hfree. by intros [? ?]. }
  destruct (register_shape r) as [(k & p & fn & Hr) | (k & fn & _ & Hr)];
    rewrite Hr; [unfold onSpecPart | unfold onSpecs];
    rewrite Hc, He1, He2, decide_False by done;
    (eexists; split; [reflexivity|]; simpl;
     rewrite length_subscribe, length_app, isOpen_subscribe; simpl;
     repeat split; [done|lia|];
     unfold cluster.isOpen; by rewrite lookup_app_r, Nat.sub_diag).
Qed.

Lemma register_accepted (r : Watch) (w w1 : World) :
  register r w = (None, w1) →
  closed (inf w1) = false
  ∧ syncers (inf w1) !! syncerKeyOf r = Some (length (heap w)).
Proof.
  destruct (register_shape r) as [(k & p & fn & Hr) | (k & fn & _ & Hr)];
    rewrite Hr; [unfold onSpecPart | unfold onSpecs];
    destruct (closed (inf w)) eqn:Hc; try done;
    destruct (decide (is_Some (syncers (inf w) !! syncerKeyOf r))); try done;
    destruct (syncerError (store (inf w))); try done;
    destruct (syncError (store (inf w))); try done;
    intros [= <-]; simpl; by rewrite lookup_insert_eq.
Qed.

Lemma register_returned (r : Watch) (w : World) :
  (register r w).1 = None → register r w = (None, (register r w).2).
Proof. destruct (register r w) as [e w1]; simpl. by intros ->. Qed.

(** C7.  On an informer that is not closed, a registration whose
    syncerKey is already registered returns [ErrAlreadyWatched] and
    changes nothing: neither the registrations, nor the heap of syncers,
    nor the tasks. *)
Theorem second_registration_refused (r : Watch) (w : World) :
  closed (inf w) = false →
  is_Some (syncers (inf w) !! syncerKeyOf r) →
  register r w = (Some ErrAlreadyWatched, w).
Proof. apply register_watched. Qed.

(** The same, for two registrations in a row. *)
Lemma registered_twice (r1 r2 : Watch) (w w1 : World) :
  register r1 w = (None, w1) →
  syncerKeyOf r2 = syncerKeyOf r1 →
  register r2 w1 = (Some ErrAlreadyWatched, w1).
Proof.
  intros [Hc Hk]%register_accepted Heq.
  apply register_watched; [done|]. rewrite Heq, Hk. by eexists.
Qed.

Lemma stop_absent (key : string) (w : World) :
  syncers (inf w) !! key = None → stopSyncOneKey key w = w.
Proof. intros Hk. unfold stopSyncOneKey. by rewrite Hk. Qed.

Lemma stop_removes (key : string) (w : World) :
  syncers (inf (stopSyncOneKey key w)) !! key = None.
Proof.
  unfold stopSyncOneKey.
  destruct (syncers (inf w) !! key) eqn:Hk; simpl; [|done].
  apply lookup_delete_eq.
Qed.

Lemma stop_twice (key : string) (w : World) :
  stopSyncOneKey key (stopSyncOneKey key w) = stopSyncOneKey key w.
Proof. apply stop_absent, stop_removes. Qed.

Lemma stop_keeps_closed (key : string) (w : World) :
  closed (inf (stopSyncOneKey key w)) = closed (inf w).
Proof.
  unfold stopSyncOneKey. by destruct (syncers (inf w) !! key).
Qed.

Lemma closed_exec (o : Op) (w : World) :
  consistent w → closed (inf w) = true → closed (inf (exec o w)) = true.
Proof.
  intros Hw Hc. destruct o; simpl.
  - by rewrite register_closed.
  - unfold StopWatchServiceSpec. by rewrite stop_keeps_closed.
  - unfold StopWatchServiceInstanceSpec. by rewrite stop_keeps_closed.
  - done.
  - unfold receive.
    destruct (tasks w !! syncer) as [[key fn|key fn]|]; [|done..].
    destruct (cluster.isOpen syncer (heap w)); [|done].
    unfold sync. destruct (rawEvent kv) as [event value].
    destruct (fn event value (user w)) as [[] u]; [done|].
    by rewrite stop_keeps_closed.
  - unfold receivePrefix.
    destruct (tasks w !! syncer) as [[key fn|key fn]|] eqn:Ht; [done| |done].
    destruct (cluster.isOpen syncer (heap w)); [|done].
    unfold syncPrefix.
    pose proof (handlers_indicesOnly w Hw syncer key fn Ht kvs (inf w)
                  (user w)) as Hfn.
    destruct (fn kvs (inf w) (user w)) as [[continue i] u]; simpl in Hfn.
    destruct Hfn as (_ & _ & _ & Hci).
    destruct continue; [|rewrite stop_keeps_closed]; simpl; congruence.
  - done.
Qed.

Lemma closed_run (ops : list Op) (w : World) :
  consistent w → closed (inf w) = true → closed (inf (run ops w)) = true.
Proof.
  revert w; induction ops as [|o ops IH]; intros w Hw Hc; simpl; [done|].
  apply IH; [by apply consistent_exec | by apply closed_exec].
Qed.

Lemma register_after_Close (r : Watch) (w : World) :
  register r (Close w) = (Some ErrClosed, Close w).
Proof. by apply register_closed. Qed.

(** C8.  Stopping a key under which nothing is registered changes
    nothing, so a second stop in a row changes nothing; and once [Close]
    has run, a registration returns [ErrClosed] and changes nothing,
    whatever happened to the informer in between. *)
Theorem stop_idempotent_close_terminal (key : string) (r : Watch)
    (ops : list Op) (w : World) :
  consistent w →
  (syncers (inf w) !! key = None → stopSyncOneKey key w = w)
  ∧ stopSyncOneKey key (stopSyncOneKey key w) = stopSyncOneKey key w
  ∧ register r (Close w) = (Some ErrClosed, Close w)
  ∧ register r (run ops (Close w)) = (Some ErrClosed, run ops (Close w)).
Proof.
  intros Hw. split; [apply stop_absent|]. split; [apply stop_twice|].
  split; [apply register_after_Close|].
  apply register_closed, closed_run; [by apply consistent_Close | done].
Qed.

(** *** A closed syncer is never opened again *)

Lemma stillClosed_stop p key (w : World) :
  stillClosed p w → stillClosed p (stopSyncOneKey key w).
Proof.
  intros [Hp Hc]. unfold stopSyncOneKey.
  destruct (syncers (inf w) !! key) as [q|]; [|done].
  split; simpl; [by rewrite length_Close|].
  rewrite isOpen_Close. by destruct (decide (p = q)).
Qed.

Lemma stillClosed_register p (r : Watch) (w : World) :
  stillClosed p w → stillClosed p (register r w).2.
Proof.
  intros [Hp Hc].
  destruct (register_shape r) as [(k & q & fn & Hr) | (k & fn & _ & Hr)];
    rewrite Hr; [unfold onSpecPart | unfold onSpecs];
    (destruct (closed (inf w)); [done|];
     destruct (decide (is_Some (syncers (inf w) !! syncerKeyOf r))); [done|];
     destruct (syncerError (store (inf w))); [done|];
     destruct (syncError (store (inf w))); split; simpl;
     rewrite ?length_subscribe, ?isOpen_subscribe, ?length_app,
       ?isOpen_grow by done; simpl; first [done | lia]).
Qed.

Lemma stillClosed_exec p (o : Op) (w : World) :
  stillClosed p w → stillClosed p (exec o w).
Proof.
  intros Hw. destruct o; simpl.
  - by apply stillClosed_register.
  - by apply stillClosed_stop.
  - by apply stillClosed_stop.
  - destruct Hw as [Hp Hc]. split; simpl.
    + by rewrite length_closeAll.
    + by apply closed_stays_closed_closeAll.
  - unfold receive.
    destruct (tasks w !! syncer) as [[key fn|key fn]|]; [|done..].
    destruct (cluster.isOpen syncer (heap w)); [|done].
    unfold sync. destruct (rawEvent kv) as [event value].
    destruct (fn event value (user w)) as [[] u]; [done|].
    by apply stillClosed_stop.
  - unfold receivePrefix.
    destruct (tasks w !! syncer) as [[key fn|key fn]|]; [done| |done].
    destruct (cluster.isOpen syncer (heap w)); [|done].
    unfold syncPrefix.
    destruct (fn kvs (inf w) (user w)) as [[[] i] u]; [done|].
    by apply stillClosed_stop.
  - done.
Qed.

Lemma stillClosed_run p (ops : list Op) (w : World) :
  stillClosed p w → stillClosed p (run ops w).
Proof.
  revert w; induction ops as [|o ops IH]; intros w Hw; simpl; [done|].
  by apply IH, stillClosed_exec.
Qed.

Lemma receive_closed p kv (w : World) :
  cluster.isOpen p (heap w) = false → receive p kv w = w.
Proof.
  intros Hc. unfold receive. rewrite Hc.
  by destruct (tasks w !! p) as [[]|].
Qed.

(** *** Tasks stay where they are *)

Lemma stop_keeps_task key p (w : World) :
  tasks (stopSyncOneKey key w) !! p = tasks w !! p
  ∧ length (heap (stopSyncOneKey key w)) = length (heap w).
Proof.
  unfold stopSyncOneKey. destruct (syncers (inf w) !! key); [|done].
  simpl. by rewrite length_Close.
Qed.

Lemma register_keeps_task p (r : Watch) (w : World) :
  p < length (heap w) →
  tasks (register r w).2 !! p = tasks w !! p
  ∧ p < length (heap (register r w).2).
Proof.
  intros Hp.
  destruct (register_shape r) as [(k & q & fn & Hr) | (k & fn & _ & Hr)];
    rewrite Hr; [unfold onSpecPart | unfold onSpecs];
    (destruct (closed (inf w)); [done|];
     destruct (decide (is_Some (syncers (inf w) !! syncerKeyOf r))); [done|];
     destruct (syncerError (store (inf w))); [done|];
     destruct (syncError (store (inf w))); simpl;
     rewrite ?length_subscribe, ?length_app; simpl;
     [ split; [done | lia]
     | split; [by rewrite lookup_insert_ne by lia | lia] ]).
Qed.

Lemma exec_keeps_task p (o : Op) (w : World) :
  p < length (heap w) →
  tasks (exec o w) !! p = tasks w !! p ∧ p < length (heap (exec o w)).
Proof.
  intros Hp. destruct o; simpl.
  - by apply register_keeps_task.
  - destruct (stop_keeps_task (serviceSpecSyncerKey serviceName gjsonPath)
                p w) as [Ht Hl].
    unfold StopWatchServiceSpec. by rewrite Ht, Hl.
  - destruct (stop_keeps_task (serviceInstanceSpecSyncerKey serviceName)
                p w) as [Ht Hl].
    unfold StopWatchServiceInstanceSpec. by rewrite Ht, Hl.
  - by rewrite length_closeAll.
  - unfold receive.
    destruct (tasks w !! syncer) as [[key fn|key fn]|]; [|done..].
    destruct (cluster.isOpen syncer (heap w)); [|done].
    unfold sync. destruct (rawEvent kv) as [event value].
    destruct (fn event value (user w)) as [[] u]; [done|].
    destruct (stop_keeps_task key p (setUser u w)) as [Ht Hl].
    by rewrite Ht, Hl.
  - unfold receivePrefix.
    destruct (tasks w !! syncer) as [[key fn|key fn]|]; [done| |done].
    destruct (cluster.isOpen syncer (heap w)); [|done].
    unfold syncPrefix.
    destruct (fn kvs (inf w) (user w)) as [[[] i] u]; [done|].
    destruct (stop_keeps_task key p (setUser u (setInf i w))) as [Ht Hl].
    by rewrite Ht, Hl.
  - done.
Qed.

Lemma run_keeps_task p (ops : list Op) (w : World) :
  p < length (heap w) →
  tasks (run ops w) !! p = tasks w !! p ∧ p < length (heap (run ops w)).
Proof.
  revert w; induction ops as [|o ops IH]; intros w Hp; simpl; [done|].
  destruct (exec_keeps_task p o w Hp) as [Ht Hl].
  destruct (IH _ Hl) as [Ht' Hl']. by rewrite Ht', Ht.
Qed.

(** *** The task a registration starts *)

Lemma onSpecPart_task storeKey syncerKey path (fn : specHandleFunc)
    (w w1 : World) :
  onSpecPart storeKey syncerKey path fn w = (None, w1) →
  tasks w1 !! length (heap w) = Some (RawTask syncerKey fn)
  ∧ cluster.isOpen (length (heap w)) (heap w1) = true.
Proof.
  unfold onSpecPart.
  destruct (closed (inf w)); [done|].
  destruct (decide _); [done|].
  destruct (syncerError _); [done|].
  destruct (syncError _); [done|].
  intros [= <-]; simpl. rewrite lookup_insert_eq, isOpen_subscribe.
  split; [done|]. unfold cluster.isOpen.
  by rewrite lookup_app_r, Nat.sub_diag.
Qed.

Lemma onSpecs_task storePrefix syncerKey (fn : specsHandleFunc)
    (w w1 : World) :
  onSpecs storePrefix syncerKey fn w = (None, w1) →
  tasks w1 !! length (heap w) = Some (PrefixTask syncerKey fn)
  ∧ cluster.isOpen (length (heap w)) (heap w1) = true.
Proof.
  unfold onSpecs.
  destruct (closed (inf w)); [done|].
  destruct (decide _); [done|].
  destruct (syncerError _); [done|].
  destruct (syncError _); [done|].
  intros [= <-]; simpl. rewrite lookup_insert_eq, isOpen_subscribe.
  split; [done|]. unfold cluster.isOpen.
  by rewrite lookup_app_r, Nat.sub_diag.
Qed.

(** Every method of the interface, once it has returned nil, has started
    one task on the syncer it obtained: the loop of [sync] or of
    [syncPrefix] on the closure the method built around the callback.
    That task is there for good. *)
Lemma registered_task (r : Watch) (ops : list Op) (w w1 : World) :
  register r w = (None, w1) →
  tasks (run ops w1) !! length (heap w)
  = Some
      match r with
      | PartOfServiceSpec _ _ fn => RawTask (syncerKeyOf r) (specFunc fn)
      | PartOfServiceInstanceSpec _ _ _ fn =>
          RawTask (syncerKeyOf r) (specFunc fn)
      | PartOfServiceInstanceStatus _ _ _ fn =>
          RawTask (syncerKeyOf r) (specFunc fn)
      | PartOfTenantSpec _ _ fn => RawTask (syncerKeyOf r) (specFunc fn)
      | PartOfIngressSpec _ _ fn => RawTask (syncerKeyOf r) (specFunc fn)
      | AllServiceSpecs fn =>
          PrefixTask (syncerKeyOf r) (specsFunc filterServices fn)
      | ServiceInstanceSpecs _ fn | AllServiceInstanceSpecs fn =>
          PrefixTask (syncerKeyOf r) (specsFunc filterInstanceSpecs fn)
      | ServiceInstanceStatuses _ fn | AllServiceInstanceStatuses fn =>
          PrefixTask (syncerKeyOf r) (specsFunc filterInstanceStatuses fn)
      | AllTenantSpecs fn =>
          PrefixTask (syncerKeyOf r) (specsFunc (λ _, decodeAll) fn)
      | AllIngressSpecs fn =>
          PrefixTask (syncerKeyOf r) (specsFunc (λ _, decodeAll) fn)
      end.
Proof.
  intros Hr.
  assert (∀ t, tasks w1 !! length (heap w) = Some t
               ∧ cluster.isOpen (length (heap w)) (heap w1) = true →
               tasks (run ops w1) !! length (heap w) = Some t) as Hrun.
  { intros t [Ht Ho]. apply isOpen_allocated in Ho.
    by rewrite (proj1 (run_keeps_task _ ops w1 Ho)). }
  destruct r; apply Hrun;
    first [ eapply onSpecPart_task; exact Hr
          | eapply onSpecs_task; exact Hr ].
Qed.

(** A registration that returned nil leaves the informer consistent,
    whatever happens afterwards. *)
Lemma consistent_registered (r : Watch) (ops : list Op) (w w1 : World) :
  consistent w → register r w = (None, w1) → consistent (run ops w1).
Proof.
  intros Hw Hr. apply consistent_run.
  pose proof (consistent_register r w Hw) as Hw1. by rewrite Hr in Hw1.
Qed.

(** *** The loop of a single-key watch *)

Lemma receive_running p key (fn : specHandleFunc) kv (w : World) :
  tasks w !! p = Some (RawTask key fn) →
  cluster.isOpen p (heap w) = true →
  receive p kv w
  = afterCallback key (fn (rawEvent kv).1 (rawEvent kv).2 (user w)) w.
Proof.
  intros Ht Ho. unfold receive, sync, afterCallback. rewrite Ht, Ho.
  destruct (rawEvent kv) as [event value]; simpl.
  by destruct (fn event value (user w)) as [[] u].
Qed.

(** A value that does not decode is logged; the callback is not called
    and the watch goes on. *)
Lemma receive_undecodable {E : Type} `{Yaml E, Zero E} p key
    (fn : PartFunc E) (r : KeyValue) (w : World) :
  tasks w !! p = Some (RawTask key (specFunc fn)) →
  cluster.isOpen p (heap w) = true →
  Unmarshal (Value r) = None →
  receive p (Some r) w = w.
Proof.
  intros Ht Ho Hu. rewrite (receive_running p key _ _ w Ht Ho).
  unfold afterCallback, specFunc; simpl. rewrite Hu; simpl.
  by destruct w.
Qed.

Lemma receivePrefix_closed p kvs (w : World) :
  cluster.isOpen p (heap w) = false → receivePrefix p kvs w = w.
Proof.
  intros Hc. unfold receivePrefix. rewrite Hc.
  by destruct (tasks w !! p) as [[]|].
Qed.

(** The stop of [sync] and [syncPrefix], for the task of an open
    channel. *)
Lemma stops_on_false p (t : Task) (w : World) :
  consistent w →
  tasks w !! p = Some t →
  cluster.isOpen p (heap w) = true →
  stopsOnFalse p (taskKey t) w.
Proof.
  intros Hw Ht Ho [b u] Hb; simpl in Hb; subst b.
  unfold afterCallback; simpl.
  pose proof (open_registered w Hw p _ Ht Ho) as Hreg.
  pose proof (tasks_allocated w Hw p _ Ht) as Hlt.
  assert (stillClosed p (stopSyncOneKey (taskKey t) (setUser u w))) as Hsc.
  { unfold stopSyncOneKey; simpl. rewrite Hreg. split; simpl.
    - by rewrite length_Close.
    - rewrite isOpen_Close. by rewrite decide_True. }
  split; [apply Hsc|]. split; [apply stop_removes|]. split.
  - unfold stopSyncOneKey; simpl. by rewrite Hreg.
  - intros ops kv kvs.
    destruct (stillClosed_run p ops _ Hsc) as [_ Hcl].
    split; [by apply receive_closed | by apply receivePrefix_closed].
Qed.

Lemma raw_task_loop {E : Type} `{Yaml E, Zero E} (p : nat) (key : string)
    (fn : PartFunc E) (w : World) :
  consistent w →
  tasks w !! p = Some (RawTask key (specFunc fn)) →
  cluster.isOpen p (heap w) = true →
  callsBack p key fn w ∧ stopsOnFalse p key w.
Proof.
  intros Hw Ht Ho. split; [split|].
  - by rewrite (receive_running p key _ _ w Ht Ho).
  - intros r. destruct (Unmarshal (Value r)) as [e|] eqn:Hu.
    + rewrite (receive_running p key _ _ w Ht Ho).
      unfold specFunc; simpl. by rewrite Hu.
    + by apply (receive_undecodable p key fn).
  - apply (stops_on_false p _ w Hw Ht Ho).
Qed.

(** C5, as the code has it.  A single-key watch is registered through
    any of the [OnPartOf...] methods, and an element arrives on its
    channel while it is open, whatever happened to the informer in
    between.  A nil element makes the callback run on a [Delete] event
    and the zero entity.  A record makes it run on an [Update] event
    carrying the record and on the decoded entity when the value of the
    record decodes; when it does not decode the callback does not run and
    the watch goes on.  When the callback answers false, the syncer of
    the watch is closed and its registration removed, after which no
    element delivered to the task changes anything. *)
Theorem single_key_watch_loop (r : Watch) (ops : list Op) (w w1 : World) :
  consistent w →
  register r w = (None, w1) →
  let p := length (heap w) in
  let key := syncerKeyOf r in
  let w2 := run ops w1 in
  cluster.isOpen p (heap w2) = true →
  match r with
  | PartOfServiceSpec _ _ fn => callsBack p key fn w2 ∧ stopsOnFalse p key w2
  | PartOfServiceInstanceSpec _ _ _ fn =>
      callsBack p key fn w2 ∧ stopsOnFalse p key w2
  | PartOfServiceInstanceStatus _ _ _ fn =>
      callsBack p key fn w2 ∧ stopsOnFalse p key w2
  | PartOfTenantSpec _ _ fn => callsBack p key fn w2 ∧ stopsOnFalse p key w2
  | PartOfIngressSpec _ _ fn => callsBack p key fn w2 ∧ stopsOnFalse p key w2
  | _ => True
  end.
Proof.
  intros Hw Hr p key w2 Ho.
  pose proof (registered_task r ops w w1 Hr) as Ht.
  pose proof (consistent_registered r ops w w1 Hw Hr) as Hw2.
  destruct r; try exact I; by apply raw_task_loop.
Qed.

Lemma reachable_consistent (w : World) : reachable w → consistent w.
Proof.
  induction 1 as [st name u | o w _ IH].
  - apply consistent_NewInformer.
  - by apply consistent_exec.
Qed.

(** *** SyncerKeys and selector paths *)

Lemma append_path_inj (a : string) (p1 p2 : GJSONPath) :
  a +:+ p1 = a +:+ p2 → p1 = p2.
Proof. apply (inj (String.append a)). Qed.

Lemma serviceSpecSyncerKey_path n (p1 p2 : GJSONPath) :
  p1 ≠ p2 → serviceSpecSyncerKey n p1 ≠ serviceSpecSyncerKey n p2.
Proof.
  intros Hne Heq. apply Hne. unfold serviceSpecSyncerKey in Heq.
  by do 3 apply append_path_inj in Heq.
Qed.

Lemma two_registrations (r1 r2 : Watch) (w : World) :
  syncerKeyOf r1 ≠ syncerKeyOf r2 →
  ready w r1 → ready w r2 → bothAccepted w r1 r2.
Proof.
  intros Hne H1 (_ & _ & _ & Hfree2).
  destruct (register_ready r1 w H1) as (w1 & Hr1 & Hc1 & Hs1 & Hm1 & Hl1 & _).
  assert (ready w1 r2) as H2.
  { destruct H1 as (_ & He1 & He2 & _). unfold ready.
    rewrite Hc1, Hs1, Hm1, lookup_insert_ne by done. done. }
  destruct (register_ready r2 w1 H2) as (w2 & Hr2 & _ & _ & Hm2 & _ & _).
  exists w1, w2, (length (heap w)), (length (heap w1)).
  split; [done|]. split; [done|]. rewrite Hm2, Hm1. split; [|split].
  - rewrite lookup_insert_ne by done. apply lookup_insert_eq.
  - apply lookup_insert_eq.
  - lia.
Qed.

Lemma same_key_refused (r1 r2 : Watch) (w : World) :
  syncerKeyOf r2 = syncerKeyOf r1 →
  ready w r1 → secondRefused w r1 r2.
Proof.
  intros Heq H1.
  destruct (register_ready r1 w H1) as (w1 & Hr1 & _).
  exists w1. split; [done|]. split; [done|].
  by eapply registered_twice.
Qed.

(** C3, as the code has it.  With two distinct selector paths on the
    same entity: for a service, an instance spec and an instance status
    the two syncerKeys differ, and the two registrations are accepted as
    two watches with two syncers; for a tenant and an ingress the
    syncerKey is made of the name alone, so the second registration is
    refused as already watched. *)
Theorem syncerKey_and_selector_path (p1 p2 : GJSONPath) :
  p1 ≠ p2 →
  (∀ n (f1 f2 : PartFunc Service) (w : World),
      let r1 := PartOfServiceSpec n p1 f1 in
      let r2 := PartOfServiceSpec n p2 f2 in
      ready w r1 → ready w r2 →
      syncerKeyOf r1 ≠ syncerKeyOf r2 ∧ bothAccepted w r1 r2)
  ∧ (∀ n id (f1 f2 : PartFunc ServiceInstanceSpec) (w : World),
      let r1 := PartOfServiceInstanceSpec n id p1 f1 in
      let r2 := PartOfServiceInstanceSpec n id p2 f2 in
      ready w r1 → ready w r2 →
      syncerKeyOf r1 ≠ syncerKeyOf r2 ∧ bothAccepted w r1 r2)
  ∧ (∀ n id (f1 f2 : PartFunc ServiceInstanceStatus) (w : World),
      let r1 := PartOfServiceInstanceStatus n id p1 f1 in
      let r2 := PartOfServiceInstanceStatus n id p2 f2 in
      ready w r1 → ready w r2 →
      syncerKeyOf r1 ≠ syncerKeyOf r2 ∧ bothAccepted w r1 r2)
  ∧ (∀ n (f1 f2 : PartFunc Tenant) (w : World),
      let r1 := PartOfTenantSpec n p1 f1 in
      let r2 := PartOfTenantSpec n p2 f2 in
      ready w r1 → secondRefused w r1 r2)
  ∧ (∀ n (f1 f2 : PartFunc Ingress) (w : World),
      let r1 := PartOfIngressSpec n p1 f1 in
      let r2 := PartOfIngressSpec n p2 f2 in
      ready w r1 → secondRefused w r1 r2).
Proof.
  intros Hne. split; [|split; [|split; [|split]]].
  - intros n f1 f2 w r1 r2 H1 H2.
    assert (syncerKeyOf r1 ≠ syncerKeyOf r2) as Hk
      by by apply serviceSpecSyncerKey_path.
    split; [done | by apply two_registrations].
  - intros n id f1 f2 w r1 r2 H1 H2.
    assert (syncerKeyOf r1 ≠ syncerKeyOf r2) as Hk.
    { simpl. intros Heq. apply Hne. by do 5 apply append_path_inj in Heq. }
    split; [done | by apply two_registrations].
  - intros n id f1 f2 w r1 r2 H1 H2.
    assert (syncerKeyOf r1 ≠ syncerKeyOf r2) as Hk.
    { simpl. intros Heq. apply Hne. by do 5 apply append_path_inj in Heq. }
    split; [done | by apply two_registrations].
  - intros n f1 f2 w r1 r2 H1. by apply same_key_refused.
  - intros n f1 f2 w r1 r2 H1. by apply same_key_refused.
Qed.

End Registration.

Section Indices.
Context {R : MapRange}.
Context {YService : Yaml Service} {YTenant : Yaml Tenant}
        {YInstanceSpec : Yaml ServiceInstanceSpec}
        {YInstanceStatus : Yaml ServiceInstanceStatus}.

(** *** The loop that builds the map of a prefix callback *)

Lemma range_as_map {V : Type} (kvs : gmap string V) :
  NoDup (rangeOf kvs).*1 ∧ list_to_map (rangeOf kvs) = kvs.
Proof.
  assert (NoDup (rangeOf kvs).*1) as Hnd.
  { rewrite rangeOf_perm. apply NoDup_fst_map_to_list. }
  split; [done|].
  rewrite (list_to_map_proper _ (map_to_list kvs) Hnd (rangeOf_perm kvs)).
  apply list_to_map_to_list.
Qed.

Lemma foldl_keep_lookup {E : Type} `{Yaml E} (keep : E → bool)
    (l : list (string * string)) (acc : gmap string E) (k : string) :
  NoDup l.*1 →
  foldl (λ (out : gmap string E) (kv : string * string),
           match Unmarshal kv.2 with
           | None => out
           | Some e => if keep e then <[kv.1 := e]> out else out
           end) acc l !! k
  = match (list_to_map l : gmap string string) !! k ≫= Unmarshal with
    | Some e => if keep e then Some e else acc !! k
    | None => acc !! k
    end.
Proof.
  revert acc; induction l as [|[k0 v0] l IH]; intros acc Hnd.
  - simpl. by rewrite lookup_empty.
  - apply NoDup_cons in Hnd as [Hk0 Hnd]. simpl.
    rewrite (IH _ Hnd). clear IH.
    destruct (decide (k = k0)) as [->|Hne].
    + rewrite lookup_insert_eq.
      rewrite (not_elem_of_list_to_map_1 l k0 Hk0); simpl.
      destruct (Unmarshal v0) as [e|]; [|done].
      destruct (keep e); [|done]. by rewrite lookup_insert_eq.
    + rewrite lookup_insert_ne by done.
      assert (match Unmarshal v0 with
              | Some e => if keep e then <[k0:=e]> acc else acc
              | None => acc
              end !! k = acc !! k) as ->; [|done].
      destruct (Unmarshal v0) as [e|]; [|done].
      destruct (keep e); [|done]. by rewrite lookup_insert_ne.
Qed.

Lemma range_keep_lookup {E : Type} `{Yaml E} (keep : E → bool)
    (kvs : gmap string string) (k : string) :
  foldl (λ (out : gmap string E) (kv : string * string),
           match Unmarshal kv.2 with
           | None => out
           | Some e => if keep e then <[kv.1 := e]> out else out
           end) ∅ (rangeOf kvs) !! k
  = (kvs !! k ≫= Unmarshal) ≫= (λ e, if keep e then Some e else None).
Proof.
  destruct (range_as_map kvs) as [Hnd Hm].
  rewrite (foldl_keep_lookup keep _ _ _ Hnd), Hm, lookup_empty.
  destruct (kvs !! k ≫= Unmarshal) as [e|]; simpl; [|done].
  by destruct (keep e).
Qed.

Lemma kept_iff {E : Type} `{Yaml E} (keep : E → bool)
    (kvs : gmap string string) (k : string) (e : E) :
  (kvs !! k ≫= Unmarshal) ≫= (λ e, if keep e then Some e else None) = Some e
  ↔ (∃ v, kvs !! k = Some v ∧ Unmarshal v = Some e) ∧ keep e = true.
Proof.
  split.
  - destruct (kvs !! k) as [v|] eqn:Hk; simpl; [|done].
    destruct (Unmarshal v) as [e'|] eqn:Hv; simpl; [|done].
    destruct (keep e') eqn:Hkeep; [|done].
    intros [= <-]. split; [by exists v | done].
  - intros [(v & -> & Hv) Hkeep]; simpl. rewrite Hv; simpl.
    by rewrite Hkeep.
Qed.

Lemma length_zero (s : string) : String.length s = 0 ↔ s = "".
Proof. by destruct s. Qed.

Lemma scopeTenant_scoped (i : meshInformer) :
  service i ≠ "" →
  boolAt (globalServices i) (service i) = false →
  scopeTenant i = stringAt (service2Tenants i) (service i).
Proof.
  intros Hs Hg. unfold scopeTenant. rewrite Hg.
  rewrite bool_decide_eq_true_2; [done|].
  destruct (service i); [done | simpl; lia].
Qed.

(** The maps of [OnAllTenantSpecs] and [OnAllIngressSpecs]: every record
    that decodes, under its key. *)
Lemma decodeAll_lookup {E : Type} `{Yaml E} (kvs : gmap string string)
    (k : string) :
  decodeAll kvs !! k = kvs !! k ≫= Unmarshal.
Proof.
  unfold decodeAll.
  rewrite (range_keep_lookup (λ _, true) kvs k).
  by destruct (kvs !! k ≫= Unmarshal).
Qed.

(** *** The tenant filter *)

Lemma scoped_keep (tenant : string) (inGlobal : bool) (own : string) :
  tenant ≠ "" →
  bool_decide (String.length tenant = 0) || inGlobal
    || bool_decide (own = tenant) = true
  ↔ inGlobal = true ∨ own = tenant.
Proof.
  intros Ht. rewrite bool_decide_eq_false_2 by by rewrite length_zero.
  simpl. by rewrite orb_true_iff, bool_decide_eq_true.
Qed.

(** With a visible tenant that is not the empty string, the three
    filtering loops keep a decoded record exactly when its service is a
    global service or its tenant is the visible one. *)
Lemma filter_scoped (i : meshInformer) (kvs : gmap string string) :
  service i ≠ "" →
  boolAt (globalServices i) (service i) = false →
  stringAt (service2Tenants i) (service i) ≠ "" →
  let gs := globalServices i in
  let s2t := service2Tenants i in
  let visibleTenant := stringAt s2t (service i) in
  keeps (λ e, boolAt gs (Service_Name e) = true
              ∨ Service_RegisterTenant e = visibleTenant)
    kvs (filterServices i kvs)
  ∧ keeps (λ e, boolAt gs (InstanceSpec_ServiceName e) = true
                ∨ stringAt s2t (InstanceSpec_ServiceName e) = visibleTenant)
      kvs (filterInstanceSpecs i kvs)
  ∧ keeps (λ e, boolAt gs (InstanceStatus_ServiceName e) = true
                ∨ stringAt s2t (InstanceStatus_ServiceName e)
                  = visibleTenant)
      kvs (filterInstanceStatuses i kvs).
Proof.
  intros Hs Hg Ht gs s2t visibleTenant.
  pose proof (scopeTenant_scoped i Hs Hg) as Hscope.
  split; [|split]; intros k e.
  - unfold filterServices. rewrite Hscope.
    rewrite (range_keep_lookup
               (λ service : Service,
                  bool_decide (String.length visibleTenant = 0)
                  || boolAt gs (Service_Name service)
                  || bool_decide (Service_RegisterTenant service
                                  = visibleTenant)) kvs k).
    rewrite kept_iff. cbv beta.
    split; intros [Hv Hk]; (split; [done|]);
      by apply (scoped_keep visibleTenant _ _ Ht).
  - unfold filterInstanceSpecs. rewrite Hscope.
    rewrite (range_keep_lookup
               (λ instanceSpec : ServiceInstanceSpec,
                  bool_decide (String.length visibleTenant = 0)
                  || boolAt gs (InstanceSpec_ServiceName instanceSpec)
                  || bool_decide
                       (stringAt s2t (InstanceSpec_ServiceName instanceSpec)
                        = visibleTenant)) kvs k).
    rewrite kept_iff. cbv beta.
    split; intros [Hv Hk]; (split; [done|]);
      by apply (scoped_keep visibleTenant _ _ Ht).
  - unfold filterInstanceStatuses. rewrite Hscope.
    rewrite (range_keep_lookup
               (λ instanceStatus : ServiceInstanceStatus,
                  bool_decide (String.length visibleTenant = 0)
                  || boolAt gs (InstanceStatus_ServiceName instanceStatus)
                  || bool_decide
                       (stringAt s2t
                          (InstanceStatus_ServiceName instanceStatus)
                        = visibleTenant)) kvs k).
    rewrite kept_iff. cbv beta.
    split; intros [Hv Hk]; (split; [done|]);
      by apply (scoped_keep visibleTenant _ _ Ht).
Qed.

Lemma all_kept {E : Type} `{Yaml E} (keep : E → bool)
    (kvs : gmap string string) :
  (∀ e, keep e = true) →
  foldl (λ (out : gmap string E) (kv : string * string),
           match Unmarshal kv.2 with
           | None => out
           | Some e => if keep e then <[kv.1 := e]> out else out
           end) ∅ (rangeOf kvs)
  = omap Unmarshal kvs.
Proof.
  intros Hkeep. apply map_eq. intros k.
  rewrite (range_keep_lookup keep kvs k), lookup_omap.
  destruct (kvs !! k ≫= Unmarshal) as [e|]; simpl; [|done].
  by rewrite Hkeep.
Qed.

Lemma decodeAll_all {E : Type} `{Yaml E} (kvs : gmap string string) :
  decodeAll kvs = omap Unmarshal kvs.
Proof.
  apply map_eq. intros k. by rewrite decodeAll_lookup, lookup_omap.
Qed.

(** With an empty visible tenant the three filtering loops keep every
    record that decodes. *)
Lemma unfiltered (i : meshInformer) (kvs : gmap string string) :
  scopeTenant i = "" →
  filterServices i kvs = omap Unmarshal kvs
  ∧ filterInstanceSpecs i kvs = omap Unmarshal kvs
  ∧ filterInstanceStatuses i kvs = omap Unmarshal kvs.
Proof.
  intros Ht. split; [|split].
  - unfold filterServices.
    apply (all_kept
             (λ service : Service,
                bool_decide (String.length (scopeTenant i) = 0)
                || boolAt (globalServices i) (Service_Name service)
                || bool_decide (Service_RegisterTenant service
                                = scopeTenant i))).
    intros e. by rewrite Ht.
  - unfold filterInstanceSpecs.
    apply (all_kept
             (λ instanceSpec : ServiceInstanceSpec,
                bool_decide (String.length (scopeTenant i) = 0)
                || boolAt (globalServices i)
                     (InstanceSpec_ServiceName instanceSpec)
                || bool_decide
                     (stringAt (service2Tenants i)
                        (InstanceSpec_ServiceName instanceSpec)
                      = scopeTenant i))).
    intros e. by rewrite Ht.
  - unfold filterInstanceStatuses.
    apply (all_kept
             (λ instanceStatus : ServiceInstanceStatus,
                bool_decide (String.length (scopeTenant i) = 0)
                || boolAt (globalServices i)
                     (InstanceStatus_ServiceName instanceStatus)
                || bool_decide
                     (stringAt (service2Tenants i)
                        (InstanceStatus_ServiceName instanceStatus)
                      = scopeTenant i))).
    intros e. by rewrite Ht.
Qed.

(** The three filtering loops never make up an entry: what they keep is
    a decoded record of the snapshot, under its key. *)
Lemma filtered_subseteq (i : meshInformer) (kvs : gmap string string) :
  filterServices i kvs ⊆ omap Unmarshal kvs
  ∧ filterInstanceSpecs i kvs ⊆ omap Unmarshal kvs
  ∧ filterInstanceStatuses i kvs ⊆ omap Unmarshal kvs.
Proof.
  split; [|split]; apply map_subseteq_spec; intros k e;
    [unfold filterServices | unfold filterInstanceSpecs
    | unfold filterInstanceStatuses].
  - rewrite (range_keep_lookup
               (λ service : Service,
                  bool_decide (String.length (scopeTenant i) = 0)
                  || boolAt (globalServices i) (Service_Name service)
                  || bool_decide (Service_RegisterTenant service
                                  = scopeTenant i)) kvs k).
    rewrite kept_iff, lookup_omap. intros [(v & -> & Hv) _]. done.
  - rewrite (range_keep_lookup
               (λ instanceSpec : ServiceInstanceSpec,
                  bool_decide (String.length (scopeTenant i) = 0)
                  || boolAt (globalServices i)
                       (InstanceSpec_ServiceName instanceSpec)
                  || bool_decide
                       (stringAt (service2Tenants i)
                          (InstanceSpec_ServiceName instanceSpec)
                        = scopeTenant i)) kvs k).
    rewrite kept_iff, lookup_omap. intros [(v & -> & Hv) _]. done.
  - rewrite (range_keep_lookup
               (λ instanceStatus : ServiceInstanceStatus,
                  bool_decide (String.length (scopeTenant i) = 0)
                  || boolAt (globalServices i)
                       (InstanceStatus_ServiceName instanceStatus)
                  || bool_decide
                       (stringAt (service2Tenants i)
                          (InstanceStatus_ServiceName instanceStatus)
                        = scopeTenant i)) kvs k).
    rewrite kept_iff, lookup_omap. intros [(v & -> & Hv) _]. done.
Qed.

(** The own service is set and is not a global service, but has no
    tenant: the visible tenant is empty. *)
Lemma scopeTenant_unmapped (i : meshInformer) :
  service i ≠ "" →
  boolAt (globalServices i) (service i) = false →
  service2Tenants i !! service i = None
  ∨ service2Tenants i !! service i = Some "" →
  scopeTenant i = "".
Proof.
  intros Hs Hg Hm. rewrite (scopeTenant_scoped i Hs Hg). unfold stringAt.
  by destruct Hm as [-> | ->].
Qed.

(** No own service, or an own service that is a global service: the
    visible tenant is empty. *)
Lemma scopeTenant_unscoped (i : meshInformer) :
  service i = "" ∨ boolAt (globalServices i) (service i) = true →
  scopeTenant i = "".
Proof.
  unfold scopeTenant. intros [-> | ->]; [done|].
  by rewrite andb_false_r.
Qed.

End Indices.

Section GlobalTenant.
Context {R : MapRange} {YTenant : Yaml Tenant} {U : Type}.

Lemma findGlobalTenant_None (l : list (string * string)) :
  (∀ k v t, (k, v) ∈ l → Unmarshal v = Some t →
            Tenant_Name t ≠ GlobalTenant) →
  findGlobalTenant l = None.
Proof.
  induction l as [|[k v] l IH]; intros Hno; simpl; [done|].
  assert (findGlobalTenant l = None) as ->.
  { apply IH. intros k' v' t Hin. apply (Hno k' v' t). by right. }
  destruct (Unmarshal v) as [t|] eqn:Hv; [|done].
  rewrite decide_False; [done|]. apply (Hno k v t); [by left | done].
Qed.

Lemma findGlobalTenant_Some (l : list (string * string)) (t : Tenant) :
  findGlobalTenant l = Some t →
  ∃ k v, (k, v) ∈ l ∧ Unmarshal v = Some t ∧ Tenant_Name t = GlobalTenant.
Proof.
  induction l as [|[k v] l IH]; simpl; [done|].
  destruct (Unmarshal v) as [t'|] eqn:Hv.
  - destruct (decide (Tenant_Name t' = GlobalTenant)) as [Hn|Hn].
    + intros [= <-]. exists k, v. split; [by left | done].
    + intros (k' & v' & Hin & Hrest)%IH. exists k', v'.
      split; [by right | done].
  - intros (k' & v' & Hin & Hrest)%IH. exists k', v'.
    split; [by right | done].
Qed.

Lemma services_set (names : list string) (acc : gmap string bool)
    (name : string) :
  boolAt (foldl (λ m s, <[s := true]> m) acc names) name = true
  ↔ name ∈ names ∨ boolAt acc name = true.
Proof.
  revert acc; induction names as [|s names IH]; intros acc; simpl.
  - rewrite elem_of_nil. tauto.
  - rewrite IH, elem_of_cons. unfold boolAt.
    destruct (decide (s = name)) as [->|Hne].
    + rewrite lookup_insert_eq; simpl. tauto.
    + rewrite lookup_insert_ne by done.
      split; [tauto|]. intros [[Heq|?]|?]; [congruence|tauto..].
Qed.

(** The record of the global tenant, when the snapshot has one, decides
    the set: the new set is the list of its services. *)
Lemma updateGlobalServices_found (kvs : gmap string string)
    (i : meshInformer) (t : Tenant) :
  findGlobalTenant (rangeOf kvs) = Some t →
  ∀ name, boolAt (globalServices (updateGlobalServices kvs i).2) name = true
          ↔ name ∈ Tenant_Services t.
Proof.
  intros Hf name. unfold updateGlobalServices. rewrite Hf; simpl.
  rewrite services_set. unfold boolAt. rewrite lookup_empty; simpl.
  split; [intros [?|?]; [done|congruence] | tauto].
Qed.

(** C2, as the code has it.  When no record of the snapshot decodes to
    the tenant named [GlobalTenant], [updateGlobalServices] returns
    without touching the informer: the set of global services stays
    what it was (empty if it was empty), and the internal watch that
    runs it leaves the whole state as it is. *)
Theorem missing_global_tenant_keeps_set (kvs : gmap string string)
    (i : meshInformer) :
  (∀ k v t, kvs !! k = Some v → Unmarshal v = Some t →
            Tenant_Name t ≠ GlobalTenant) →
  updateGlobalServices kvs i = (true, i)
  ∧ (globalServices i = ∅ →
     globalServices (updateGlobalServices kvs i).2 = ∅)
  ∧ ∀ (w : @World U) p key,
      tasks w !! p
      = Some (PrefixTask key (internalHandler updateGlobalServices)) →
      receivePrefix p kvs w = w.
Proof.
  intros Hno.
  assert (findGlobalTenant (rangeOf kvs) = None) as Hnone.
  { apply findGlobalTenant_None. intros k v t Hin. apply (Hno k v t).
    apply elem_of_map_to_list. by rewrite <- rangeOf_perm. }
  assert (updateGlobalServices kvs i = (true, i)) as Hsame.
  { unfold updateGlobalServices. by rewrite Hnone. }
  split; [done|]. split; [by rewrite Hsame|].
  intros w p key Ht. unfold receivePrefix. rewrite Ht.
  destruct (cluster.isOpen p (heap w)); [|done].
  unfold syncPrefix, internalHandler, updateGlobalServices.
  rewrite Hnone. by destruct w.
Qed.

(** What a prefix closure hands to the callback. *)
Lemma prefix_callback_argument {E : Type}
    (build : meshInformer → gmap string string → gmap string E)
    (fn : @PrefixFunc U E) (kvs : gmap string string) (i : meshInformer)
    (u : U) :
  specsFunc build fn kvs i u
  = ((fn (build i kvs) u).1, i, (fn (build i kvs) u).2).
Proof. unfold specsFunc. by destruct (fn (build i kvs) u). Qed.

End GlobalTenant.

Section Delivery.
Context {R : MapRange}.
Context {YService : Yaml Service} {YTenant : Yaml Tenant}
        {YIngress : Yaml Ingress}
        {YInstanceSpec : Yaml ServiceInstanceSpec}
        {YInstanceStatus : Yaml ServiceInstanceStatus}.
Context {U : Type}.

Abbreviation World' := (@informer.World U).
Abbreviation Watch' := (@informer.Watch U).
Abbreviation Op' := (@informer.Op U).

(** *** What a registered prefix watch hands to its callback *)

Lemma receivePrefix_running {E : Type}
    (build : meshInformer → gmap string string → gmap string E)
    (fn : @informer.PrefixFunc U E) p key kvs (w : World') :
  tasks w !! p = Some (PrefixTask key (specsFunc build fn)) →
  cluster.isOpen p (heap w) = true →
  hands p key fn kvs (build (inf w) kvs) w.
Proof.
  intros Ht Ho. unfold hands, receivePrefix, syncPrefix, afterCallback.
  rewrite Ht, Ho, prefix_callback_argument.
  destruct (fn (build (inf w) kvs) (user w)) as [[] u]; simpl;
    by destruct w.
Qed.

(** A prefix watch is registered through the interface, and a snapshot
    arrives on its channel while it is open: the callback runs on the map
    the loop of the method builds from the snapshot and from the indices
    the informer has at that moment. *)
Lemma prefix_watch_hands (r : Watch') (ops : list Op')
    (kvs : gmap string string) (w w1 : World') :
  register r w = (None, w1) →
  let p := length (heap w) in
  let w2 := run ops w1 in
  cluster.isOpen p (heap w2) = true →
  match r with
  | AllServiceSpecs fn =>
      hands p (syncerKeyOf r) fn kvs (filterServices (inf w2) kvs) w2
  | ServiceInstanceSpecs _ fn | AllServiceInstanceSpecs fn =>
      hands p (syncerKeyOf r) fn kvs (filterInstanceSpecs (inf w2) kvs) w2
  | ServiceInstanceStatuses _ fn | AllServiceInstanceStatuses fn =>
      hands p (syncerKeyOf r) fn kvs (filterInstanceStatuses (inf w2) kvs) w2
  | AllTenantSpecs fn => hands p (syncerKeyOf r) fn kvs (decodeAll kvs) w2
  | AllIngressSpecs fn => hands p (syncerKeyOf r) fn kvs (decodeAll kvs) w2
  | _ => True
  end.
Proof.
  intros Hr p w2 Ho.
  pose proof (registered_task r ops w w1 Hr) as Ht.
  destruct r; try exact I;
    first [ by apply receivePrefix_running
          | by apply (receivePrefix_running (λ _, decodeAll)) ].
Qed.

(** The same, when the visible tenant is empty at that moment: the
    callback of a watch on services, instance specs or instance statuses
    runs on every record that decodes. *)
Lemma unscoped_watch_hands (r : Watch') (ops : list Op')
    (kvs : gmap string string) (w w1 : World') :
  register r w = (None, w1) →
  let p := length (heap w) in
  let w2 := run ops w1 in
  cluster.isOpen p (heap w2) = true →
  scopeTenant (inf w2) = "" →
  match r with
  | AllServiceSpecs fn =>
      hands p (syncerKeyOf r) fn kvs (omap Unmarshal kvs) w2
  | ServiceInstanceSpecs _ fn | AllServiceInstanceSpecs fn =>
      hands p (syncerKeyOf r) fn kvs (omap Unmarshal kvs) w2
  | ServiceInstanceStatuses _ fn | AllServiceInstanceStatuses fn =>
      hands p (syncerKeyOf r) fn kvs (omap Unmarshal kvs) w2
  | _ => True
  end.
Proof.
  intros Hr p w2 Ho Ht.
  pose proof (prefix_watch_hands r ops kvs w w1 Hr Ho) as Hh.
  destruct (unfiltered (inf w2) kvs Ht) as (H1 & H2 & H3).
  destruct r; try exact I; simpl in Hh;
    first [ by rewrite <- H1 | by rewrite <- H2 | by rewrite <- H3 ].
Qed.

(** C4, as the code has it.  A prefix watch on services, instance specs
    or instance statuses is registered through the interface, and a
    snapshot arrives on its channel while it is open, whatever happened
    to the informer in between.  When, at that moment, the informer's
    own service is set, is not a global service, and is mapped to a
    tenant that is not the empty string, the callback runs on a map that
    holds, under its key, exactly each decoded record whose service is a
    global service or whose tenant is the visible tenant:
    [RegisterTenant] for a service, the tenant its service is mapped to
    for an instance spec and an instance status. *)
Theorem tenant_filter_scoped (r : Watch') (ops : list Op')
    (kvs : gmap string string) (w w1 : World') :
  register r w = (None, w1) →
  let p := length (heap w) in
  let w2 := run ops w1 in
  let gs := globalServices (inf w2) in
  let s2t := service2Tenants (inf w2) in
  let visibleTenant := stringAt s2t (service (inf w2)) in
  cluster.isOpen p (heap w2) = true →
  service (inf w2) ≠ "" →
  boolAt gs (service (inf w2)) = false →
  visibleTenant ≠ "" →
  match r with
  | AllServiceSpecs fn =>
      ∃ m, hands p (syncerKeyOf r) fn kvs m w2
           ∧ keeps (λ e, boolAt gs (Service_Name e) = true
                         ∨ Service_RegisterTenant e = visibleTenant) kvs m
  | ServiceInstanceSpecs _ fn | AllServiceInstanceSpecs fn =>
      ∃ m, hands p (syncerKeyOf r) fn kvs m w2
           ∧ keeps (λ e, boolAt gs (InstanceSpec_ServiceName e) = true
                         ∨ stringAt s2t (InstanceSpec_ServiceName e)
                           = visibleTenant) kvs m
  | ServiceInstanceStatuses _ fn | AllServiceInstanceStatuses fn =>
      ∃ m, hands p (syncerKeyOf r) fn kvs m w2
           ∧ keeps (λ e, boolAt gs (InstanceStatus_ServiceName e) = true
                         ∨ stringAt s2t (InstanceStatus_ServiceName e)
                           = visibleTenant) kvs m
  | _ => True
  end.
Proof.
  intros Hr p w2 gs s2t visibleTenant Ho Hs Hg Ht.
  pose proof (prefix_watch_hands r ops kvs w w1 Hr Ho) as Hh.
  destruct (filter_scoped (inf w2) kvs Hs Hg Ht) as (H1 & H2 & H3).
  destruct r; try exact I; eexists; (split; [exact Hh|]);
    first [exact H1 | exact H2 | exact H3].
Qed.

(** C10.  A prefix watch on services, instance specs or instance
    statuses is registered through the interface, and a snapshot arrives
    on its channel while it is open, whatever happened to the informer in
    between.  When, at that moment, the informer's own service is set
    and is not a global service, but is missing from the
    service-to-tenant map or mapped to the empty string, nothing is
    filtered: the callback runs on the map of every record that
    decodes. *)
Theorem tenant_filter_passes_without_tenant (r : Watch') (ops : list Op')
    (kvs : gmap string string) (w w1 : World') :
  register r w = (None, w1) →
  let p := length (heap w) in
  let w2 := run ops w1 in
  cluster.isOpen p (heap w2) = true →
  service (inf w2) ≠ "" →
  boolAt (globalServices (inf w2)) (service (inf w2)) = false →
  service2Tenants (inf w2) !! service (inf w2) = None
  ∨ service2Tenants (inf w2) !! service (inf w2) = Some "" →
  match r with
  | AllServiceSpecs fn =>
      hands p (syncerKeyOf r) fn kvs (omap Unmarshal kvs) w2
  | ServiceInstanceSpecs _ fn | AllServiceInstanceSpecs fn =>
      hands p (syncerKeyOf r) fn kvs (omap Unmarshal kvs) w2
  | ServiceInstanceStatuses _ fn | AllServiceInstanceStatuses fn =>
      hands p (syncerKeyOf r) fn kvs (omap Unmarshal kvs) w2
  | _ => True
  end.
Proof.
  intros Hr p w2 Ho Hs Hg Hm.
  apply (unscoped_watch_hands r ops kvs w w1 Hr Ho).
  by apply scopeTenant_unmapped.
Qed.

End Delivery.

Section InformerSamples.
Import sample.
#[local] Existing Instance canonicalRange.
#[local] Existing Instance serviceCodec.
#[local] Existing Instance tenantCodec.
#[local] Existing Instance ingressCodec.
#[local] Existing Instance instanceSpecCodec.
#[local] Existing Instance instanceStatusCodec.

Ltac evaluate :=
  vm_compute; first [reflexivity | intros H; discriminate H].

Lemma consistent_watching : consistent watching.
Proof. apply consistent_register, consistent_NewInformer. Qed.

Lemma unscoped_ready (r : @Watch (list string)) : ready unscoped r.
Proof. repeat split. Qed.

(** **** The indices built at construction *)

Example scoped_indices :
  globalServices (inf scoped) = {[ "auth" := true ]}
  ∧ service2Tenants (inf scoped)
    = <[ "orders" := "retail" ]>
        (<[ "auth" := "platform" ]> {[ "pay" := "bank" ]})
  ∧ syncers (inf scoped)
    = <[ "informer-service" := 0 ]> {[ "informer-global-tenant" := 1 ]}.
Proof. repeat split; vm_compute; reflexivity. Qed.

(** **** C2 *)

Lemma missing_global_tenant_keeps_set_witness :
  (∀ k v t,
      ({[ TenantSpecKey GlobalTenant := garbage ]} : gmap string string) !! k
      = Some v →
      Unmarshal v = Some t → Tenant_Name t ≠ GlobalTenant)
  ∧ updateGlobalServices {[ TenantSpecKey GlobalTenant := garbage ]}
      (inf scoped)
    = (true, inf scoped).
Proof.
  assert (∀ k v t,
             ({[ TenantSpecKey GlobalTenant := garbage ]}
              : gmap string string) !! k = Some v →
             Unmarshal v = Some t → Tenant_Name t ≠ GlobalTenant) as Hno.
  { intros k v t [_ <-]%lookup_singleton_Some Hu.
    vm_compute in Hu. discriminate Hu. }
  split; [exact Hno|].
  exact (proj1 (missing_global_tenant_keeps_set (U := list string)
                  _ (inf scoped) Hno)).
Defined.

(** The informer of [orders] was built while the global tenant listed
    [auth].  The tenant is then deleted, and the internal tenant watch
    (syncer 1) gets the empty snapshot: no record decodes to the global
    tenant, and the set of global services is still [auth]. *)
Lemma global_set_survives_deleted_tenant :
  (∀ k v (t : Tenant),
      (∅ : gmap string string) !! k = Some v →
      Unmarshal v = Some t → Tenant_Name t ≠ GlobalTenant)
  ∧ tasks scoped !! 1
    = Some (PrefixTask "informer-global-tenant"
              (internalHandler updateGlobalServices))
  ∧ cluster.isOpen 1 (heap scoped) = true
  ∧ globalServices (inf (receivePrefix 1 ∅ scoped)) = {[ "auth" := true ]}
  ∧ globalServices (inf (receivePrefix 1 ∅ scoped)) ≠ ∅.
Proof.
  split; [intros k v t Hk; by rewrite lookup_empty in Hk|].
  split; [evaluate|]. split; [evaluate|].
  assert (globalServices (inf (receivePrefix 1 ∅ scoped))
          = {[ "auth" := true ]}) as Hgs by (vm_compute; reflexivity).
  split; [exact Hgs|]. rewrite Hgs. intros Hempty.
  apply (f_equal (λ m : gmap string bool, m !! "auth")) in Hempty.
  by rewrite lookup_singleton_eq, lookup_empty in Hempty.
Qed.

(** **** C3 *)

Lemma syncerKey_and_selector_path_witness :
  AllParts ≠ ServiceCanary
  ∧ bothAccepted unscoped
      (PartOfServiceSpec "orders" AllParts untilDelete)
      (PartOfServiceSpec "orders" ServiceCanary untilDelete)
  ∧ secondRefused unscoped
      (PartOfIngressSpec "gateway" AllParts always)
      (PartOfIngressSpec "gateway" ServiceCanary always).
Proof.
  assert (AllParts ≠ ServiceCanary) as Hne by evaluate.
  split; [exact Hne|].
  destruct (syncerKey_and_selector_path (U := list string)
              AllParts ServiceCanary Hne) as (Hs & _ & _ & _ & Hi).
  split.
  - apply Hs; apply unscoped_ready.
  - apply Hi; apply unscoped_ready.
Defined.

(** Two watches on tenant [retail], on the whole payload and on its
    [services] part: one syncerKey, and the second registration is
    refused. *)
Lemma tenant_watch_ignores_path :
  AllParts ≠ ("services" : GJSONPath)
  ∧ syncerKeyOf (PartOfTenantSpec (U := list string) "retail" AllParts always)
    = syncerKeyOf (PartOfTenantSpec (U := list string) "retail" "services"
                     always)
  ∧ (register (PartOfTenantSpec "retail" AllParts always) unscoped).1 = None
  ∧ (register (PartOfTenantSpec "retail" "services" always)
       (register (PartOfTenantSpec "retail" AllParts always) unscoped).2).1
    = Some ErrAlreadyWatched
  ∧ ¬ bothAccepted unscoped
        (PartOfTenantSpec "retail" AllParts always)
        (PartOfTenantSpec "retail" "services" always).
Proof.
  split; [evaluate|]. do 3 (split; [evaluate|]).
  intros (w1 & w2 & s1 & s2 & H1 & H2 & _).
  assert (w1 = (register (PartOfTenantSpec "retail" AllParts always)
                  unscoped).2) as -> by by rewrite H1.
  apply (f_equal fst) in H2. vm_compute in H2. discriminate H2.
Qed.

(** **** C4 and C10 *)

Example scenario_tenant_scoping :
  filterServices (inf scoped) threeServices
  = <[ ServiceSpecKey "orders" := orders ]>
      {[ ServiceSpecKey "auth" := auth ]}
  ∧ (register (AllServiceSpecs untilEmpty) scoped).1 = None
  ∧ user (receivePrefix (length (heap scoped)) threeServices prefixWatching)
    = [ServiceSpecKey "orders"; ServiceSpecKey "auth"].
Proof. repeat split; vm_compute; reflexivity. Qed.

Example scenario_self_service_global :
  filterServices (inf (NewInformer (U := list string) meshStore "auth" []))
    threeServices
  = <[ ServiceSpecKey "orders" := orders ]>
      (<[ ServiceSpecKey "auth" := auth ]>
         {[ ServiceSpecKey "pay" := pay ]}).
Proof. vm_compute. reflexivity. Qed.

Lemma tenant_filter_scoped_witness :
  register (AllServiceSpecs untilEmpty) scoped = (None, prefixWatching)
  ∧ cluster.isOpen (length (heap scoped)) (heap prefixWatching) = true
  ∧ service (inf prefixWatching) ≠ ""
  ∧ boolAt (globalServices (inf prefixWatching))
      (service (inf prefixWatching)) = false
  ∧ stringAt (service2Tenants (inf prefixWatching))
      (service (inf prefixWatching)) ≠ ""
  ∧ ∃ m,
      hands (length (heap scoped)) "prefix-service" untilEmpty threeServices
        m prefixWatching
      ∧ keeps
          (λ e, boolAt (globalServices (inf prefixWatching)) (Service_Name e)
                = true
                ∨ Service_RegisterTenant e
                  = stringAt (service2Tenants (inf prefixWatching))
                      (service (inf prefixWatching)))
          threeServices m.
Proof.
  assert (register (AllServiceSpecs untilEmpty) scoped
          = (None, prefixWatching)) as Hr by (apply register_returned; evaluate).
  assert (cluster.isOpen (length (heap scoped)) (heap prefixWatching) = true)
    as Ho by evaluate.
  assert (service (inf prefixWatching) ≠ "") as H1 by evaluate.
  assert (boolAt (globalServices (inf prefixWatching))
            (service (inf prefixWatching)) = false) as H2 by evaluate.
  assert (stringAt (service2Tenants (inf prefixWatching))
            (service (inf prefixWatching)) ≠ "") as H3 by evaluate.
  split; [exact Hr|]. split; [exact Ho|]. split; [exact H1|].
  split; [exact H2|]. split; [exact H3|].
  exact (tenant_filter_scoped (AllServiceSpecs untilEmpty) [] threeServices
           scoped prefixWatching Hr Ho H1 H2 H3).
Defined.

(** Service [orders] is not in the service-to-tenant map.  The record
    of [pay] decodes, [pay] is not a global service and its tenant
    [bank] is not the (empty) visible tenant, and yet the record is
    handed to the callback of a watch registered with
    [OnAllServiceSpecs]. *)
Lemma unmapped_service_sees_other_tenants :
  service (inf unmapped) ≠ ""
  ∧ boolAt (globalServices (inf unmapped)) (service (inf unmapped)) = false
  ∧ threeServices !! ServiceSpecKey "pay" = Some payYaml
  ∧ Unmarshal payYaml = Some pay
  ∧ filterServices (inf unmapped) threeServices !! ServiceSpecKey "pay"
    = Some pay
  ∧ register (AllServiceSpecs untilEmpty) unmapped = (None, unmappedWatching)
  ∧ user (receivePrefix (length (heap unmapped)) threeServices
            unmappedWatching)
    = (map_to_list (omap (Unmarshal (E := Service)) threeServices)).*1
  ∧ ServiceSpecKey "pay"
    ∈ user (receivePrefix (length (heap unmapped)) threeServices
              unmappedWatching)
  ∧ ¬ (boolAt (globalServices (inf unmapped)) (Service_Name pay) = true
       ∨ Service_RegisterTenant pay
         = stringAt (service2Tenants (inf unmapped))
             (service (inf unmapped))).
Proof.
  split; [evaluate|]. do 4 (split; [evaluate|]).
  split; [apply register_returned; evaluate|].
  assert (user (receivePrefix (length (heap unmapped)) threeServices
                  unmappedWatching)
          = (map_to_list (omap (Unmarshal (E := Service)) threeServices)).*1)
    as Hseen by evaluate.
  split; [exact Hseen|]. split.
  - rewrite Hseen. apply list_elem_of_fmap. exists (ServiceSpecKey "pay", pay).
    split; [done|]. apply elem_of_map_to_list. evaluate.
  - intros [H|H]; vm_compute in H; discriminate H.
Qed.

Lemma tenant_filter_passes_without_tenant_witness :
  register (AllServiceSpecs untilEmpty) unmapped = (None, unmappedWatching)
  ∧ cluster.isOpen (length (heap unmapped)) (heap unmappedWatching) = true
  ∧ service (inf unmappedWatching) ≠ ""
  ∧ boolAt (globalServices (inf unmappedWatching))
      (service (inf unmappedWatching)) = false
  ∧ (service2Tenants (inf unmappedWatching) !! service (inf unmappedWatching)
     = None
     ∨ service2Tenants (inf unmappedWatching)
         !! service (inf unmappedWatching) = Some "")
  ∧ hands (length (heap unmapped)) "prefix-service" untilEmpty threeServices
      (omap Unmarshal threeServices) unmappedWatching.
Proof.
  assert (register (AllServiceSpecs untilEmpty) unmapped
          = (None, unmappedWatching)) as Hr by (apply register_returned; evaluate).
  assert (cluster.isOpen (length (heap unmapped)) (heap unmappedWatching)
          = true) as Ho by evaluate.
  assert (service (inf unmappedWatching) ≠ "") as H1 by evaluate.
  assert (boolAt (globalServices (inf unmappedWatching))
            (service (inf unmappedWatching)) = false) as H2 by evaluate.
  assert (service2Tenants (inf unmappedWatching)
            !! service (inf unmappedWatching) = None
          ∨ service2Tenants (inf unmappedWatching)
              !! service (inf unmappedWatching) = Some "") as H3
    by (left; evaluate).
  split; [exact Hr|]. split; [exact Ho|]. split; [exact H1|].
  split; [exact H2|]. split; [exact H3|].
  exact (tenant_filter_passes_without_tenant (AllServiceSpecs untilEmpty) []
           threeServices unmapped unmappedWatching Hr Ho H1 H2 H3).
Defined.

(** **** C5 *)

Lemma consistent_unscoped : consistent unscoped.
Proof. apply consistent_NewInformer. Qed.

Lemma single_key_watch_loop_witness :
  consistent unscoped
  ∧ register watchOrders unscoped = (None, watching)
  ∧ cluster.isOpen (length (heap unscoped)) (heap watching) = true
  ∧ callsBack (length (heap unscoped)) (syncerKeyOf watchOrders) untilDelete
      watching
  ∧ stopsOnFalse (length (heap unscoped)) (syncerKeyOf watchOrders) watching.
Proof.
  assert (register watchOrders unscoped = (None, watching)) as Hr
    by (apply register_returned; evaluate).
  assert (cluster.isOpen (length (heap unscoped)) (heap watching) = true)
    as Ho by evaluate.
  split; [exact consistent_unscoped|]. split; [exact Hr|].
  split; [exact Ho|].
  exact (single_key_watch_loop watchOrders [] unscoped watching
           consistent_unscoped Hr Ho).
Defined.

(** The watch on [orders] is registered with [OnPartOfServiceSpec] and
    its channel is open.  A record whose value does not decode arrives:
    it is a non-nil element, and yet the callback does not run on it.
    Had it run, on whatever entity, the caller would have seen an
    [Update]; the caller has seen nothing, and nothing else has
    changed. *)
Lemma undecodable_record_skips_callback :
  register watchOrders unscoped = (None, watching)
  ∧ cluster.isOpen (length (heap unscoped)) (heap watching) = true
  ∧ Unmarshal (E := Service) (Value garbageRecord) = None
  ∧ (∀ e : Service,
       (untilDelete {| EventType := EventUpdate; RawKV := Some garbageRecord |}
          e (user watching)).2 = ["Update"])
  ∧ user watching = []
  ∧ user (receive (length (heap unscoped)) (Some garbageRecord) watching) = [].
Proof.
  split; [apply register_returned; evaluate|].
  split; [evaluate|]. split; [evaluate|].
  split; [intros e; evaluate|]. split; evaluate.
Qed.

(** The callback answers false on the first delete event; the record
    put afterwards does not reach it. *)
Example scenario_callback_returns_false :
  user (run [Deliver 0 (Some ordersRecord); Deliver 0 None;
             Deliver 0 (Some ordersRecord)] watching)
  = ["Update"; "Delete"]
  ∧ syncers (inf (run [Deliver 0 (Some ordersRecord); Deliver 0 None]
                    watching)) = ∅.
Proof. split; vm_compute; reflexivity. Qed.

(** A prefix watch on ingresses sees the put and then the deletion. *)
Example scenario_prefix_watch_sees_deletion :
  decodeAll (E := Ingress) {[ IngressSpecKey "gateway" := gatewayYaml ]}
  = {[ IngressSpecKey "gateway" := gateway ]}
  ∧ decodeAll (E := Ingress) ∅ = ∅.
Proof. split; vm_compute; reflexivity. Qed.

(** **** C7 and C8 *)

Lemma second_registration_refused_witness :
  closed (inf watching) = false
  ∧ is_Some (syncers (inf watching) !! syncerKeyOf watchOrders)
  ∧ register watchOrders watching = (Some ErrAlreadyWatched, watching).
Proof.
  assert (closed (inf watching) = false) as H1 by evaluate.
  assert (is_Some (syncers (inf watching) !! syncerKeyOf watchOrders))
    as H2 by (exists 0; evaluate).
  split; [exact H1|]. split; [exact H2|].
  exact (second_registration_refused watchOrders watching H1 H2).
Defined.

Example scenario_already_watched :
  (register watchOrders unscoped).1 = None
  ∧ (register watchOrders watching).1 = Some ErrAlreadyWatched
  ∧ (register watchOrders
       (StopWatchServiceSpec "orders" AllParts watching)).1 = None.
Proof. repeat split; evaluate. Qed.

Lemma stop_idempotent_close_terminal_witness :
  consistent watching
  ∧ register watchOrders (run [Deliver 0 None] (Close watching))
    = (Some ErrClosed, run [Deliver 0 None] (Close watching)).
Proof.
  split; [exact consistent_watching|].
  exact (proj2 (proj2 (proj2
           (stop_idempotent_close_terminal "service-spec-orders-"
              watchOrders [Deliver 0 None] watching consistent_watching)))).
Defined.

End InformerSamples.

End InformerProofs.

(** * Further properties of the repository *)

Module RepositoryExtras.
Import layout spec storage service RepositoryProofs.

Section Stores.

Lemma withContent_same (s : Storage) : withContent (content s) s = s.
Proof. by destruct s. Qed.

Lemma withContent_twice (m m' : gmap string string) (s : Storage) :
  withContent m (withContent m' s) = withContent m s.
Proof. done. Qed.

Lemma prefix_append (a b : string) : String.prefix a (a +:+ b) = true.
Proof.
  induction a as [|c a IH]; simpl.
  - by destruct b.
  - destruct (Ascii.ascii_dec c c); [exact IH | done].
Qed.

Lemma append_inj (a b1 b2 : string) : a +:+ b1 = a +:+ b2 → b1 = b2.
Proof. apply (inj (String.append a)). Qed.

Lemma ServiceSpecKey_inj (n1 n2 : string) :
  ServiceSpecKey n1 = ServiceSpecKey n2 → n1 = n2.
Proof. apply append_inj. Qed.

End Stores.

Section Listings.
Context {R : MapRange} {E : Type} {Y : Yaml E}.

(** Taking one record out of the store takes its decoding, if it has one
    and lies under the prefix, out of the listing. *)
Lemma decodedUnder_without (prefix key text : string) (s : Storage) :
  content s !! key = Some text →
  decodedUnder prefix s
  ≡ₚ (if String.prefix prefix key then option_list (Unmarshal text) else [])
     ++ decodedUnder (E := E) prefix
          (withContent (delete key (content s)) s).
Proof.
  intros Hk. unfold decodedUnder, underPrefix; simpl.
  rewrite map_filter_delete.
  destruct (String.prefix prefix key) eqn:Hp.
  - assert (filter (λ kv : string * string, String.prefix prefix kv.1 = true)
              (content s) !! key = Some text) as Hf
      by by apply map_lookup_filter_Some_2.
    rewrite <- (map_to_list_delete _ key text Hf). csimpl.
    by destruct (Unmarshal text).
  - rewrite delete_id; [done|].
    apply map_lookup_filter_None_2. right. intros x _. simpl. congruence.
Qed.

End Listings.

Section Services.
Context {R : MapRange} {YService : Yaml Service}.

Lemma ListServiceSpecs_lists (s : Storage) :
  ioError s ServiceSpecPrefix = None →
  lists (ListServiceSpecs s) ServiceSpecPrefix s.
Proof. intros Hio. by apply scan_lists. Qed.

(** X1.  Putting a service whose key is free adds exactly that service to the
    listing.  When the store fails the scan of the service prefix, the
    listing panics with the error of the store, before the put and after
    it. *)
Theorem put_adds_to_listing (v : Service) (buff : string) (s s' : Storage) :
  content s !! ServiceSpecKey (Service_Name v) = None →
  Marshal v = Some buff →
  Unmarshal buff = Some v →
  PutServiceSpec v s = Returns s' →
  (ioError s ServiceSpecPrefix = None →
   ∃ l l', ListServiceSpecs s = Returns l
           ∧ ListServiceSpecs s' = Returns l'
           ∧ l' ≡ₚ v :: l)
  ∧ (∀ e, ioError s ServiceSpecPrefix = Some e →
          ListServiceSpecs s = ClusterPanic e
          ∧ ListServiceSpecs s' = ClusterPanic e).
Proof.
  intros Hfree Hm Hu Hput.
  unfold PutServiceSpec, Put in Hput. rewrite Hm in Hput.
  destruct (ioError s (ServiceSpecKey (Service_Name v))) eqn:Hio; [done|].
  injection Hput as <-. split.
  - intros Hscan.
    destruct (ListServiceSpecs_lists s Hscan) as (l & Hl & Hpl).
    destruct (ListServiceSpecs_lists
                (withContent (<[ServiceSpecKey (Service_Name v) := buff]>
                                (content s)) s) Hscan) as (l' & Hl' & Hpl').
    exists l, l'. split; [done|]. split; [done|].
    rewrite Hpl', Hpl.
    rewrite (decodedUnder_without ServiceSpecPrefix
               (ServiceSpecKey (Service_Name v)) buff)
      by (simpl; apply lookup_insert_eq).
    unfold ServiceSpecKey at 1, ServiceSpecPrefix at 1.
    rewrite prefix_append, Hu. simpl.
    rewrite withContent_twice, delete_insert_id by done.
    by rewrite withContent_same.
  - intros e He. split; by apply list_store_error.
Qed.

(** X2.  Deleting a service whose record decodes takes exactly that service
    out of the listing.  When the store fails the scan of the service
    prefix, the listing panics with the error of the store, before the
    delete and after it. *)
Theorem delete_removes_from_listing (name text : string) (v : Service)
    (s s' : Storage) :
  content s !! ServiceSpecKey name = Some text →
  Unmarshal text = Some v →
  DeleteServiceSpec name s = Returns s' →
  (ioError s ServiceSpecPrefix = None →
   ∃ l l', ListServiceSpecs s = Returns l
           ∧ ListServiceSpecs s' = Returns l'
           ∧ l ≡ₚ v :: l')
  ∧ (∀ e, ioError s ServiceSpecPrefix = Some e →
          ListServiceSpecs s = ClusterPanic e
          ∧ ListServiceSpecs s' = ClusterPanic e).
Proof.
  intros Hk Hu Hdel.
  unfold DeleteServiceSpec, Delete in Hdel.
  destruct (ioError s (ServiceSpecKey name)) eqn:Hio; [done|].
  injection Hdel as <-. split.
  - intros Hscan.
    destruct (ListServiceSpecs_lists s Hscan) as (l & Hl & Hpl).
    destruct (ListServiceSpecs_lists
                (withContent (delete (ServiceSpecKey name) (content s)) s)
                Hscan) as (l' & Hl' & Hpl').
    exists l, l'. split; [done|]. split; [done|].
    rewrite Hpl, Hpl'.
    rewrite (decodedUnder_without ServiceSpecPrefix (ServiceSpecKey name)
               text) by done.
    unfold ServiceSpecKey at 1, ServiceSpecPrefix at 1.
    by rewrite prefix_append, Hu.
  - intros e He. split; by apply list_store_error.
Qed.

(** X3.  A record that does not decode makes the get of its service panic,
    while the listing is what it would be without that record. *)
Theorem corrupt_record_get_panics_list_skips (name text : string)
    (s : Storage) :
  (∀ key, ioError s key = None) →
  content s !! ServiceSpecKey name = Some text →
  Unmarshal (E := Service) text = None →
  GetServiceSpec name s = PanicBug text
  ∧ ∃ l l', ListServiceSpecs s = Returns l
            ∧ ListServiceSpecs
                (withContent (delete (ServiceSpecKey name) (content s)) s)
              = Returns l'
            ∧ l ≡ₚ l'.
Proof.
  intros Hio Hk Hu. split.
  - unfold GetServiceSpec, GetServiceSpecWithInfo, GetRaw.
    rewrite Hio, Hk; simpl. by rewrite Hu.
  - destruct (ListServiceSpecs_lists s (Hio _)) as (l & Hl & Hpl).
    destruct (ListServiceSpecs_lists
                (withContent (delete (ServiceSpecKey name) (content s)) s)
                (Hio _))
      as (l' & Hl' & Hpl').
    exists l, l'. split; [done|]. split; [done|].
    rewrite Hpl, Hpl'.
    rewrite (decodedUnder_without ServiceSpecPrefix (ServiceSpecKey name) text)
      by done.
    rewrite Hu. simpl. by destruct (String.prefix _ _).
Qed.

(** X4.  The last put of a name wins, and a put or a delete of one name does
    not change what a get of another name returns. *)
Theorem put_overwrites_and_frames (v v' : Service) (buff' name : string)
    (s s1 s2 s3 : Storage) :
  Service_Name v' = Service_Name v →
  Marshal v' = Some buff' →
  Unmarshal buff' = Some v' →
  name ≠ Service_Name v →
  PutServiceSpec v s = Returns s1 →
  PutServiceSpec v' s1 = Returns s2 →
  DeleteServiceSpec (Service_Name v) s2 = Returns s3 →
  GetServiceSpec (Service_Name v) s2 = Returns (Some v')
  ∧ GetServiceSpec name s1 = GetServiceSpec name s
  ∧ GetServiceSpec name s3 = GetServiceSpec name s.
Proof.
  intros Hn Hm' Hu' Hne Hp1 Hp2 Hd.
  assert (ServiceSpecKey (Service_Name v) ≠ ServiceSpecKey name) as Hkey.
  { intros Heq%ServiceSpecKey_inj. by apply Hne. }
  unfold PutServiceSpec, Put in Hp1, Hp2.
  destruct (Marshal v) as [buff|]; [|done].
  rewrite Hm', Hn in Hp2.
  destruct (ioError s _) eqn:Hio; [done|]. injection Hp1 as <-.
  simpl in Hp2. rewrite Hio in Hp2. injection Hp2 as <-.
  unfold DeleteServiceSpec, Delete in Hd. simpl in Hd. rewrite Hio in Hd.
  injection Hd as <-.
  unfold GetServiceSpec, GetServiceSpecWithInfo, GetRaw; simpl.
  split; [|split].
  - rewrite Hio, lookup_insert_eq; simpl. by rewrite Hu'.
  - by rewrite lookup_insert_ne.
  - by rewrite lookup_delete_ne, !lookup_insert_ne.
Qed.

End Services.

Section Entities.
Context {YTenant : Yaml Tenant} {YIngress : Yaml Ingress}
        {YInstanceSpec : Yaml ServiceInstanceSpec}
        {YKind : Yaml CustomResourceKind} {YResource : Yaml CustomResource}
        {YHeaders : Yaml spec.GlobalCanaryHeaders}.

Ltac store_steps Hio :=
  repeat (simpl; first [ rewrite Hio | rewrite lookup_insert_eq
                       | rewrite lookup_delete_eq ]); simpl.

(** X5.  Tenants, ingresses and the global canary headers: on a store that
    answers, a value that survives the codec is put, then read back
    together with its raw record; and, where the repository has a delete,
    deleted, after which the get yields nil. *)
Theorem named_entities_round_trip (t : Tenant) (g : Ingress)
    (h : spec.GlobalCanaryHeaders) (bt bg bh : string) (s : Storage) :
  (∀ key, ioError s key = None) →
  Marshal t = Some bt → Unmarshal bt = Some t →
  Marshal g = Some bg → Unmarshal bg = Some g →
  Marshal h = Some bh → Unmarshal bh = Some h →
  (∃ s1 s2,
      PutTenantSpec t s = Returns s1
      ∧ GetTenantSpecWithInfo (Tenant_Name t) s1
        = Returns (Some t, Some {| Key := TenantSpecKey (Tenant_Name t);
                                   Value := bt |})
      ∧ DeleteTenantSpec (Tenant_Name t) s1 = Returns s2
      ∧ GetTenantSpec (Tenant_Name t) s2 = Returns None)
  ∧ (∃ s1 s2,
      PutIngressSpec g s = Returns s1
      ∧ GetIngressSpecWithInfo (Ingress_Name g) s1
        = Returns (Some g, Some {| Key := IngressSpecKey (Ingress_Name g);
                                   Value := bg |})
      ∧ DeleteIngressSpec (Ingress_Name g) s1 = Returns s2
      ∧ GetIngressSpec (Ingress_Name g) s2 = Returns None)
  ∧ (∃ s1,
      PutGlobalCanaryHeaders h s = Returns s1
      ∧ GetGlobalCanaryHeadersWithInfo s1
        = Returns (Some h, Some {| Key := layout.GlobalCanaryHeaders;
                                   Value := bh |})).
Proof.
  intros Hio Hmt Hut Hmg Hug Hmh Huh. split; [|split].
  - eexists _, _. unfold PutTenantSpec, DeleteTenantSpec, GetTenantSpec,
      GetTenantSpecWithInfo, Put, Delete, GetRaw.
    split; [by rewrite Hmt, Hio|].
    split; [store_steps Hio; by rewrite Hut|].
    split; [by store_steps Hio|].
    by store_steps Hio.
  - eexists _, _. unfold PutIngressSpec, DeleteIngressSpec, GetIngressSpec,
      GetIngressSpecWithInfo, Put, Delete, GetRaw.
    split; [by rewrite Hmg, Hio|].
    split; [store_steps Hio; by rewrite Hug|].
    split; [by store_steps Hio|].
    by store_steps Hio.
  - eexists. unfold PutGlobalCanaryHeaders, GetGlobalCanaryHeadersWithInfo,
      Put, GetRaw.
    split; [by rewrite Hmh, Hio|]. store_steps Hio. by rewrite Huh.
Qed.

(** X6.  Instance specs, custom resource kinds and custom resources, keyed by
    the identifiers read from the value itself: put, get, delete, get. *)
Theorem keyed_entities_round_trip (i : ServiceInstanceSpec)
    (k : CustomResourceKind) (r : CustomResource) (bi bk br : string)
    (s : Storage) :
  (∀ key, ioError s key = None) →
  Marshal i = Some bi → Unmarshal bi = Some i →
  Marshal k = Some bk → Unmarshal bk = Some k →
  Marshal r = Some br → Unmarshal br = Some r →
  (∃ s1 s2,
      PutServiceInstanceSpec i s = Returns s1
      ∧ GetServiceInstanceSpec (InstanceSpec_ServiceName i)
          (InstanceSpec_InstanceID i) s1 = Returns (Some i)
      ∧ DeleteServiceInstanceSpec (InstanceSpec_ServiceName i)
          (InstanceSpec_InstanceID i) s1 = Returns s2
      ∧ GetServiceInstanceSpec (InstanceSpec_ServiceName i)
          (InstanceSpec_InstanceID i) s2 = Returns None)
  ∧ (∃ s1 s2,
      PutCustomResourceKind k s = Returns s1
      ∧ GetCustomResourceKind (CustomResourceKind_Name k) s1
        = Returns (Some k)
      ∧ DeleteCustomResourceKind (CustomResourceKind_Name k) s1 = Returns s2
      ∧ GetCustomResourceKind (CustomResourceKind_Name k) s2 = Returns None)
  ∧ (∃ s1 s2,
      PutCustomResource r s = Returns s1
      ∧ GetCustomResource (CustomResource_Kind r) (CustomResource_Name r) s1
        = Returns (Some r)
      ∧ DeleteCustomResource (CustomResource_Kind r) (CustomResource_Name r)
          s1 = Returns s2
      ∧ GetCustomResource (CustomResource_Kind r) (CustomResource_Name r) s2
        = Returns None).
Proof.
  intros Hio Hmi Hui Hmk Huk Hmr Hur. split; [|split].
  - eexists _, _. unfold PutServiceInstanceSpec, DeleteServiceInstanceSpec,
      GetServiceInstanceSpec, Put, Delete, Get.
    split; [by rewrite Hmi, Hio|].
    split; [store_steps Hio; by rewrite Hui|].
    split; [by store_steps Hio|].
    by store_steps Hio.
  - eexists _, _. unfold PutCustomResourceKind, DeleteCustomResourceKind,
      GetCustomResourceKind, Put, Delete, GetRaw.
    split; [by rewrite Hmk, Hio|].
    split; [store_steps Hio; by rewrite Huk|].
    split; [by store_steps Hio|].
    by store_steps Hio.
  - eexists _, _. unfold PutCustomResource, DeleteCustomResource,
      GetCustomResource, Put, Delete, GetRaw.
    split; [by rewrite Hmr, Hio|].
    split; [store_steps Hio; by rewrite Hur|].
    split; [by store_steps Hio|].
    by store_steps Hio.
Qed.

End Entities.

Section CustomResourceWatch.
Import watch.
Context {R : MapRange} {YResource : Yaml CustomResource} {U : Type}.

Lemma watchLoop_snapshots (onChange : list CustomResource → U → U)
    (syncer : nat) (snapshots : list (gmap string KeyValue))
    (rest : list Selected) (h : cluster.Heap) (u : U) :
  watchLoop onChange syncer ((Received <$> snapshots) ++ rest) h u
  = watchLoop onChange syncer rest h
      (foldl (λ u m, onChange (decodeRecords m) u) u snapshots).
Proof.
  revert u; induction snapshots as [|m snapshots IH]; intros u; simpl; [done|].
  apply IH.
Qed.

(** X7.  On a store that lets the subscription through, the watch hands every
    snapshot received before the cancellation to [onChange], once and in
    order, as the list of its records that decode; at the cancellation it
    closes its syncer and returns nil, and nothing selected afterwards
    has any effect.  Until then it stays in its loop with the syncer
    open. *)
Theorem watch_runs_until_cancelled (kind : string)
    (onChange : list CustomResource → U → U)
    (snapshots : list (gmap string KeyValue)) (later : list Selected)
    (s : Storage) (h : cluster.Heap) (u : U) :
  syncerError s = None →
  syncError s = None →
  let seen := foldl (λ u m, onChange (decodeRecords m) u) u snapshots in
  let syncer := length h in
  (∃ h', WatchCustomResource kind onChange
           ((Received <$> snapshots) ++ CtxDone :: later) s h u
         = (Returned None, h', seen)
         ∧ cluster.isOpen syncer h' = false)
  ∧ (∃ h', WatchCustomResource kind onChange (Received <$> snapshots) s h u
           = (Selecting, h', seen)
           ∧ cluster.isOpen syncer h' = true).
Proof.
  intros He1 He2 seen syncer. unfold WatchCustomResource.
  rewrite He1, He2. split.
  - rewrite watchLoop_snapshots. simpl. eexists. split; [reflexivity|].
    rewrite InformerProofs.isOpen_Close. by rewrite decide_True.
  - rewrite <- (app_nil_r (Received <$> snapshots)), watchLoop_snapshots.
    simpl. eexists. split; [reflexivity|].
    rewrite InformerProofs.isOpen_subscribe. unfold cluster.isOpen.
    by rewrite lookup_app_r, Nat.sub_diag.
Qed.

(** When the subscription is refused, the call returns the error without
    a single [onChange], and the syncer it had obtained stays open. *)
Lemma watch_refused (kind : string) (onChange : list CustomResource → U → U)
    (selected : list Selected) (s : Storage) (h : cluster.Heap) (u : U)
    (e : string) :
  syncerError s = None →
  syncError s = Some e →
  ∃ h', WatchCustomResource kind onChange selected s h u
        = (Returned (Some e), h', u)
        ∧ cluster.isOpen (length h) h' = true.
Proof.
  intros He1 He2. unfold WatchCustomResource. rewrite He1, He2.
  eexists. split; [reflexivity|]. unfold cluster.isOpen.
  by rewrite lookup_app_r, Nat.sub_diag.
Qed.

End CustomResourceWatch.

Section ExtraSamples.
Import sample watch.
#[local] Existing Instance canonicalRange.
#[local] Existing Instance servicesTable.
#[local] Existing Instance tenantCodec.
#[local] Existing Instance ingressCodec.
#[local] Existing Instance instanceSpecCodec.
#[local] Existing Instance headersCodec.
#[local] Existing Instance kindTable.
#[local] Existing Instance resourceTable.

Ltac evaluate :=
  vm_compute; first [reflexivity | intros H; discriminate H].

Lemma put_adds_to_listing_witness :
  ioError (storeOf ∅) ServiceSpecPrefix = None
  ∧ content (storeOf ∅) !! ServiceSpecKey (Service_Name orders) = None
  ∧ PutServiceSpec orders (storeOf ∅)
    = Returns (storeOf {[ ServiceSpecKey "orders" := ordersYaml ]})
  ∧ ∃ l l',
      ListServiceSpecs (storeOf ∅) = Returns l
      ∧ ListServiceSpecs (storeOf {[ ServiceSpecKey "orders" := ordersYaml ]})
        = Returns l'
      ∧ l' ≡ₚ orders :: l.
Proof.
  assert (ioError (storeOf ∅) ServiceSpecPrefix = None) as H0 by evaluate.
  assert (content (storeOf ∅) !! ServiceSpecKey (Service_Name orders) = None)
    as H1 by evaluate.
  assert (Marshal orders = Some ordersYaml) as H2 by evaluate.
  assert (Unmarshal ordersYaml = Some orders) as H3 by evaluate.
  assert (PutServiceSpec orders (storeOf ∅)
          = Returns (storeOf {[ ServiceSpecKey "orders" := ordersYaml ]}))
    as H4 by evaluate.
  split; [exact H0|]. split; [exact H1|]. split; [exact H4|].
  exact (proj1 (put_adds_to_listing orders ordersYaml _ _ H1 H2 H3 H4) H0).
Defined.

Lemma delete_removes_from_listing_witness :
  ioError (storeOf {[ ServiceSpecKey "orders" := ordersYaml ]})
    ServiceSpecPrefix = None
  ∧ content (storeOf {[ ServiceSpecKey "orders" := ordersYaml ]})
      !! ServiceSpecKey "orders" = Some ordersYaml
  ∧ DeleteServiceSpec "orders"
      (storeOf {[ ServiceSpecKey "orders" := ordersYaml ]})
    = Returns (storeOf ∅)
  ∧ ∃ l l',
      ListServiceSpecs (storeOf {[ ServiceSpecKey "orders" := ordersYaml ]})
      = Returns l
      ∧ ListServiceSpecs (storeOf ∅) = Returns l'
      ∧ l ≡ₚ orders :: l'.
Proof.
  assert (ioError (storeOf {[ ServiceSpecKey "orders" := ordersYaml ]})
            ServiceSpecPrefix = None) as H0 by evaluate.
  assert (content (storeOf {[ ServiceSpecKey "orders" := ordersYaml ]})
            !! ServiceSpecKey "orders" = Some ordersYaml) as H1 by evaluate.
  assert (Unmarshal ordersYaml = Some orders) as H2 by evaluate.
  assert (DeleteServiceSpec "orders"
            (storeOf {[ ServiceSpecKey "orders" := ordersYaml ]})
          = Returns (storeOf ∅)) as H3 by evaluate.
  split; [exact H0|]. split; [exact H1|]. split; [exact H3|].
  exact (proj1 (delete_removes_from_listing "orders" ordersYaml orders _ _
                  H1 H2 H3) H0).
Defined.

Lemma corrupt_record_get_panics_list_skips_witness :
  (∀ key, ioError mixedServices key = None)
  ∧ content mixedServices !! ServiceSpecKey "broken" = Some garbage
  ∧ Unmarshal (E := Service) garbage = None
  ∧ GetServiceSpec "broken" mixedServices = PanicBug garbage.
Proof.
  assert (∀ key, ioError mixedServices key = None) as H1 by evaluate.
  assert (content mixedServices !! ServiceSpecKey "broken" = Some garbage)
    as H2 by evaluate.
  assert (Unmarshal (E := Service) garbage = None) as H3 by evaluate.
  split; [exact H1|]. split; [exact H2|]. split; [exact H3|].
  exact (proj1 (corrupt_record_get_panics_list_skips "broken" garbage
                  mixedServices H1 H2 H3)).
Defined.

Lemma put_overwrites_and_frames_witness :
  Service_Name ordersMoved = Service_Name orders
  ∧ "auth" ≠ Service_Name orders
  ∧ GetServiceSpec (Service_Name orders)
      (storeOf {[ ServiceSpecKey "orders" := ordersMovedYaml ]})
    = Returns (Some ordersMoved).
Proof.
  assert (Service_Name ordersMoved = Service_Name orders) as H1 by evaluate.
  assert (Marshal ordersMoved = Some ordersMovedYaml) as H2 by evaluate.
  assert (Unmarshal ordersMovedYaml = Some ordersMoved) as H3 by evaluate.
  assert ("auth" ≠ Service_Name orders) as H4 by evaluate.
  assert (PutServiceSpec orders (storeOf ∅)
          = Returns (storeOf {[ ServiceSpecKey "orders" := ordersYaml ]}))
    as H5 by evaluate.
  assert (PutServiceSpec ordersMoved
            (storeOf {[ ServiceSpecKey "orders" := ordersYaml ]})
          = Returns (storeOf {[ ServiceSpecKey "orders" := ordersMovedYaml ]}))
    as H6 by evaluate.
  assert (DeleteServiceSpec (Service_Name orders)
            (storeOf {[ ServiceSpecKey "orders" := ordersMovedYaml ]})
          = Returns (storeOf ∅)) as H7 by evaluate.
  split; [exact H1|]. split; [exact H4|].
  exact (proj1 (put_overwrites_and_frames orders ordersMoved ordersMovedYaml
                  "auth" _ _ _ _ H1 H2 H3 H4 H5 H6 H7)).
Defined.

Lemma named_entities_round_trip_witness :
  (∀ key, ioError (storeOf ∅) key = None)
  ∧ Marshal retailTenant = Some retailTenantYaml
  ∧ Unmarshal retailTenantYaml = Some retailTenant
  ∧ ∃ s1,
      PutGlobalCanaryHeaders canaryHeaders (storeOf ∅) = Returns s1
      ∧ GetGlobalCanaryHeadersWithInfo s1
        = Returns (Some canaryHeaders,
                   Some {| Key := layout.GlobalCanaryHeaders;
                           Value := canaryHeadersYaml |}).
Proof.
  assert (∀ key, ioError (storeOf ∅) key = None) as H0 by evaluate.
  assert (Marshal retailTenant = Some retailTenantYaml) as H1 by evaluate.
  assert (Unmarshal retailTenantYaml = Some retailTenant) as H2 by evaluate.
  assert (Marshal gateway = Some gatewayYaml) as H3 by evaluate.
  assert (Unmarshal gatewayYaml = Some gateway) as H4 by evaluate.
  assert (Marshal canaryHeaders = Some canaryHeadersYaml) as H5 by evaluate.
  assert (Unmarshal canaryHeadersYaml = Some canaryHeaders) as H6
    by evaluate.
  split; [exact H0|]. split; [exact H1|]. split; [exact H2|].
  exact (proj2 (proj2 (named_entities_round_trip retailTenant gateway
                         canaryHeaders _ _ _ (storeOf ∅)
                         H0 H1 H2 H3 H4 H5 H6))).
Defined.

Lemma keyed_entities_round_trip_witness :
  (∀ key, ioError (storeOf ∅) key = None)
  ∧ Marshal ordersInstance = Some ordersInstanceYaml
  ∧ Unmarshal ordersInstanceYaml = Some ordersInstance
  ∧ ∃ s1 s2,
      PutServiceInstanceSpec ordersInstance (storeOf ∅) = Returns s1
      ∧ GetServiceInstanceSpec (InstanceSpec_ServiceName ordersInstance)
          (InstanceSpec_InstanceID ordersInstance) s1
        = Returns (Some ordersInstance)
      ∧ DeleteServiceInstanceSpec (InstanceSpec_ServiceName ordersInstance)
          (InstanceSpec_InstanceID ordersInstance) s1 = Returns s2
      ∧ GetServiceInstanceSpec (InstanceSpec_ServiceName ordersInstance)
          (InstanceSpec_InstanceID ordersInstance) s2 = Returns None.
Proof.
  assert (∀ key, ioError (storeOf ∅) key = None) as H0 by evaluate.
  assert (Marshal ordersInstance = Some ordersInstanceYaml) as H1
    by evaluate.
  assert (Unmarshal ordersInstanceYaml = Some ordersInstance) as H2
    by evaluate.
  assert (Marshal routeKind = Some routeKindYaml) as H3 by evaluate.
  assert (Unmarshal routeKindYaml = Some routeKind) as H4 by evaluate.
  assert (Marshal mainRoute = Some mainRouteYaml) as H5 by evaluate.
  assert (Unmarshal mainRouteYaml = Some mainRoute) as H6 by evaluate.
  split; [exact H0|]. split; [exact H1|]. split; [exact H2|].
  exact (proj1 (keyed_entities_round_trip ordersInstance routeKind mainRoute
                  _ _ _ (storeOf ∅) H0 H1 H2 H3 H4 H5 H6)).
Defined.

Lemma watch_runs_until_cancelled_witness :
  syncerError (storeOf ∅) = None
  ∧ syncError (storeOf ∅) = None
  ∧ ∃ h', WatchCustomResource "Route" countResources
            ((Received <$> [routesSnapshot; ∅])
               ++ CtxDone :: [Received routesSnapshot])
            (storeOf ∅) [] []
          = (Returned None, h',
             foldl (λ u m, countResources (decodeRecords m) u) []
                   [routesSnapshot; ∅])
          ∧ cluster.isOpen (length ([] : cluster.Heap)) h' = false.
Proof.
  assert (syncerError (storeOf ∅) = None) as H1 by evaluate.
  assert (syncError (storeOf ∅) = None) as H2 by evaluate.
  split; [exact H1|]. split; [exact H2|].
  exact (proj1 (watch_runs_until_cancelled "Route" countResources
                  [routesSnapshot; ∅] [Received routesSnapshot]
                  (storeOf ∅) [] [] H1 H2)).
Defined.

(** The watch of the routes: two snapshots counted (one record of the
    first decodes, the second is empty), then the cancellation; the
    snapshot selected after it is not counted. *)
Example scenario_watch_cancelled :
  WatchCustomResource "Route" countResources
    [Received routesSnapshot; Received ∅; CtxDone; Received routesSnapshot]
    (storeOf ∅) [] []
  = (Returned None,
     [{| cluster.subscription := cluster.Prefix (CustomResourcePrefix "Route");
         cluster.syncerClosed := true |}],
     [1; 0]).
Proof. vm_compute. reflexivity. Qed.

End ExtraSamples.

End RepositoryExtras.

(** * Further properties of the informer *)

Module InformerExtras.
Import layout spec storage informer invariants InformerProofs.

Section Watches.
Context {R : MapRange}.
Context {YService : Yaml Service} {YTenant : Yaml Tenant}
        {YIngress : Yaml Ingress}
        {YInstanceSpec : Yaml ServiceInstanceSpec}
        {YInstanceStatus : Yaml ServiceInstanceStatus}.
Context {U : Type}.

Abbreviation World := (@World U).
Abbreviation Watch := (@Watch U).
Abbreviation Op := (@Op U).
Abbreviation PartFunc := (@PartFunc U).
Abbreviation PrefixFunc := (@PrefixFunc U).

(** *** The loop of a prefix watch *)

(** X8.  A prefix watch is registered through any of the [On...Specs] and
    [On...Statuses] methods, and its channel is open, whatever happened
    to the informer in between.  Every snapshot makes the callback run
    once: on decoded records of that snapshot, each under its key, for a
    watch on services, instance specs or instance statuses, and on every
    record that decodes for a watch on tenants or ingresses.  An answer
    of true leaves the informer and the syncers alone.  When the callback
    answers false the syncer of the watch is closed and its registration
    removed, after which no snapshot delivered to the task changes
    anything. *)
Theorem prefix_watch_loop (r : Watch) (ops : list Op) (w w1 : World) :
  consistent w →
  register r w = (None, w1) →
  let p := length (heap w) in
  let key := syncerKeyOf r in
  let w2 := run ops w1 in
  cluster.isOpen p (heap w2) = true →
  match r with
  | AllServiceSpecs fn =>
      prefixLoop p key fn (λ kvs m, m ⊆ omap Unmarshal kvs) w2
  | ServiceInstanceSpecs _ fn | AllServiceInstanceSpecs fn =>
      prefixLoop p key fn (λ kvs m, m ⊆ omap Unmarshal kvs) w2
  | ServiceInstanceStatuses _ fn | AllServiceInstanceStatuses fn =>
      prefixLoop p key fn (λ kvs m, m ⊆ omap Unmarshal kvs) w2
  | AllTenantSpecs fn =>
      prefixLoop p key fn (λ kvs m, m = omap Unmarshal kvs) w2
  | AllIngressSpecs fn =>
      prefixLoop p key fn (λ kvs m, m = omap Unmarshal kvs) w2
  | _ => True
  end.
Proof.
  intros Hw Hr p key w2 Ho.
  pose proof (registered_task r ops w w1 Hr) as Ht.
  pose proof (consistent_registered r ops w w1 Hw Hr) as Hw2.
  assert (∀ answer : bool * U, answer.1 = true →
            inf (afterCallback key answer w2) = inf w2
            ∧ heap (afterCallback key answer w2) = heap w2) as Hkeep.
  { intros [b u] Hb; simpl in Hb; subst b. done. }
  destruct r; try exact I;
    (split; [|split; [exact Hkeep | exact (stops_on_false p _ w2 Hw2 Ht Ho)]]);
    intros kvs;
    pose proof (prefix_watch_hands _ ops kvs w w1 Hr Ho) as Hh;
    (eexists; split; [exact Hh|]); cbv beta;
    first [ apply (proj1 (filtered_subseteq _ _))
          | apply (proj1 (proj2 (filtered_subseteq _ _)))
          | apply (proj2 (proj2 (filtered_subseteq _ _)))
          | apply decodeAll_all ].
Qed.

(** *** Consumers that are not tenant-scoped *)

(** X17.  A prefix watch on services, instance specs or instance statuses
    is registered through the interface, and a snapshot arrives on its
    channel while it is open.  When, at that moment, the informer has no
    own service, or its own service is a global service, nothing is
    filtered: the callback runs on the map of every record that decodes,
    whatever the service-to-tenant map says. *)
Theorem no_filter_without_scope (r : Watch) (ops : list Op)
    (kvs : gmap string string) (w w1 : World) :
  register r w = (None, w1) →
  let p := length (heap w) in
  let w2 := run ops w1 in
  cluster.isOpen p (heap w2) = true →
  service (inf w2) = ""
  ∨ boolAt (globalServices (inf w2)) (service (inf w2)) = true →
  match r with
  | AllServiceSpecs fn =>
      hands p (syncerKeyOf r) fn kvs (omap Unmarshal kvs) w2
  | ServiceInstanceSpecs _ fn | AllServiceInstanceSpecs fn =>
      hands p (syncerKeyOf r) fn kvs (omap Unmarshal kvs) w2
  | ServiceInstanceStatuses _ fn | AllServiceInstanceStatuses fn =>
      hands p (syncerKeyOf r) fn kvs (omap Unmarshal kvs) w2
  | _ => True
  end.
Proof.
  intros Hr p w2 Ho Hs.
  apply (unscoped_watch_hands r ops kvs w w1 Hr Ho).
  by apply scopeTenant_unscoped.
Qed.

(** *** Stopping frees the key *)

Lemma stop_then_ready (r : Watch) (w : World) :
  closed (inf w) = false →
  syncerError (store (inf w)) = None →
  syncError (store (inf w)) = None →
  ready (stopSyncOneKey (syncerKeyOf r) w) r.
Proof.
  intros Hc He1 He2. unfold ready. rewrite stop_keeps_closed, stop_removes.
  unfold stopSyncOneKey.
  by destruct (syncers (inf w) !! syncerKeyOf r).
Qed.

Lemma stop_heap_length (key : string) (w : World) :
  length (heap (stopSyncOneKey key w)) = length (heap w).
Proof.
  unfold stopSyncOneKey. destruct (syncers (inf w) !! key); [|done].
  simpl. apply length_Close.
Qed.

(** X9.  After [StopWatchServiceSpec] and [StopWatchServiceInstanceSpec], on
    an informer that is not closed and a store that lets subscriptions
    through, the same watch can be registered again: it gets a fresh
    syncer, and the syncer that was registered before is closed. *)
Theorem stop_then_register_again (w : World) :
  closed (inf w) = false →
  syncerError (store (inf w)) = None →
  syncError (store (inf w)) = None →
  (∀ n path (fn : PartFunc Service),
      ∃ w1, OnPartOfServiceSpec n path fn (StopWatchServiceSpec n path w)
            = (None, w1)
            ∧ syncers (inf w1) !! serviceSpecSyncerKey n path
              = Some (length (heap w))
            ∧ cluster.isOpen (length (heap w)) (heap w1) = true
            ∧ ∀ p, syncers (inf w) !! serviceSpecSyncerKey n path = Some p →
                   p < length (heap w) →
                   cluster.isOpen p (heap w1) = false)
  ∧ (∀ n (fn : PrefixFunc ServiceInstanceSpec),
      ∃ w1, OnServiceInstanceSpecs n fn (StopWatchServiceInstanceSpec n w)
            = (None, w1)
            ∧ syncers (inf w1) !! serviceInstanceSpecSyncerKey n
              = Some (length (heap w))
            ∧ cluster.isOpen (length (heap w)) (heap w1) = true
            ∧ ∀ p, syncers (inf w) !! serviceInstanceSpecSyncerKey n = Some p →
                   p < length (heap w) →
                   cluster.isOpen p (heap w1) = false).
Proof.
  intros Hc He1 He2.
  assert (∀ r : Watch,
             ∃ w1, register r (stopSyncOneKey (syncerKeyOf r) w) = (None, w1)
                   ∧ syncers (inf w1) !! syncerKeyOf r = Some (length (heap w))
                   ∧ cluster.isOpen (length (heap w)) (heap w1) = true
                   ∧ ∀ p, syncers (inf w) !! syncerKeyOf r = Some p →
                          p < length (heap w) →
                          cluster.isOpen p (heap w1) = false) as Hall.
  { intros r.
    destruct (register_ready r _ (stop_then_ready r w Hc He1 He2))
      as (w1 & Hr & _ & _ & Hs & Hl & Ho).
    rewrite stop_heap_length in Hs, Ho.
    exists w1. split; [done|]. split; [by rewrite Hs, lookup_insert_eq|].
    split; [done|]. intros p Hp Hlt.
    assert (stillClosed p (stopSyncOneKey (syncerKeyOf r) w)) as Hsc.
    { unfold stopSyncOneKey. rewrite Hp. split; simpl.
      - by rewrite length_Close.
      - rewrite isOpen_Close. by rewrite decide_True. }
    apply (stillClosed_register p r) in Hsc. rewrite Hr in Hsc.
    apply Hsc. }
  split.
  - intros n path fn. apply (Hall (PartOfServiceSpec n path fn)).
  - intros n fn. apply (Hall (ServiceInstanceSpecs n fn)).
Qed.

(** *** The registry and the heap agree *)

Lemma registered_key_unique (w : World) k1 k2 p :
  registered w →
  syncers (inf w) !! k1 = Some p → syncers (inf w) !! k2 = Some p → k1 = k2.
Proof.
  intros Hr H1 H2.
  destruct (Hr k1 p H1) as (_ & (t1 & Ht1 & <-) & _).
  destruct (Hr k2 p H2) as (_ & (t2 & Ht2 & <-) & _).
  congruence.
Qed.

Lemma registered_indices (i : meshInformer) (u : U) (w : World) :
  syncers i = syncers (inf w) → closed i = closed (inf w) →
  registered w → registered (setUser u (setInf i w)).
Proof.
  intros Hs Hc Hr k p; simpl. rewrite Hs, Hc. apply Hr.
Qed.

Lemma registered_stop (key : string) (w : World) :
  registered w → registered (stopSyncOneKey key w).
Proof.
  intros Hr. unfold stopSyncOneKey.
  destruct (syncers (inf w) !! key) as [q|] eqn:Hk; [|done].
  intros k p; simpl. intros [Hne Hp]%lookup_delete_Some.
  destruct (Hr k p Hp) as (Hlt & Ht & Ho).
  rewrite length_Close, isOpen_Close. split; [done|]. split; [done|].
  destruct (decide (p = q)) as [->|?]; [|done].
  exfalso. apply Hne. by apply (registered_key_unique w key k q).
Qed.

Lemma registered_grow (x : cluster.Syncer) (w : World) :
  registered w → registered (setHeap (heap w ++ [x]) w).
Proof.
  intros Hr k p Hp; simpl in *. destruct (Hr k p Hp) as (Hlt & Ht & Ho).
  rewrite length_app, isOpen_grow by done. simpl.
  split; [lia|]. done.
Qed.

Lemma registered_install (sub : cluster.Subscription) (key : string)
    (t : Task) (w : World) :
  taskKey t = key →
  registered w →
  registered
    (setTasks (<[length (heap w) := t]> (tasks w))
       (setInf (setSyncers (<[key := length (heap w)]> (syncers (inf w)))
                           (inf w))
          (setHeap (cluster.subscribe sub (length (heap w))
                      (heap (setHeap (heap w ++ [cluster.fresh]) w)))
             (setHeap (heap w ++ [cluster.fresh]) w)))).
Proof.
  intros Hkey Hr k p; simpl.
  rewrite length_subscribe, length_app, isOpen_subscribe; simpl.
  destruct (decide (k = key)) as [->|Hne].
  - rewrite lookup_insert_eq. intros [= <-]. split; [lia|]. split.
    + exists t. by rewrite lookup_insert_eq.
    + intros _. unfold cluster.isOpen. by rewrite lookup_app_r, Nat.sub_diag.
  - rewrite lookup_insert_ne by done. intros Hp.
    destruct (Hr k p Hp) as (Hlt & Ht & Ho).
    rewrite isOpen_grow by done. split; [lia|]. split; [|done].
    rewrite lookup_insert_ne by lia. done.
Qed.

Lemma registered_onSpecPart storeKey syncerKey path fn (w : World) :
  registered w → registered (onSpecPart storeKey syncerKey path fn w).2.
Proof.
  intros Hw. unfold onSpecPart.
  destruct (closed (inf w)); [done|].
  destruct (decide (is_Some (syncers (inf w) !! syncerKey))); [done|].
  destruct (syncerError (store (inf w))); [done|].
  destruct (syncError (store (inf w))).
  - by apply registered_grow.
  - by apply registered_install.
Qed.

Lemma registered_onSpecs storePrefix syncerKey fn (w : World) :
  registered w → registered (onSpecs storePrefix syncerKey fn w).2.
Proof.
  intros Hw. unfold onSpecs.
  destruct (closed (inf w)); [done|].
  destruct (decide (is_Some (syncers (inf w) !! syncerKey))); [done|].
  destruct (syncerError (store (inf w))); [done|].
  destruct (syncError (store (inf w))).
  - by apply registered_grow.
  - by apply registered_install.
Qed.

Lemma registered_register (r : Watch) (w : World) :
  registered w → registered (register r w).2.
Proof.
  intros Hw.
  destruct (register_shape r) as [(k & p & fn & Hr) | (k & fn & Hfn & Hr)];
    rewrite Hr; [by apply registered_onSpecPart | by apply registered_onSpecs].
Qed.

Lemma registered_Close (w : World) : registered w → registered (Close w).
Proof.
  intros Hr k p Hp; simpl in *. destruct (Hr k p Hp) as (Hlt & Ht & _).
  rewrite length_closeAll. done.
Qed.

Lemma registered_receive (p : nat) (kv : option KeyValue) (w : World) :
  registered w → registered (receive p kv w).
Proof.
  intros Hw. unfold receive.
  destruct (tasks w !! p) as [[key fn|key fn]|]; [|done..].
  destruct (cluster.isOpen p (heap w)); [|done].
  unfold sync. destruct (rawEvent kv) as [event value].
  destruct (fn event value (user w)) as [continue u].
  assert (registered (setUser u w)) as Hu by done.
  destruct continue; [done|]. by apply registered_stop.
Qed.

Lemma registered_receivePrefix (p : nat) (kvs : gmap string string)
    (w : World) :
  consistent w → registered w → registered (receivePrefix p kvs w).
Proof.
  intros Hc Hw. unfold receivePrefix.
  destruct (tasks w !! p) as [[key fn|key fn]|] eqn:Ht; [done| |done].
  destruct (cluster.isOpen p (heap w)); [|done].
  unfold syncPrefix.
  pose proof (handlers_indicesOnly w Hc p key fn Ht kvs (inf w) (user w))
    as Hfn.
  destruct (fn kvs (inf w) (user w)) as [[continue i] u]; simpl in Hfn.
  destruct Hfn as (_ & Hs & _ & Hcl).
  assert (registered (setUser u (setInf i w))) as Hu
    by by apply registered_indices.
  destruct continue; [done|]. by apply registered_stop.
Qed.

Lemma registered_exec (o : Op) (w : World) :
  consistent w → registered w → registered (exec o w).
Proof.
  intros Hc Hw. destruct o; simpl.
  - by apply registered_register.
  - by apply registered_stop.
  - by apply registered_stop.
  - by apply registered_Close.
  - by apply registered_receive.
  - by apply registered_receivePrefix.
  - done.
Qed.

Lemma registered_NewInformer (st : Storage) (name : string) (u : U) :
  registered (NewInformer st name u).
Proof.
  unfold NewInformer.
  set (w0 := {| inf := _; heap := []; tasks := ∅; user := u |}).
  assert (registered w0) as H0.
  { intros k p Hp. simpl in Hp. by rewrite lookup_empty in Hp. }
  destruct (decide (String.length name = 0)); [done|].
  destruct (GetPrefix ServiceSpecPrefix st) as [services|]; [|done].
  set (w1 := (onSpecs _ _ _ _).2).
  assert (registered w1) as H1 by by apply registered_onSpecs.
  destruct (GetPrefix (TenantSpecKey GlobalTenant) st) as [tenants|]; [|done].
  apply registered_onSpecs.
  pose proof (updateGlobalServices_indices tenants (inf w1))
    as (Hs & _ & _ & Hcl).
  intros k p; simpl. rewrite Hs, Hcl. apply H1.
Qed.

Lemma reachable_sound (w : World) :
  reachable w → consistent w ∧ registered w.
Proof.
  induction 1 as [st name u | o w _ [IHc IHr]].
  - split; [apply consistent_NewInformer | apply registered_NewInformer].
  - split; [by apply consistent_exec | by apply registered_exec].
Qed.

(** X10.  In every state an informer goes through: a registered syncer exists
    and has the task that carries its key; two keys never share a syncer;
    and, while the informer is not closed, a task's channel is open
    exactly when the task's syncer is the one registered under the task's
    key, so that every running watch can be stopped by its key and every
    registration has a running watch. *)
Theorem registry_matches_running_watches (w : World) :
  reachable w →
  registered w
  ∧ (∀ k1 k2 p,
        syncers (inf w) !! k1 = Some p → syncers (inf w) !! k2 = Some p →
        k1 = k2)
  ∧ (closed (inf w) = false →
     ∀ p t, tasks w !! p = Some t →
            (cluster.isOpen p (heap w) = true
             ↔ syncers (inf w) !! taskKey t = Some p)).
Proof.
  intros [Hc Hr]%reachable_sound. split; [done|]. split.
  - intros k1 k2 p. by apply registered_key_unique.
  - intros Hopen p t Ht. split.
    + by apply (open_registered w Hc).
    + intros Hk. by destruct (Hr _ _ Hk) as (_ & _ & Ho); apply Ho.
Qed.

(** *** After Close *)

Lemma stop_keeps_indices (key : string) (w : World) :
  user (stopSyncOneKey key w) = user w
  ∧ tasks (stopSyncOneKey key w) = tasks w
  ∧ globalServices (inf (stopSyncOneKey key w)) = globalServices (inf w)
  ∧ service2Tenants (inf (stopSyncOneKey key w)) = service2Tenants (inf w).
Proof.
  unfold stopSyncOneKey. by destruct (syncers (inf w) !! key).
Qed.

Lemma stop_never_opens (key : string) p (w : World) :
  cluster.isOpen p (heap w) = false →
  cluster.isOpen p (heap (stopSyncOneKey key w)) = false.
Proof.
  intros Hc. unfold stopSyncOneKey.
  destruct (syncers (inf w) !! key) as [q|]; [|done]. simpl.
  rewrite isOpen_Close. by destruct (decide (p = q)).
Qed.

Lemma quiet_Close (w : World) : consistent w → quiet (Close w).
Proof.
  intros Hw. split; [done|]. intros p t Ht. simpl in Ht.
  destruct (cluster.isOpen p (heap (Close w))) eqn:Ho; [|done].
  simpl in Ho. apply isOpen_closeAll in Ho as [Ho Hnot].
  pose proof (open_registered w Hw p t Ht Ho) as Hreg.
  exfalso. apply Hnot. apply list_elem_of_fmap. exists (taskKey t, p).
  split; [done|]. rewrite rangeOf_perm. by apply elem_of_map_to_list.
Qed.

Lemma quiet_stop (key : string) (w : World) :
  quiet w → quiet (stopSyncOneKey key w).
Proof.
  intros [Hc Hq]. split; [by rewrite stop_keeps_closed|].
  intros p t Ht.
  destruct (stop_keeps_indices key w) as (_ & Htasks & _).
  rewrite Htasks in Ht. by eapply stop_never_opens, Hq.
Qed.

Lemma quiet_exec (o : Op) (w : World) :
  quiet w →
  quiet (exec o w)
  ∧ user (exec o w) = user w
  ∧ globalServices (inf (exec o w)) = globalServices (inf w)
  ∧ service2Tenants (inf (exec o w)) = service2Tenants (inf w).
Proof.
  intros Hq. pose proof Hq as [Hc Hcl]. destruct o; simpl.
  - by rewrite register_closed.
  - split; [by apply quiet_stop|].
    by destruct (stop_keeps_indices (serviceSpecSyncerKey serviceName
                                       gjsonPath) w) as (? & _ & ? & ?).
  - split; [by apply quiet_stop|].
    by destruct (stop_keeps_indices (serviceInstanceSpecSyncerKey serviceName)
                   w) as (? & _ & ? & ?).
  - split; [|done]. split; [done|]. intros p t Ht; simpl in *.
    apply closed_stays_closed_closeAll. by eapply Hcl.
  - destruct (tasks w !! syncer) as [t|] eqn:Ht.
    + rewrite receive_closed; [done | by eapply Hcl].
    + unfold receive. by rewrite Ht.
  - destruct (tasks w !! syncer) as [t|] eqn:Ht.
    + rewrite receivePrefix_closed; [done | by eapply Hcl].
    + unfold receivePrefix. by rewrite Ht.
  - done.
Qed.

Lemma quiet_run (ops : list Op) (w : World) :
  quiet w →
  quiet (run ops w)
  ∧ user (run ops w) = user w
  ∧ globalServices (inf (run ops w)) = globalServices (inf w)
  ∧ service2Tenants (inf (run ops w)) = service2Tenants (inf w).
Proof.
  revert w; induction ops as [|o ops IH]; intros w Hq; simpl; [done|].
  destruct (quiet_exec o w Hq) as (Hq' & Hu & Hg & Hs).
  destruct (IH _ Hq') as (? & -> & -> & ->). done.
Qed.

(** X11.  [Close] keeps the registrations and silences the informer for good:
    whatever is called or delivered afterwards, no callback runs (the
    caller's state stays what it was), the indices stay what they were,
    and the informer stays closed. *)
Theorem close_silences_the_informer (ops : list Op) (w : World) :
  consistent w →
  syncers (inf (Close w)) = syncers (inf w)
  ∧ user (run ops (Close w)) = user w
  ∧ globalServices (inf (run ops (Close w))) = globalServices (inf w)
  ∧ service2Tenants (inf (run ops (Close w))) = service2Tenants (inf w)
  ∧ closed (inf (run ops (Close w))) = true.
Proof.
  intros Hw. split; [done|].
  destruct (quiet_run ops (Close w) (quiet_Close w Hw))
    as ([Hc _] & Hu & Hg & Hs).
  by rewrite Hu, Hg, Hs.
Qed.

(** *** Stopping one watch and delivering to another *)

Lemma stop_setUser (key : string) (u : U) (w : World) :
  stopSyncOneKey key (setUser u w) = setUser u (stopSyncOneKey key w).
Proof.
  unfold stopSyncOneKey; simpl. by destruct (syncers (inf w) !! key).
Qed.

Lemma Close_Close_commute p q (h : cluster.Heap) :
  cluster.Close p (cluster.Close q h) = cluster.Close q (cluster.Close p h).
Proof.
  destruct (decide (p = q)) as [->|Hne]; [done|].
  unfold cluster.Close. by apply list_alter_alter_ne.
Qed.

Lemma stop_stop_commute (k1 k2 : string) (w : World) :
  k1 ≠ k2 →
  stopSyncOneKey k1 (stopSyncOneKey k2 w)
  = stopSyncOneKey k2 (stopSyncOneKey k1 w).
Proof.
  intros Hne. unfold stopSyncOneKey.
  destruct (syncers (inf w) !! k1) as [p1|] eqn:H1;
    destruct (syncers (inf w) !! k2) as [p2|] eqn:H2; simpl;
    rewrite ?lookup_delete_ne, ?H1, ?H2 by done; simpl; try done.
  unfold setInf, setHeap, setSyncers; simpl.
  by rewrite Close_Close_commute, delete_delete.
Qed.

Lemma stop_keeps_other (key k' : string) p' (w : World) :
  registered w → k' ≠ key →
  syncers (inf w) !! k' = Some p' →
  syncers (inf (stopSyncOneKey key w)) !! k' = Some p'
  ∧ cluster.isOpen p' (heap (stopSyncOneKey key w))
    = cluster.isOpen p' (heap w).
Proof.
  intros Hr Hne Hk'. unfold stopSyncOneKey.
  destruct (syncers (inf w) !! key) as [q|] eqn:Hk; [|done]. simpl.
  rewrite lookup_delete_ne by done. split; [done|].
  rewrite isOpen_Close. destruct (decide (p' = q)) as [->|?]; [|done].
  exfalso. apply Hne. by apply (registered_key_unique w k' key q).
Qed.

(** X12.  Stopping one watch does not disturb another: for the task of a
    single-key watch under a different key, taking an element after the
    stop, or before it, leads to the same state (same callback run, same
    registrations, same syncers). *)
Theorem stop_commutes_with_other_watch (key k' : string) (p' : nat)
    (fn : specHandleFunc) (kv : option KeyValue) (w : World) :
  consistent w → registered w →
  k' ≠ key →
  tasks w !! p' = Some (RawTask k' fn) →
  receive p' kv (stopSyncOneKey key w)
  = stopSyncOneKey key (receive p' kv w).
Proof.
  intros Hc Hr Hne Ht.
  destruct (cluster.isOpen p' (heap w)) eqn:Ho.
  - pose proof (open_registered w Hc p' _ Ht Ho) as Hk'; simpl in Hk'.
    destruct (stop_keeps_other key k' p' w Hr Hne Hk') as [_ Ho'].
    rewrite Ho in Ho'.
    destruct (stop_keeps_indices key w) as (Hu & Htasks & _).
    unfold receive. rewrite Htasks, Ht, Ho, Ho'. unfold sync.
    destruct (rawEvent kv) as [event value]. rewrite Hu.
    destruct (fn event value (user w)) as [[] u].
    + by rewrite stop_setUser.
    + rewrite <- stop_setUser. by apply stop_stop_commute.
  - rewrite (receive_closed p' kv w Ho).
    apply receive_closed. by apply stop_never_opens.
Qed.

(** *** A subscription that fails *)

Lemma isOpen_closeAll_other p (l : list (string * nat)) (h : cluster.Heap) :
  p ∉ l.*2 →
  cluster.isOpen p (foldl (λ h kv, cluster.Close kv.2 h) h l)
  = cluster.isOpen p h.
Proof.
  revert h; induction l as [|[k q] l IH]; intros h Hnot; simpl; [done|].
  simpl in Hnot. apply not_elem_of_cons in Hnot as [Hne Hnot].
  rewrite IH by done. rewrite isOpen_Close. by rewrite decide_False.
Qed.

Lemma leaked_stop p key (w : World) :
  leaked p w → leaked p (stopSyncOneKey key w).
Proof.
  intros (Hlt & Ho & Hk & Ht). unfold stopSyncOneKey.
  destruct (syncers (inf w) !! key) as [q|] eqn:Hq; [|done].
  split; simpl; [by rewrite length_Close|]. split; [|split; [|done]].
  - rewrite isOpen_Close. rewrite decide_False; [done|].
    intros ->. by apply (Hk key).
  - intros k [_ Hl]%lookup_delete_Some. by apply (Hk k).
Qed.

Lemma leaked_register p (r : Watch) (w : World) :
  leaked p w → leaked p (register r w).2.
Proof.
  intros (Hlt & Ho & Hk & Ht).
  destruct (register_shape r) as [(k & q & fn & Hr) | (k & fn & _ & Hr)];
    rewrite Hr; [unfold onSpecPart | unfold onSpecs];
    (destruct (closed (inf w)); [done|];
     destruct (decide (is_Some (syncers (inf w) !! syncerKeyOf r))); [done|];
     destruct (syncerError (store (inf w))); [done|];
     destruct (syncError (store (inf w)));
     (split; simpl;
      [ rewrite ?length_subscribe, length_app; simpl; lia |];
      split; [by rewrite ?isOpen_subscribe, isOpen_grow|];
      split; [| by rewrite ?lookup_insert_ne by lia];
      intros k';
      try (destruct (decide (syncerKeyOf r = k')) as [<-|?];
           [rewrite lookup_insert_eq; intros [= ?]; lia
           |rewrite lookup_insert_ne by done]);
      apply Hk)).
Qed.

Lemma leaked_exec p (o : Op) (w : World) :
  consistent w → leaked p w → leaked p (exec o w).
Proof.
  intros Hc Hl. destruct o; simpl.
  - by apply leaked_register.
  - by apply leaked_stop.
  - by apply leaked_stop.
  - destruct Hl as (Hlt & Ho & Hk & Ht). split; simpl.
    { by rewrite length_closeAll. }
    split; [|done]. rewrite isOpen_closeAll_other; [done|].
    intros ([k q] & -> & Hin)%list_elem_of_fmap. simpl in *.
    rewrite rangeOf_perm in Hin. apply elem_of_map_to_list in Hin.
    by apply (Hk k).
  - unfold receive.
    destruct (tasks w !! syncer) as [[key fn|key fn]|]; [|done..].
    destruct (cluster.isOpen syncer (heap w)); [|done].
    unfold sync. destruct (rawEvent kv) as [event value].
    destruct (fn event value (user w)) as [[] u]; [done|].
    by apply leaked_stop.
  - unfold receivePrefix.
    destruct (tasks w !! syncer) as [[key fn|key fn]|] eqn:Ht; [done| |done].
    destruct (cluster.isOpen syncer (heap w)); [|done].
    unfold syncPrefix.
    pose proof (handlers_indicesOnly w Hc syncer key fn Ht kvs (inf w)
                  (user w)) as Hfn.
    destruct (fn kvs (inf w) (user w)) as [[continue i] u]; simpl in Hfn.
    destruct Hfn as (_ & Hs & _).
    assert (leaked p (setUser u (setInf i w))) as Hl'.
    { destruct Hl as (Hlt & Ho & Hk & Ht'). split; [done|]. split; [done|].
      split; [|done]. simpl. by rewrite Hs. }
    destruct continue; [done|]. by apply leaked_stop.
  - done.
Qed.

Lemma leaked_run p (ops : list Op) (w : World) :
  consistent w → leaked p w → leaked p (run ops w).
Proof.
  revert w; induction ops as [|o ops IH]; intros w Hc Hl; simpl; [done|].
  apply IH; [by apply consistent_exec | by apply leaked_exec].
Qed.

(** X13.  When the store hands out a syncer but then refuses the subscription,
    the registration returns the store's error and registers nothing, and
    the syncer it had obtained is left open: no registration and no task
    refers to it, and nothing the informer does afterwards, [Close]
    included, closes it. *)
Theorem failed_subscription_leaks_syncer (r : Watch) (e : string)
    (ops : list Op) (w : World) :
  reachable w →
  closed (inf w) = false →
  syncers (inf w) !! syncerKeyOf r = None →
  syncerError (store (inf w)) = None →
  syncError (store (inf w)) = Some e →
  (register r w).1 = Some (ErrStore e)
  ∧ syncers (inf (register r w).2) = syncers (inf w)
  ∧ tasks (register r w).2 = tasks w
  ∧ leaked (length (heap w)) (run ops (register r w).2).
Proof.
  intros [Hc Hr]%reachable_sound Hopen Hfree He1 He2.
  assert (¬ is_Some (syncers (inf w) !! syncerKeyOf r)) as Hno.
  { rewrite Hfree. by intros [? ?]. }
  assert (register r w
          = (Some (ErrStore e), setHeap (heap w ++ [cluster.fresh]) w))
    as Hreg.
  { destruct (register_shape r) as [(k & p & fn & Hs) | (k & fn & _ & Hs)];
      rewrite Hs; [unfold onSpecPart | unfold onSpecs];
      by rewrite Hopen, He1, He2, decide_False. }
  rewrite Hreg. simpl. split; [done|]. split; [done|]. split; [done|].
  apply leaked_run; [by apply consistent_grow|].
  split; simpl; [rewrite length_app; simpl; lia|]. split; [|split].
  - unfold cluster.isOpen. by rewrite lookup_app_r, Nat.sub_diag.
  - intros k Hk. destruct (Hr k _ Hk) as (Hlt & _). lia.
  - destruct (tasks w !! length (heap w)) as [t|] eqn:Ht; [|done].
    pose proof (tasks_allocated w Hc _ _ Ht). lia.
Qed.

(** *** SyncerKeys of names that contain a dash *)

Lemma append_assoc (a b c : string) : (a +:+ b) +:+ c = a +:+ b +:+ c.
Proof.
  induction a as [|x a IH]; [done|].
  change (String x ((a +:+ b) +:+ c) = String x (a +:+ b +:+ c)).
  by rewrite IH.
Qed.

Lemma dash_instance_keys (kind n a id path : string) :
  kind +:+ (n +:+ "-" +:+ a) +:+ "-" +:+ id +:+ "-" +:+ path
  = kind +:+ n +:+ "-" +:+ (a +:+ "-" +:+ id) +:+ "-" +:+ path.
Proof. by rewrite !append_assoc. Qed.

Lemma dash_store_keys (root n a id : string) :
  root +:+ (n +:+ "-" +:+ a) +:+ "/" +:+ id
  ≠ root +:+ n +:+ "/" +:+ (a +:+ "-" +:+ id).
Proof.
  rewrite !append_assoc. intros Heq.
  do 2 apply append_path_inj in Heq. discriminate Heq.
Qed.

(** X14.  The syncerKey of an instance watch joins service name, instance id and
    path with dashes, so instance [id] of service [n-a] and instance
    [a-id] of service [n] get one and the same syncerKey, although they
    are stored under two keys: once the first is watched, the watch on
    the second is refused as already watched.  The same holds for the
    status watches. *)
Theorem dashed_names_share_a_syncerKey (n a id : string) (path : GJSONPath)
    (w : World) :
  closed (inf w) = false →
  syncerError (store (inf w)) = None →
  syncError (store (inf w)) = None →
  let first := n +:+ "-" +:+ a in
  let second := a +:+ "-" +:+ id in
  (ServiceInstanceSpecKey first id ≠ ServiceInstanceSpecKey n second
   ∧ ∀ f1 f2 : PartFunc ServiceInstanceSpec,
       syncers (inf w)
         !! syncerKeyOf (PartOfServiceInstanceSpec first id path f1) = None →
       secondRefused w (PartOfServiceInstanceSpec first id path f1)
                       (PartOfServiceInstanceSpec n second path f2))
  ∧ (ServiceInstanceStatusKey first id ≠ ServiceInstanceStatusKey n second
     ∧ ∀ f1 f2 : PartFunc ServiceInstanceStatus,
         syncers (inf w)
           !! syncerKeyOf (PartOfServiceInstanceStatus first id path f1)
         = None →
         secondRefused w (PartOfServiceInstanceStatus first id path f1)
                         (PartOfServiceInstanceStatus n second path f2)).
Proof.
  intros Hc He1 He2 first second. split; (split; [apply dash_store_keys|]).
  - intros f1 f2 Hfree. apply same_key_refused; [|done].
    symmetry. apply dash_instance_keys.
  - intros f1 f2 Hfree. apply same_key_refused; [|done].
    symmetry. apply dash_instance_keys.
Qed.

End Watches.

Section Indexes.
Context {R : MapRange}.
Context {YService : Yaml Service} {YTenant : Yaml Tenant}
        {YInstanceSpec : Yaml ServiceInstanceSpec}
        {YInstanceStatus : Yaml ServiceInstanceStatus}.

(** *** The service-to-tenant map *)

Lemma s2t_fold (l : list (string * string)) (acc : gmap string string)
    (n t : string) :
  foldl (λ (m : gmap string string) (kv : string * string),
           match Unmarshal kv.2 with
           | None => m
           | Some service =>
               <[Service_Name service := Service_RegisterTenant service]> m
           end) acc l !! n = Some t →
  acc !! n = Some t
  ∨ ∃ k v svc, (k, v) ∈ l ∧ Unmarshal v = Some svc
               ∧ Service_Name svc = n ∧ Service_RegisterTenant svc = t.
Proof.
  revert acc; induction l as [|[k v] l IH]; intros acc; simpl; [by left|].
  intros [Hacc | (k' & v' & svc & Hin & Hrest)]%IH.
  - destruct (Unmarshal v) as [svc|] eqn:Hv; [|by left].
    destruct (decide (Service_Name svc = n)) as [Hn|Hn].
    + rewrite <- Hn, lookup_insert_eq in Hacc. injection Hacc as Ht.
      right. exists k, v, svc. split; [by left | done].
    + rewrite lookup_insert_ne in Hacc by done. by left.
  - right. exists k', v', svc. split; [by right | done].
Qed.

Lemma s2t_fold_covers (l : list (string * string)) (acc : gmap string string)
    (n : string) :
  is_Some (acc !! n)
  ∨ (∃ k v svc, (k, v) ∈ l ∧ Unmarshal v = Some svc ∧ Service_Name svc = n) →
  is_Some (foldl (λ (m : gmap string string) (kv : string * string),
                    match Unmarshal kv.2 with
                    | None => m
                    | Some service =>
                        <[Service_Name service
                          := Service_RegisterTenant service]> m
                    end) acc l !! n).
Proof.
  revert acc; induction l as [|[k v] l IH]; intros acc; simpl.
  - intros [H | (k & v & svc & Hin & _)]; [done|]. by apply elem_of_nil in Hin.
  - intros [Hacc | (k' & v' & svc & Hin & Hv' & Hn)]; apply IH.
    + left. destruct (Unmarshal v) as [svc|]; [|done].
      destruct (decide (Service_Name svc = n)) as [<-|?].
      * rewrite lookup_insert_eq. by eexists.
      * by rewrite lookup_insert_ne.
    + apply elem_of_cons in Hin as [[= -> ->] | Hin].
      * left. simpl. rewrite Hv', Hn, lookup_insert_eq. by eexists.
      * right. by exists k', v', svc.
Qed.

Lemma in_range {V : Type} (kvs : gmap string V) k v :
  (k, v) ∈ rangeOf kvs ↔ kvs !! k = Some v.
Proof. by rewrite rangeOf_perm, elem_of_map_to_list. Qed.

(** X15.  Every snapshot of the service prefix replaces the service-to-tenant
    map as a whole: a name is mapped exactly when some record of the
    snapshot decodes to a service of that name, and it is mapped to the
    register tenant of such a record (to the register tenant of the
    service when the records of that name agree on it); entries of the
    old map are dropped, and nothing else in the informer changes. *)
Theorem service_to_tenant_map_rebuilt (kvs : gmap string string)
    (i : meshInformer) :
  let i' := (buildServiceToTenantMap kvs i).2 in
  let named n svc := ∃ k v, kvs !! k = Some v ∧ Unmarshal v = Some svc
                            ∧ Service_Name svc = n in
  (∀ n, is_Some (service2Tenants i' !! n) ↔ ∃ svc, named n svc)
  ∧ (∀ n t, service2Tenants i' !! n = Some t →
            ∃ svc, named n svc ∧ Service_RegisterTenant svc = t)
  ∧ (∀ n t, (∃ svc, named n svc) →
            (∀ svc, named n svc → Service_RegisterTenant svc = t) →
            service2Tenants i' !! n = Some t)
  ∧ globalServices i' = globalServices i
  ∧ syncers i' = syncers i ∧ service i' = service i
  ∧ closed i' = closed i.
Proof.
  intros i' named.
  assert (∀ n t, service2Tenants i' !! n = Some t →
                 ∃ svc, named n svc ∧ Service_RegisterTenant svc = t) as Hval.
  { intros n t Hn. simpl in Hn.
    apply s2t_fold in Hn as [Hn | (k & v & svc & Hin & Hv & Hname & Ht)].
    - by rewrite lookup_empty in Hn.
    - exists svc. split; [|done]. exists k, v. by rewrite <- in_range. }
  assert (∀ n, (∃ svc, named n svc) → is_Some (service2Tenants i' !! n))
    as Hcov.
  { intros n (svc & k & v & Hk & Hv & Hn). simpl. apply s2t_fold_covers.
    right. exists k, v, svc. by rewrite in_range. }
  split; [|split; [done|split; [|done]]].
  - intros n. split; [|apply Hcov].
    intros [t (svc & Hsvc & _)%Hval]. by exists svc.
  - intros n t Hex Hagree. destruct (Hcov n Hex) as [t' Ht'].
    destruct (Hval n t' Ht') as (svc & Hsvc & <-).
    by rewrite (Hagree svc Hsvc) in Ht'.
Qed.

(** *** The set of global services *)

Lemma findGlobalTenant_is_None (l : list (string * string)) :
  findGlobalTenant l = None →
  ∀ k v t, (k, v) ∈ l → Unmarshal v = Some t → Tenant_Name t ≠ GlobalTenant.
Proof.
  induction l as [|[k0 v0] l IH]; simpl; intros Hnone k v t Hin Hv.
  - by apply elem_of_nil in Hin.
  - apply elem_of_cons in Hin as [[= -> ->] | Hin].
    + rewrite Hv in Hnone. by destruct (decide (Tenant_Name t = GlobalTenant)).
    + destruct (Unmarshal v0) as [t0|].
      * destruct (decide (Tenant_Name t0 = GlobalTenant)); [done|].
        by eapply IH.
      * by eapply IH.
Qed.

(** X16.  When some record of the snapshot decodes to the tenant named
    [GlobalTenant], the set of global services is replaced by the list
    of services of such a record: the old set is not merged in, and
    nothing else in the informer changes. *)
Theorem global_services_replaced (kvs : gmap string string)
    (i : meshInformer) :
  (∃ k v t, kvs !! k = Some v ∧ Unmarshal v = Some t
            ∧ Tenant_Name t = GlobalTenant) →
  let i' := (updateGlobalServices kvs i).2 in
  (∃ k v t, kvs !! k = Some v ∧ Unmarshal v = Some t
            ∧ Tenant_Name t = GlobalTenant
            ∧ ∀ name, boolAt (globalServices i') name = true
                      ↔ name ∈ Tenant_Services t)
  ∧ service2Tenants i' = service2Tenants i
  ∧ syncers i' = syncers i ∧ service i' = service i
  ∧ closed i' = closed i.
Proof.
  intros (k & v & t & Hk & Hv & Hn) i'.
  destruct (findGlobalTenant (rangeOf kvs)) as [t'|] eqn:Hf.
  - split.
    + destruct (findGlobalTenant_Some _ _ Hf) as (k' & v' & Hin & Hv' & Hn').
      exists k', v', t'. rewrite <- in_range. split; [done|].
      split; [done|]. split; [done|].
      by apply updateGlobalServices_found.
    + subst i'. unfold updateGlobalServices. by rewrite Hf.
  - exfalso. apply (findGlobalTenant_is_None _ Hf k v t); [|done..].
    by apply in_range.
Qed.

End Indexes.

Section Construction.
Context {R : MapRange}.
Context {YService : Yaml Service} {YTenant : Yaml Tenant}
        {YIngress : Yaml Ingress}
        {YInstanceSpec : Yaml ServiceInstanceSpec}
        {YInstanceStatus : Yaml ServiceInstanceStatus}.
Context {U : Type}.

Abbreviation World' := (@informer.World U).
Abbreviation Watch' := (@informer.Watch U).
Abbreviation Op' := (@informer.Op U).

(** *** The internal watches *)

Lemma interface_keys_not_internal (r : Watch') :
  syncerKeyOf r ≠ "informer-service"
  ∧ syncerKeyOf r ≠ "informer-global-tenant".
Proof.
  destruct r; split; intros H; cbv in H; discriminate H.
Qed.

Lemma running_indices key p fn (i : meshInformer) (u : U) (w : World') :
  syncers i = syncers (inf w) →
  running key p fn w → running key p fn (setUser u (setInf i w)).
Proof. intros Hs (Hk & Ht & Ho). split; simpl; [by rewrite Hs | done]. Qed.

Lemma running_stop key p fn key' (w : World') :
  registered w → key ≠ key' →
  running key p fn w → running key p fn (stopSyncOneKey key' w).
Proof.
  intros Hr Hne (Hk & Ht & Ho).
  destruct (stop_keeps_other key' key p w Hr Hne Hk) as [Hk' Ho'].
  destruct (stop_keeps_indices (U := U) key' w) as (_ & Htasks & _).
  split; [done|]. split; [by rewrite Htasks | by rewrite Ho'].
Qed.

Lemma running_grow key p fn (x : cluster.Syncer) (w : World') :
  running key p fn w → running key p fn (setHeap (heap w ++ [x]) w).
Proof.
  intros (Hk & Ht & Ho). split; [done|]. split; [done|]. simpl.
  rewrite isOpen_grow; [done | by apply isOpen_allocated].
Qed.

Lemma running_install key p fn (sub : cluster.Subscription) key' (t : Task)
    (w : World') :
  key ≠ key' →
  running key p fn w →
  running key p fn
    (setTasks (<[length (heap w) := t]> (tasks w))
       (setInf (setSyncers (<[key' := length (heap w)]> (syncers (inf w)))
                           (inf w))
          (setHeap (cluster.subscribe sub (length (heap w))
                      (heap (setHeap (heap w ++ [cluster.fresh]) w)))
             (setHeap (heap w ++ [cluster.fresh]) w)))).
Proof.
  intros Hne (Hk & Ht & Ho). pose proof (isOpen_allocated _ _ Ho) as Hlt.
  split; simpl; [by rewrite lookup_insert_ne|]. split.
  - rewrite lookup_insert_ne by lia. done.
  - by rewrite isOpen_subscribe, isOpen_grow.
Qed.

Lemma running_onSpecs key p fn storePrefix key' fn' (w : World') :
  key ≠ key' →
  running key p fn w →
  running key p fn (onSpecs storePrefix key' fn' w).2.
Proof.
  intros Hne Hrun. unfold onSpecs.
  destruct (closed (inf w)); [done|].
  destruct (decide (is_Some (syncers (inf w) !! key'))); [done|].
  destruct (syncerError (store (inf w))); [done|].
  destruct (syncError (store (inf w))).
  - by apply running_grow.
  - by apply running_install.
Qed.

Lemma running_onSpecPart key p fn storeKey key' path fn' (w : World') :
  key ≠ key' →
  running key p fn w →
  running key p fn (onSpecPart storeKey key' path fn' w).2.
Proof.
  intros Hne Hrun. unfold onSpecPart.
  destruct (closed (inf w)); [done|].
  destruct (decide (is_Some (syncers (inf w) !! key'))); [done|].
  destruct (syncerError (store (inf w))); [done|].
  destruct (syncError (store (inf w))).
  - by apply running_grow.
  - by apply running_install.
Qed.

Lemma onSpecs_starts storePrefix key fn (w : World') :
  closed (inf w) = false →
  syncers (inf w) !! key = None →
  syncerError (store (inf w)) = None →
  syncError (store (inf w)) = None →
  running key (length (heap w)) fn (onSpecs storePrefix key fn w).2.
Proof.
  intros Hc Hfree He1 He2. unfold onSpecs.
  rewrite Hc, He1, He2, decide_False by (rewrite Hfree; by intros [? ?]).
  split; simpl; [by rewrite lookup_insert_eq|].
  split; [by rewrite lookup_insert_eq|].
  rewrite isOpen_subscribe. unfold cluster.isOpen.
  by rewrite lookup_app_r, Nat.sub_diag.
Qed.

Lemma running_exec key p fn (o : Op') (w : World') :
  (∀ kvs i u, (fn kvs i u).1.1 = true) →
  (∀ r : Watch', syncerKeyOf r ≠ key) →
  consistent w → registered w →
  o ≠ DoClose →
  running key p fn w → running key p fn (exec o w).
Proof.
  intros Htrue Hkeys Hc Hr Ho Hrun.
  pose proof Hrun as (Hk & Ht & Hopen).
  destruct o; simpl; [| | |done| | |done].
  - destruct (register_shape r) as [(k & q & f & Hs) | (k & f & _ & Hs)];
      rewrite Hs;
      [apply running_onSpecPart | apply running_onSpecs];
      first [done | by apply not_eq_sym, Hkeys].
  - apply running_stop; [done| |done].
    apply not_eq_sym, (Hkeys (PartOfServiceSpec serviceName gjsonPath
                                (λ _ _ u, (true, u)))).
  - apply running_stop; [done| |done].
    apply not_eq_sym, (Hkeys (ServiceInstanceSpecs serviceName
                                (λ _ u, (true, u)))).
  - unfold receive.
    destruct (tasks w !! syncer) as [[key' f|key' f]|] eqn:Ht'; [|done..].
    destruct (cluster.isOpen syncer (heap w)) eqn:Ho'; [|done].
    unfold sync. destruct (rawEvent kv) as [event value].
    destruct (f event value (user w)) as [[] u]; [done|].
    rewrite stop_setUser. apply (running_indices key p fn (inf _) u).
    { done. }
    apply running_stop; [done| |done].
    intros ->. pose proof (open_registered w Hc _ _ Ht' Ho') as Hk'.
    simpl in Hk'. congruence.
  - unfold receivePrefix.
    destruct (tasks w !! syncer) as [[key' f|key' f]|] eqn:Ht'; [done| |done].
    destruct (cluster.isOpen syncer (heap w)) eqn:Ho'; [|done].
    unfold syncPrefix.
    pose proof (handlers_indicesOnly w Hc syncer key' f Ht' kvs (inf w)
                  (user w)) as Hf.
    pose proof (open_registered w Hc _ _ Ht' Ho') as Hk'. simpl in Hk'.
    destruct (decide (key' = key)) as [->|Hne].
    + assert (syncer = p) as -> by congruence.
      assert (f = fn) as -> by congruence.
      specialize (Htrue kvs (inf w) (user w)).
      destruct (fn kvs (inf w) (user w)) as [[continue i] u]; simpl in *.
      subst continue. apply running_indices; [|done].
      by destruct Hf as (_ & -> & _).
    + destruct (f kvs (inf w) (user w)) as [[continue i] u]; simpl in Hf.
      destruct Hf as (_ & Hs & _ & Hcl).
      assert (running key p fn (setUser u (setInf i w))) as Hrun'
        by by apply running_indices.
      destruct continue; [done|].
      apply running_stop; [|by apply not_eq_sym|done].
      by apply registered_indices.
Qed.

Lemma running_run key p fn (ops : list Op') (w : World') :
  (∀ kvs i u, (fn kvs i u).1.1 = true) →
  (∀ r : Watch', syncerKeyOf r ≠ key) →
  consistent w → registered w →
  noClose ops →
  running key p fn w → running key p fn (run ops w).
Proof.
  intros Htrue Hkeys. revert w.
  induction ops as [|o ops IH]; intros w Hc Hr Hno Hrun; simpl; [done|].
  apply Forall_cons in Hno as [Ho Hno].
  apply IH; [by apply consistent_exec | by apply registered_exec | done |].
  by apply running_exec.
Qed.

Lemma NewInformer_running (st : Storage) (name : string) (u : U) :
  name ≠ "" →
  ioError st ServiceSpecPrefix = None →
  ioError st (TenantSpecKey GlobalTenant) = None →
  syncerError st = None → syncError st = None →
  running "informer-service" 0
    (internalHandler buildServiceToTenantMap) (NewInformer st name u)
  ∧ running "informer-global-tenant" 1
      (internalHandler updateGlobalServices) (NewInformer st name u).
Proof.
  intros Hname Hio Hio' He1 He2. unfold NewInformer, GetPrefix.
  rewrite Hio, Hio'.
  rewrite decide_False by by rewrite length_zero.
  set (wi := {| inf := _; heap := []; tasks := ∅; user := u |}).
  set (w0 := setInf (buildServiceToTenantMap _ (inf wi)).2 wi).
  assert (running "informer-service" 0
            (internalHandler buildServiceToTenantMap)
            (onSpecs ServiceSpecPrefix "informer-service"
               (internalHandler buildServiceToTenantMap) w0).2
          ∧ length (heap (onSpecs ServiceSpecPrefix "informer-service"
               (internalHandler buildServiceToTenantMap) w0).2) = 1
          ∧ inf (onSpecs ServiceSpecPrefix "informer-service"
               (internalHandler buildServiceToTenantMap) w0).2
            = setSyncers {[ "informer-service" := 0 ]} (inf w0))
    as (H1 & Hlen & Hinf).
  { split; [by apply (onSpecs_starts ServiceSpecPrefix _ _ w0)|].
    unfold onSpecs. simpl. rewrite He1, He2. simpl. done. }
  set (w1 := (onSpecs _ _ _ w0).2) in *.
  set (w2 := setInf _ w1).
  assert (running "informer-service" 0
            (internalHandler buildServiceToTenantMap) w2) as H2.
  { destruct H1 as (Hk & Ht & Ho). split; [|done]. subst w2. simpl.
    destruct (updateGlobalServices_indices
                (underPrefix (TenantSpecKey GlobalTenant) (content st))
                (inf w1)) as (-> & _). done. }
  destruct (updateGlobalServices_indices
              (underPrefix (TenantSpecKey GlobalTenant) (content st))
              (inf w1)) as (Hs & Hst & _ & Hcl).
  split.
  - by apply running_onSpecs.
  - rewrite <- Hlen. change (length (heap w1)) with (length (heap w2)).
    apply onSpecs_starts; subst w2; simpl.
    + rewrite Hcl, Hinf. done.
    + rewrite Hs, Hinf. done.
    + rewrite Hst, Hinf. done.
    + rewrite Hst, Hinf. done.
Qed.

(** X18.  On a store that answers both reads of the construction and lets
    subscriptions through, a tenant-scoped informer starts its two
    internal watches, and nothing but [Close] stops them: after any
    sequence of registrations, stops and deliveries both are still
    registered, on the syncers they started with, with open channels.
    No method of the interface computes one of their syncerKeys, so they
    never block a registration either. *)
Theorem internal_watches_run_until_close (st : Storage) (name : string)
    (u : U) (ops : list Op') :
  name ≠ "" →
  ioError st ServiceSpecPrefix = None →
  ioError st (TenantSpecKey GlobalTenant) = None →
  syncerError st = None → syncError st = None →
  noClose ops →
  running "informer-service" 0
    (internalHandler buildServiceToTenantMap)
    (run ops (NewInformer st name u))
  ∧ running "informer-global-tenant" 1
      (internalHandler updateGlobalServices)
      (run ops (NewInformer st name u))
  ∧ ∀ r : Watch', syncerKeyOf r ≠ "informer-service"
                  ∧ syncerKeyOf r ≠ "informer-global-tenant".
Proof.
  intros Hname Hio Hio' He1 He2 Hno.
  destruct (NewInformer_running st name u Hname Hio Hio' He1 He2) as [H1 H2].
  pose proof (consistent_NewInformer st name u) as Hc.
  pose proof (registered_NewInformer st name u) as Hr.
  split; [|split].
  - apply running_run;
      [ by intros kvs i v
      | intros r; apply interface_keys_not_internal
      | done.. ].
  - apply running_run;
      [ intros kvs i v; unfold internalHandler, updateGlobalServices;
        by destruct (findGlobalTenant (rangeOf kvs))
      | intros r; apply interface_keys_not_internal
      | done.. ].
  - apply interface_keys_not_internal.
Qed.

(** *** An informer built on a store that fails *)

Lemma specsFunc_readOnly {E : Type}
    (build : meshInformer → gmap string string → gmap string E)
    (fn : @informer.PrefixFunc U E) :
  readOnly (specsFunc build fn).
Proof.
  intros kvs i u. unfold specsFunc. by destruct (fn (build i kvs) u).
Qed.

Lemma register_shape_readOnly (r : Watch') :
  (∃ storeKey path fn,
      ∀ w, register r w = onSpecPart storeKey (syncerKeyOf r) path fn w)
  ∨ (∃ storePrefix fn,
        readOnly fn
        ∧ ∀ w, register r w = onSpecs storePrefix (syncerKeyOf r) fn w).
Proof.
  destruct r;
    first [ left; eexists _, _, _; intros w; reflexivity
          | right; eexists _, _; split; last (intros w; reflexivity);
            apply specsFunc_readOnly ].
Qed.

Lemma unindexed_stop key (w : World') :
  unindexed w → unindexed (stopSyncOneKey key w).
Proof.
  intros (Hg & Hs & Ht). unfold unindexed.
  destruct (stop_keeps_indices (U := U) key w) as (_ & -> & -> & ->).
  done.
Qed.

Lemma unindexed_register (r : Watch') (w : World') :
  unindexed w → unindexed (register r w).2.
Proof.
  intros (Hg & Hs & Ht).
  destruct (register_shape_readOnly r)
    as [(k & q & fn & Hr) | (k & fn & Hfn & Hr)];
    rewrite Hr; [unfold onSpecPart | unfold onSpecs];
    (destruct (closed (inf w)); [done|];
     destruct (decide (is_Some (syncers (inf w) !! syncerKeyOf r))); [done|];
     destruct (syncerError (store (inf w))); [done|];
     destruct (syncError (store (inf w))); [done|];
     split; [done|]; split; [done|]; simpl; intros p k' fn';
     destruct (decide (p = length (heap w))) as [->|?];
     [ rewrite lookup_insert_eq; intros [= ? ?]; by subst
     | rewrite lookup_insert_ne by done; apply Ht ]).
Qed.

Lemma unindexed_exec (o : Op') (w : World') :
  unindexed w → unindexed (exec o w).
Proof.
  intros Hu. pose proof Hu as (Hg & Hs & Ht). destruct o; simpl.
  - by apply unindexed_register.
  - by apply unindexed_stop.
  - by apply unindexed_stop.
  - done.
  - unfold receive.
    destruct (tasks w !! syncer) as [[key fn|key fn]|]; [|done..].
    destruct (cluster.isOpen syncer (heap w)); [|done].
    unfold sync. destruct (rawEvent kv) as [event value].
    destruct (fn event value (user w)) as [[] u]; [done|].
    by apply unindexed_stop.
  - unfold receivePrefix.
    destruct (tasks w !! syncer) as [[key fn|key fn]|] eqn:Ht'; [done| |done].
    destruct (cluster.isOpen syncer (heap w)); [|done].
    unfold syncPrefix. pose proof (Ht _ _ _ Ht' kvs (inf w) (user w)) as Hro.
    destruct (fn kvs (inf w) (user w)) as [[continue i] u]; simpl in Hro.
    subst i.
    assert (unindexed (setUser u (setInf (inf w) w))) as Hu' by done.
    destruct continue; [done|]. by apply unindexed_stop.
  - done.
Qed.

Lemma unindexed_run (ops : list Op') (w : World') :
  unindexed w → unindexed (run ops w).
Proof.
  revert w; induction ops as [|o ops IH]; intros w Hu; simpl; [done|].
  by apply IH, unindexed_exec.
Qed.

Lemma run_app (ops ops' : list Op') (w : World') :
  run (ops ++ ops') w = run ops' (run ops w).
Proof. unfold run. apply foldl_app. Qed.

(** *** Keys that no method of the interface computes *)

Lemma stop_keeps_absent key key' (w : World') :
  syncers (inf w) !! key = None →
  syncers (inf (stopSyncOneKey key' w)) !! key = None.
Proof.
  intros Hk. unfold stopSyncOneKey.
  destruct (syncers (inf w) !! key'); [|done]. simpl.
  destruct (decide (key' = key)) as [->|Hne].
  - apply lookup_delete_eq.
  - by rewrite lookup_delete_ne.
Qed.

Lemma absent_exec key (o : Op') (w : World') :
  (∀ r : Watch', syncerKeyOf r ≠ key) →
  consistent w →
  syncers (inf w) !! key = None →
  syncers (inf (exec o w)) !! key = None.
Proof.
  intros Hkeys Hc Hk. destruct o; simpl.
  - destruct (register_shape r) as [(k & q & fn & Hr) | (k & fn & _ & Hr)];
      rewrite Hr; [unfold onSpecPart | unfold onSpecs];
      (destruct (closed (inf w)); [done|];
       destruct (decide (is_Some (syncers (inf w) !! syncerKeyOf r)));
         [done|];
       destruct (syncerError (store (inf w))); [done|];
       destruct (syncError (store (inf w))); [done|]; simpl;
       by rewrite lookup_insert_ne by apply Hkeys).
  - by apply stop_keeps_absent.
  - by apply stop_keeps_absent.
  - done.
  - unfold receive.
    destruct (tasks w !! syncer) as [[key' fn|key' fn]|]; [|done..].
    destruct (cluster.isOpen syncer (heap w)); [|done].
    unfold sync. destruct (rawEvent kv) as [event value].
    destruct (fn event value (user w)) as [[] u]; [done|].
    by apply stop_keeps_absent.
  - unfold receivePrefix.
    destruct (tasks w !! syncer) as [[key' fn|key' fn]|] eqn:Ht;
      [done| |done].
    destruct (cluster.isOpen syncer (heap w)); [|done].
    unfold syncPrefix.
    pose proof (handlers_indicesOnly w Hc syncer key' fn Ht kvs (inf w)
                  (user w)) as Hfn.
    destruct (fn kvs (inf w) (user w)) as [[continue i] u]; simpl in Hfn.
    destruct Hfn as (_ & Hs & _).
    assert (syncers (inf (setUser u (setInf i w))) !! key = None) as Hk'
      by (simpl; by rewrite Hs).
    destruct continue; [done|]. by apply stop_keeps_absent.
  - done.
Qed.

Lemma absent_run key (ops : list Op') (w : World') :
  (∀ r : Watch', syncerKeyOf r ≠ key) →
  consistent w →
  syncers (inf w) !! key = None →
  syncers (inf (run ops w)) !! key = None.
Proof.
  intros Hkeys. revert w.
  induction ops as [|o ops IH]; intros w Hc Hk; simpl; [done|].
  apply IH; [by apply consistent_exec | by apply absent_exec].
Qed.

(** X19.  When the read of the service specs fails while a tenant-scoped
    informer is built, the informer is returned without indices, without
    syncers and without internal watches, and it stays that way: whatever
    is registered, stopped or delivered afterwards, both indices are
    empty and neither internal syncerKey is registered; and the callback
    of a prefix watch on services, instance specs or instance statuses
    that is registered on it runs on every record that decodes, those of
    other tenants included. *)
Theorem construction_failure_disables_filter (st : Storage) (name e : string)
    (u : U) (ops ops' : list Op') (r : Watch') (kvs : gmap string string)
    (w1 : World') :
  ioError st ServiceSpecPrefix = Some e →
  let w0 := NewInformer st name u in
  let w := run ops w0 in
  (heap w0 = [] ∧ tasks w0 = ∅ ∧ syncers (inf w0) = ∅)
  ∧ globalServices (inf w) = ∅
  ∧ service2Tenants (inf w) = ∅
  ∧ syncers (inf w) !! "informer-service" = None
  ∧ syncers (inf w) !! "informer-global-tenant" = None
  ∧ (register r w = (None, w1) →
     let p := length (heap w) in
     let w2 := run ops' w1 in
     cluster.isOpen p (heap w2) = true →
     match r with
     | AllServiceSpecs fn =>
         hands p (syncerKeyOf r) fn kvs (omap Unmarshal kvs) w2
     | ServiceInstanceSpecs _ fn | AllServiceInstanceSpecs fn =>
         hands p (syncerKeyOf r) fn kvs (omap Unmarshal kvs) w2
     | ServiceInstanceStatuses _ fn | AllServiceInstanceStatuses fn =>
         hands p (syncerKeyOf r) fn kvs (omap Unmarshal kvs) w2
     | _ => True
     end).
Proof.
  intros Hio w0 w.
  assert (heap w0 = [] ∧ tasks w0 = ∅ ∧ syncers (inf w0) = ∅) as Hnew.
  { subst w0. unfold NewInformer, GetPrefix. rewrite Hio.
    by destruct (decide (String.length name = 0)). }
  assert (unindexed w0) as H0.
  { destruct Hnew as (_ & Ht & _).
    assert (globalServices (inf w0) = ∅ ∧ service2Tenants (inf w0) = ∅)
      as [Hg Hs].
    { subst w0. unfold NewInformer, GetPrefix. rewrite Hio.
      by destruct (decide (String.length name = 0)). }
    split; [done|]. split; [done|]. intros p k fn Hp.
    by rewrite Ht, lookup_empty in Hp. }
  pose proof (consistent_NewInformer st name u) as Hc.
  assert (∀ wx : World', unindexed wx → scopeTenant (inf wx) = "")
    as Hscope.
  { intros wx (Hg & Hs & _). unfold scopeTenant. rewrite Hg, Hs.
    unfold stringAt. rewrite lookup_empty. simpl.
    by destruct (bool_decide _ && _). }
  destruct (unindexed_run ops _ H0) as (Hg & Hs & Hro).
  split; [done|]. split; [done|]. split; [done|].
  split; [|split].
  - apply absent_run; [intros r'; apply interface_keys_not_internal|done|].
    destruct Hnew as (_ & _ & ->). apply lookup_empty.
  - apply absent_run; [intros r'; apply interface_keys_not_internal|done|].
    destruct Hnew as (_ & _ & ->). apply lookup_empty.
  - intros Hr p w2 Ho.
    apply (unscoped_watch_hands r ops' kvs w w1 Hr Ho).
    apply Hscope. apply unindexed_run.
    pose proof (unindexed_register r w (conj Hg (conj Hs Hro))) as H1.
    by rewrite Hr in H1.
Qed.

(** *** An informer built while the read of the global tenant fails *)

Lemma noGlobalSet_indices (i : meshInformer) (u : U) (w : World') :
  globalServices i = globalServices (inf w) →
  noGlobalSet w → noGlobalSet (setUser u (setInf i w)).
Proof. intros Hi [Hg Ht]. split; simpl; [by rewrite Hi | done]. Qed.

Lemma noGlobalSet_stop key (w : World') :
  noGlobalSet w → noGlobalSet (stopSyncOneKey key w).
Proof.
  intros [Hg Ht]. unfold noGlobalSet.
  destruct (stop_keeps_indices (U := U) key w) as (_ & -> & -> & _).
  done.
Qed.

Lemma noGlobalSet_register (r : Watch') (w : World') :
  noGlobalSet w → noGlobalSet (register r w).2.
Proof.
  intros (Hg & Ht).
  destruct (register_shape_readOnly r)
    as [(k & q & fn & Hr) | (k & fn & Hfn & Hr)];
    rewrite Hr; [unfold onSpecPart | unfold onSpecs];
    (destruct (closed (inf w)); [done|];
     destruct (decide (is_Some (syncers (inf w) !! syncerKeyOf r))); [done|];
     destruct (syncerError (store (inf w))); [done|];
     destruct (syncError (store (inf w))); [done|];
     split; [done|]; simpl; intros p k' fn';
     destruct (decide (p = length (heap w))) as [->|?];
     [ rewrite lookup_insert_eq; intros [= ? ?] kvs i v; subst;
       by rewrite ?Hfn
     | rewrite lookup_insert_ne by done; apply Ht ]).
Qed.

Lemma noGlobalSet_exec (o : Op') (w : World') :
  noGlobalSet w → noGlobalSet (exec o w).
Proof.
  intros Hn. pose proof Hn as (Hg & Ht). destruct o; simpl.
  - by apply noGlobalSet_register.
  - by apply noGlobalSet_stop.
  - by apply noGlobalSet_stop.
  - done.
  - unfold receive.
    destruct (tasks w !! syncer) as [[key fn|key fn]|]; [|done..].
    destruct (cluster.isOpen syncer (heap w)); [|done].
    unfold sync. destruct (rawEvent kv) as [event value].
    destruct (fn event value (user w)) as [[] u]; [done|].
    by apply noGlobalSet_stop.
  - unfold receivePrefix.
    destruct (tasks w !! syncer) as [[key fn|key fn]|] eqn:Ht'; [done| |done].
    destruct (cluster.isOpen syncer (heap w)); [|done].
    unfold syncPrefix. pose proof (Ht _ _ _ Ht' kvs (inf w) (user w)) as Hk.
    destruct (fn kvs (inf w) (user w)) as [[continue i] u]; simpl in Hk.
    assert (noGlobalSet (setUser u (setInf i w))) as Hn'
      by by apply noGlobalSet_indices.
    destruct continue; [done|]. by apply noGlobalSet_stop.
  - done.
Qed.

Lemma noGlobalSet_run (ops : list Op') (w : World') :
  noGlobalSet w → noGlobalSet (run ops w).
Proof.
  revert w; induction ops as [|o ops IH]; intros w Hn; simpl; [done|].
  by apply IH, noGlobalSet_exec.
Qed.

(** X20.  When the read of the service specs answers and the read of the
    global tenant fails while a tenant-scoped informer is built, the
    informer is returned half built.  The service-to-tenant map is the
    one built from the service records of the store, and the internal
    watch on the services runs on syncer 0 until [Close].  The set of
    global services is empty and the internal watch on the global tenant
    is missing, and that never changes: whatever is registered, stopped
    or delivered afterwards, no service is a global service. *)
Theorem tenant_read_failure_leaves_no_global_set (st : Storage)
    (name e : string) (u : U) (ops : list Op') :
  name ≠ "" →
  ioError st ServiceSpecPrefix = None →
  ioError st (TenantSpecKey GlobalTenant) = Some e →
  syncerError st = None → syncError st = None →
  let w0 := NewInformer st name u in
  let w := run ops w0 in
  (∀ i, service2Tenants (inf w0)
        = service2Tenants
            (buildServiceToTenantMap
               (underPrefix ServiceSpecPrefix (content st)) i).2)
  ∧ length (heap w0) = 1
  ∧ (noClose ops →
     running "informer-service" 0
       (internalHandler buildServiceToTenantMap) w)
  ∧ globalServices (inf w) = ∅
  ∧ (∀ name', boolAt (globalServices (inf w)) name' = false)
  ∧ syncers (inf w) !! "informer-global-tenant" = None.
Proof.
  intros Hname Hio Hio' He1 He2 w0 w.
  pose proof (consistent_NewInformer st name u) as Hc.
  pose proof (registered_NewInformer st name u) as Hr.
  assert (w0
          = (onSpecs ServiceSpecPrefix "informer-service"
               (internalHandler buildServiceToTenantMap)
               (setInf (buildServiceToTenantMap
                          (underPrefix ServiceSpecPrefix (content st))
                          {| store := st; syncers := ∅; service := name;
                             globalServices := ∅; service2Tenants := ∅;
                             closed := false |}).2
                  {| inf := {| store := st; syncers := ∅; service := name;
                               globalServices := ∅; service2Tenants := ∅;
                               closed := false |};
                     heap := []; tasks := ∅; user := u |})).2) as Hw0.
  { subst w0. unfold NewInformer, GetPrefix. rewrite Hio, Hio'.
    by rewrite decide_False by by rewrite length_zero. }
  set (wi := setInf _ _) in Hw0.
  assert (running "informer-service" 0
            (internalHandler buildServiceToTenantMap) w0) as Hrun.
  { rewrite Hw0. by apply (onSpecs_starts ServiceSpecPrefix _ _ wi). }
  assert (inf w0
          = setSyncers {[ "informer-service" := 0 ]} (inf wi)
          ∧ length (heap w0) = 1
          ∧ tasks w0
            = {[ 0 := PrefixTask "informer-service"
                        (internalHandler buildServiceToTenantMap) ]})
    as (Hinf & Hlen & Htasks).
  { rewrite Hw0. unfold onSpecs. simpl. rewrite He1, He2. simpl. done. }
  assert (noGlobalSet w0) as Hn0.
  { split; [by rewrite Hinf|]. intros p k fn. rewrite Htasks.
    intros [_ [= _ <-]]%lookup_singleton_Some kvs i v. done. }
  destruct (noGlobalSet_run ops _ Hn0) as [Hg _].
  split; [|split; [done|split; [|split; [done|split]]]].
  - intros i. by rewrite Hinf.
  - intros Hno. apply running_run;
      [ by intros kvs i v
      | intros r; apply interface_keys_not_internal
      | done.. ].
  - intros name'. fold w in Hg. unfold boolAt. by rewrite Hg, lookup_empty.
  - apply absent_run; [intros r; apply interface_keys_not_internal|done|].
    by rewrite Hinf.
Qed.

End Construction.

Section MoreInformerSamples.
Import sample.
#[local] Existing Instance canonicalRange.
#[local] Existing Instance serviceCodec.
#[local] Existing Instance tenantCodec.
#[local] Existing Instance ingressCodec.
#[local] Existing Instance instanceSpecCodec.
#[local] Existing Instance instanceStatusCodec.

Ltac evaluate :=
  vm_compute; first [reflexivity | intros H; discriminate H].

Lemma consistent_prefixWatching : consistent prefixWatching.
Proof. apply consistent_register, consistent_NewInformer. Qed.

Lemma consistent_twoWatches : consistent twoWatches.
Proof. apply consistent_register, consistent_register, consistent_NewInformer. Qed.

Lemma registered_twoWatches : registered twoWatches.
Proof. apply registered_register, registered_register, registered_NewInformer. Qed.

Lemma reachable_twoWatches : reachable twoWatches.
Proof.
  apply (reachable_step (DoRegister _)), (reachable_step (DoRegister _)),
    reachable_new.
Qed.

Lemma consistent_scoped : consistent scoped.
Proof. apply consistent_NewInformer. Qed.

Lemma prefix_watch_loop_witness :
  consistent scoped
  ∧ register (AllServiceSpecs untilEmpty) scoped = (None, prefixWatching)
  ∧ cluster.isOpen (length (heap scoped)) (heap prefixWatching) = true
  ∧ prefixLoop (length (heap scoped)) "prefix-service" untilEmpty
      (λ kvs m, m ⊆ omap Unmarshal kvs) prefixWatching.
Proof.
  assert (register (AllServiceSpecs untilEmpty) scoped
          = (None, prefixWatching)) as Hr by (apply register_returned; evaluate).
  assert (cluster.isOpen (length (heap scoped)) (heap prefixWatching) = true)
    as Ho by evaluate.
  split; [exact consistent_scoped|]. split; [exact Hr|]. split; [exact Ho|].
  exact (prefix_watch_loop (AllServiceSpecs untilEmpty) [] scoped
           prefixWatching consistent_scoped Hr Ho).
Defined.

(** The prefix watch of [orders] sees its own tenant and the global
    services; the empty snapshot makes the callback stop the watch, and
    the snapshot after it is not delivered. *)
Example scenario_prefix_watch_stops :
  user (run [DeliverPrefix 2 threeServices; DeliverPrefix 2 ∅;
             DeliverPrefix 2 threeServices] prefixWatching)
  = [ServiceSpecKey "orders"; ServiceSpecKey "auth"]
  ∧ syncers (inf (run [DeliverPrefix 2 threeServices; DeliverPrefix 2 ∅]
                    prefixWatching)) !! "prefix-service" = None.
Proof. split; vm_compute; reflexivity. Qed.

Lemma stop_then_register_again_witness :
  closed (inf watching) = false
  ∧ syncerError (store (inf watching)) = None
  ∧ syncError (store (inf watching)) = None
  ∧ ∃ w1, OnPartOfServiceSpec "orders" AllParts untilDelete
            (StopWatchServiceSpec "orders" AllParts watching) = (None, w1)
          ∧ syncers (inf w1) !! serviceSpecSyncerKey "orders" AllParts
            = Some (length (heap watching))
          ∧ cluster.isOpen (length (heap watching)) (heap w1) = true
          ∧ ∀ p, syncers (inf watching)
                   !! serviceSpecSyncerKey "orders" AllParts = Some p →
                 p < length (heap watching) →
                 cluster.isOpen p (heap w1) = false.
Proof.
  assert (closed (inf watching) = false) as H1 by evaluate.
  assert (syncerError (store (inf watching)) = None) as H2 by evaluate.
  assert (syncError (store (inf watching)) = None) as H3 by evaluate.
  split; [exact H1|]. split; [exact H2|]. split; [exact H3|].
  exact (proj1 (stop_then_register_again watching H1 H2 H3)
           "orders" AllParts untilDelete).
Defined.

Lemma registry_matches_running_watches_witness :
  reachable twoWatches ∧ registered twoWatches.
Proof.
  split; [exact reachable_twoWatches|].
  exact (proj1 (registry_matches_running_watches twoWatches
                  reachable_twoWatches)).
Defined.

Lemma close_silences_the_informer_witness :
  consistent prefixWatching
  ∧ user (run [DeliverPrefix 2 threeServices; DoRegister watchOrders;
               Deliver 0 None] (Close prefixWatching))
    = user prefixWatching.
Proof.
  split; [exact consistent_prefixWatching|].
  exact (proj1 (proj2 (close_silences_the_informer
                         [DeliverPrefix 2 threeServices;
                          DoRegister watchOrders; Deliver 0 None]
                         prefixWatching consistent_prefixWatching))).
Defined.

Lemma stop_commutes_with_other_watch_witness :
  consistent twoWatches
  ∧ registered twoWatches
  ∧ serviceSpecSyncerKey "auth" AllParts ≠ serviceSpecSyncerKey "orders" AllParts
  ∧ tasks twoWatches !! 1
    = Some (RawTask (serviceSpecSyncerKey "auth" AllParts) (specFunc (E := Service) always))
  ∧ receive 1 (Some ordersRecord)
      (stopSyncOneKey (serviceSpecSyncerKey "orders" AllParts) twoWatches)
    = stopSyncOneKey (serviceSpecSyncerKey "orders" AllParts)
        (receive 1 (Some ordersRecord) twoWatches).
Proof.
  assert (serviceSpecSyncerKey "auth" AllParts
          ≠ serviceSpecSyncerKey "orders" AllParts) as Hne by evaluate.
  assert (tasks twoWatches !! 1
          = Some (RawTask (serviceSpecSyncerKey "auth" AllParts)
                    (specFunc (E := Service) always))) as Ht by evaluate.
  split; [exact consistent_twoWatches|].
  split; [exact registered_twoWatches|].
  split; [exact Hne|]. split; [exact Ht|].
  exact (stop_commutes_with_other_watch _ _ 1 _ (Some ordersRecord)
           twoWatches consistent_twoWatches registered_twoWatches Hne Ht).
Defined.

Lemma failed_subscription_leaks_syncer_witness :
  reachable (NewInformer (U := list string) refusingStore "" [])
  ∧ closed (inf (NewInformer (U := list string) refusingStore "" [])) = false
  ∧ syncers (inf (NewInformer (U := list string) refusingStore "" []))
      !! syncerKeyOf watchOrders = None
  ∧ syncerError (store (inf (NewInformer (U := list string)
                               refusingStore "" []))) = None
  ∧ syncError (store (inf (NewInformer (U := list string)
                             refusingStore "" []))) = Some "refused"
  ∧ leaked 0
      (run [DoClose]
         (register watchOrders
            (NewInformer (U := list string) refusingStore "" [])).2).
Proof.
  assert (reachable (NewInformer (U := list string) refusingStore "" []))
    as H0 by apply reachable_new.
  assert (closed (inf (NewInformer (U := list string) refusingStore "" []))
          = false) as H1 by evaluate.
  assert (syncers (inf (NewInformer (U := list string) refusingStore "" []))
            !! syncerKeyOf watchOrders = None) as H2 by evaluate.
  assert (syncerError (store (inf (NewInformer (U := list string)
                                     refusingStore "" []))) = None)
    as H3 by evaluate.
  assert (syncError (store (inf (NewInformer (U := list string)
                                   refusingStore "" []))) = Some "refused")
    as H4 by evaluate.
  split; [exact H0|]. split; [exact H1|]. split; [exact H2|].
  split; [exact H3|]. split; [exact H4|].
  exact (proj2 (proj2 (proj2
           (failed_subscription_leaks_syncer watchOrders "refused" [DoClose]
              _ H0 H1 H2 H3 H4)))).
Defined.

Lemma dashed_names_share_a_syncerKey_witness :
  closed (inf unscoped) = false
  ∧ syncerError (store (inf unscoped)) = None
  ∧ syncError (store (inf unscoped)) = None
  ∧ ServiceInstanceSpecKey "pay-eu" "1" ≠ ServiceInstanceSpecKey "pay" "eu-1"
  ∧ secondRefused unscoped
      (PartOfServiceInstanceSpec "pay-eu" "1" AllParts always)
      (PartOfServiceInstanceSpec "pay" "eu-1" AllParts always).
Proof.
  assert (closed (inf unscoped) = false) as H1 by evaluate.
  assert (syncerError (store (inf unscoped)) = None) as H2 by evaluate.
  assert (syncError (store (inf unscoped)) = None) as H3 by evaluate.
  split; [exact H1|]. split; [exact H2|]. split; [exact H3|].
  destruct (dashed_names_share_a_syncerKey (U := list string)
              "pay" "eu" "1" AllParts unscoped H1 H2 H3) as [[Hk Hs] _].
  split; [exact Hk|]. apply Hs. evaluate.
Defined.

Lemma global_services_replaced_witness :
  (∃ k v t,
      ({[ TenantSpecKey GlobalTenant := globalTenantYaml ]}
       : gmap string string) !! k = Some v
      ∧ Unmarshal v = Some t ∧ Tenant_Name t = GlobalTenant)
  ∧ service2Tenants
      (updateGlobalServices {[ TenantSpecKey GlobalTenant := globalTenantYaml ]}
         (inf scoped)).2
    = service2Tenants (inf scoped).
Proof.
  assert (∃ k v t,
             ({[ TenantSpecKey GlobalTenant := globalTenantYaml ]}
              : gmap string string) !! k = Some v
             ∧ Unmarshal v = Some t ∧ Tenant_Name t = GlobalTenant) as H1.
  { exists (TenantSpecKey GlobalTenant), globalTenantYaml, globalTenant.
    split; [evaluate|]. split; evaluate. }
  split; [exact H1|].
  exact (proj1 (proj2 (global_services_replaced _ (inf scoped) H1))).
Defined.

(** The global tenant first lists [auth], then [orders]: the set becomes
    [orders] alone. *)
Example scenario_global_set_replaced :
  globalServices (updateGlobalServices
                    {[ TenantSpecKey GlobalTenant := retailTenantYaml ]}
                    (inf scoped)).2
  = globalServices (inf scoped)
  ∧ globalServices (inf scoped) = {[ "auth" := true ]}.
Proof. split; vm_compute; reflexivity. Qed.

Lemma no_filter_without_scope_witness :
  register (AllServiceSpecs untilEmpty) unscoped = (None, unscopedWatching)
  ∧ cluster.isOpen (length (heap unscoped)) (heap unscopedWatching) = true
  ∧ (service (inf unscopedWatching) = ""
     ∨ boolAt (globalServices (inf unscopedWatching))
         (service (inf unscopedWatching)) = true)
  ∧ hands (length (heap unscoped)) "prefix-service" untilEmpty threeServices
      (omap Unmarshal threeServices) unscopedWatching.
Proof.
  assert (register (AllServiceSpecs untilEmpty) unscoped
          = (None, unscopedWatching)) as Hr by (apply register_returned; evaluate).
  assert (cluster.isOpen (length (heap unscoped)) (heap unscopedWatching)
          = true) as Ho by evaluate.
  assert (service (inf unscopedWatching) = ""
          ∨ boolAt (globalServices (inf unscopedWatching))
              (service (inf unscopedWatching)) = true) as H1
    by (left; evaluate).
  split; [exact Hr|]. split; [exact Ho|]. split; [exact H1|].
  exact (no_filter_without_scope (AllServiceSpecs untilEmpty) []
           threeServices unscoped unscopedWatching Hr Ho H1).
Defined.

Lemma internal_watches_run_until_close_witness :
  "orders" ≠ ""
  ∧ ioError meshStore ServiceSpecPrefix = None
  ∧ ioError meshStore (TenantSpecKey GlobalTenant) = None
  ∧ syncerError meshStore = None
  ∧ syncError meshStore = None
  ∧ noClose (U := list string)
      [DoRegister watchOrders; DeliverPrefix 0 ∅;
       DoStopServiceSpec "orders" AllParts; Deliver 2 None]
  ∧ running "informer-service" 0 (internalHandler buildServiceToTenantMap)
      (run [DoRegister watchOrders; DeliverPrefix 0 ∅;
            DoStopServiceSpec "orders" AllParts; Deliver 2 None]
         (NewInformer meshStore "orders" [])).
Proof.
  assert ("orders" ≠ "") as H0 by evaluate.
  assert (ioError meshStore ServiceSpecPrefix = None) as H1 by evaluate.
  assert (ioError meshStore (TenantSpecKey GlobalTenant) = None) as H1'
    by evaluate.
  assert (syncerError meshStore = None) as H2 by evaluate.
  assert (syncError meshStore = None) as H3 by evaluate.
  assert (noClose (U := list string)
            [DoRegister watchOrders; DeliverPrefix 0 ∅;
             DoStopServiceSpec "orders" AllParts; Deliver 2 None]) as H4.
  { repeat constructor; intros H; discriminate H. }
  split; [exact H0|]. split; [exact H1|]. split; [exact H1'|].
  split; [exact H2|]. split; [exact H3|]. split; [exact H4|].
  exact (proj1 (internal_watches_run_until_close meshStore "orders" [] _
                  H0 H1 H1' H2 H3 H4)).
Defined.

Lemma construction_failure_disables_filter_witness :
  ioError failingStore ServiceSpecPrefix = Some "unavailable"
  ∧ register (AllServiceSpecs untilEmpty)
      (NewInformer failingStore "orders" [])
    = (None, unindexedWatching)
  ∧ cluster.isOpen (length (heap (NewInformer (U := list string)
                                    failingStore "orders" [])))
      (heap unindexedWatching) = true
  ∧ service2Tenants (inf (NewInformer (U := list string) failingStore
                            "orders" [])) = ∅
  ∧ hands (length (heap (NewInformer (U := list string) failingStore
                           "orders" [])))
      "prefix-service" untilEmpty threeServices
      (omap Unmarshal threeServices) unindexedWatching.
Proof.
  assert (ioError failingStore ServiceSpecPrefix = Some "unavailable")
    as H1 by evaluate.
  assert (register (AllServiceSpecs untilEmpty)
            (NewInformer failingStore "orders" [])
          = (None, unindexedWatching)) as Hr
    by (apply register_returned; evaluate).
  assert (cluster.isOpen (length (heap (NewInformer (U := list string)
                                          failingStore "orders" [])))
            (heap unindexedWatching) = true) as Ho by evaluate.
  split; [exact H1|]. split; [exact Hr|]. split; [exact Ho|].
  destruct (construction_failure_disables_filter failingStore "orders"
              "unavailable" [] [] []
              (AllServiceSpecs untilEmpty) threeServices unindexedWatching H1)
    as (_ & _ & Hs & _ & _ & Hh).
  split; [exact Hs | exact (Hh Hr Ho)].
Defined.

(** The informer of [orders] is built while the store fails.  A prefix
    watch on all services is then registered, and its callback is handed
    the services of every tenant. *)
Example scenario_failed_construction_sees_all :
  (register (AllServiceSpecs untilEmpty)
     (NewInformer failingStore "orders" [])).1 = None
  ∧ user (receivePrefix 0 threeServices unindexedWatching)
    = (map_to_list (omap (Unmarshal (E := Service)) threeServices)).*1
  ∧ length (map_to_list (omap (Unmarshal (E := Service)) threeServices)) = 3.
Proof. repeat split; vm_compute; reflexivity. Qed.

Lemma tenant_read_failure_leaves_no_global_set_witness :
  "orders" ≠ ""
  ∧ ioError tenantlessStore ServiceSpecPrefix = None
  ∧ ioError tenantlessStore (TenantSpecKey GlobalTenant) = Some "unavailable"
  ∧ syncerError tenantlessStore = None
  ∧ syncError tenantlessStore = None
  ∧ globalServices
      (inf (run [DeliverPrefix 0 threeServices]
              (NewInformer (U := list string) tenantlessStore "orders" [])))
    = ∅
  ∧ syncers
      (inf (run [DeliverPrefix 0 threeServices]
              (NewInformer (U := list string) tenantlessStore "orders" [])))
      !! "informer-global-tenant" = None.
Proof.
  assert ("orders" ≠ "") as H0 by evaluate.
  assert (ioError tenantlessStore ServiceSpecPrefix = None) as H1 by evaluate.
  assert (ioError tenantlessStore (TenantSpecKey GlobalTenant)
          = Some "unavailable") as H2 by evaluate.
  assert (syncerError tenantlessStore = None) as H3 by evaluate.
  assert (syncError tenantlessStore = None) as H4 by evaluate.
  split; [exact H0|]. split; [exact H1|]. split; [exact H2|].
  split; [exact H3|]. split; [exact H4|].
  destruct (tenant_read_failure_leaves_no_global_set (U := list string)
              tenantlessStore "orders" "unavailable" []
              [DeliverPrefix 0 threeServices] H0 H1 H2 H3 H4)
    as (_ & _ & _ & Hg & _ & Hk).
  split; [exact Hg | exact Hk].
Defined.

(** The informer of [orders] is built while the read of the global
    tenant fails: the service-to-tenant map is there, with one syncer for
    its watch, and [auth], which the global tenant of the store lists,
    is not visible to [orders]. *)
Example scenario_half_built_informer :
  service2Tenants (inf (NewInformer (U := list string) tenantlessStore
                          "orders" []))
  = <[ "orders" := "retail" ]>
      (<[ "auth" := "platform" ]> {[ "pay" := "bank" ]})
  ∧ syncers (inf (NewInformer (U := list string) tenantlessStore "orders" []))
    = {[ "informer-service" := 0 ]}
  ∧ filterServices
      (inf (NewInformer (U := list string) tenantlessStore "orders" []))
      threeServices
    = {[ ServiceSpecKey "orders" := orders ]}.
Proof. repeat split; vm_compute; reflexivity. Qed.

End MoreInformerSamples.

End InformerExtras.
